(** * brainpipe: connectivity helpers, Granger causality, classification statistics

    A shallow embedding of

      - [brainpipe/connectivity/correction.py]
      - [brainpipe/connectivity/stgc.py]
      - [xPOO/classification.py]  (the dispatch of [classify.stat], [defClf],
        [defCv] and [_define])

    Conventions of the embedding.

    - Python values that are mutable and shared (numpy arrays, pandas tables,
      Python lists passed as arguments) live in a [store]; a function of the
      source is a computation in the monad [M], which threads the store and
      an [outcome] (a value or a raised exception).  Arrays that a function
      creates and then fills in place are allocated in the store and updated
      there; intermediate values of an expression are plain values.
    - The entries of an [Arr2] are exact rationals ([Q]).  This is how the
      code treats entries that it only moves from one place to another, and
      it is the arithmetic of the 0/1 integers of [select.astype(int)].
      Where the code computes with doubles nothing is taken from exact
      arithmetic: [symmetrize] on a float64 array ([FloatArr2]) uses the
      IEEE 754 operations of [spec_float], with their rounding, overflow and
      NaN; the means of [anat_based_mean], whose summation is numpy's and
      pandas' and not part of this repository, are parameters; the last
      lines of [covgc_time] classify doubles and are modelled on
      [spec_float].
    - A string argument that the code compares with [is] carries, besides
      its characters, whether it is the interned object ([py_str]).
    - Strings are ASCII; [\d] is [0-9].
    - [NotModelled] is not a Python exception: it marks an input on which the
      embedding does not say what numpy does (for instance a masked array
      given to a function that has no masked-array code of its own). *)

From Stdlib Require Import ZArith QArith Lia Ascii.
From Stdlib Require Import Floats.SpecFloat.
From stdpp Require Import base list strings sorting pretty.

Set Default Proof Using "Type".

(** ** Outcomes of a Python call *)

Inductive exn :=
| AssertionError
| IndexError
| ValueError
| TypeError
| KeyError
| AttributeError
| UnboundLocalError
| LinAlgError
| NotModelled.

Inductive outcome (A : Type) :=
| Ok (a : A)
| Raise (e : exn).
Arguments Ok {A} a.
Arguments Raise {A} e.

#[global] Instance exn_eq_dec : EqDecision exn.
Proof. solve_decision. Defined.

#[global] Instance outcome_ret : MRet outcome := λ A a, Ok a.
#[global] Instance outcome_bind : MBind outcome := λ A B f m,
  match m with
  | Ok a => f a
  | Raise e => Raise e
  end.
#[global] Instance outcome_fmap : FMap outcome := λ A B f m,
  match m with
  | Ok a => Ok (f a)
  | Raise e => Raise e
  end.

Definition of_option {A} (e : exn) (o : option A) : outcome A :=
  match o with
  | Some a => Ok a
  | None => Raise e
  end.

(** [mapM] for outcomes, left to right, stopping at the first exception. *)
Fixpoint traverse {A B} (f : A → outcome B) (l : list A) : outcome (list B) :=
  match l with
  | [] => Ok []
  | a :: l' => b ← f a; bs ← traverse f l'; Ok (b :: bs)
  end.

(** ** Matrices as lists of rows *)

Abbreviation matrix A := (list (list A)) (only parsing).

Definition nrows {A} (m : matrix A) : nat := length m.
Definition ncols {A} (m : matrix A) : nat :=
  match m with
  | [] => 0
  | r :: _ => length r
  end.

(** [m[i, j]] for in-range indices. *)
Definition get2 {A} (m : matrix A) (i j : nat) : option A :=
  r ← m !! i; r !! j.

(** [m[i, j] = x]; nothing happens out of range (callers check the range). *)
Definition set2 {A} (m : matrix A) (i j : nat) (x : A) : matrix A :=
  alter (<[j := x]>) i m.

Definition tabulate {A} (r c : nat) (f : nat → nat → A) : matrix A :=
  (λ i, f i <$> seq 0 c) <$> seq 0 r.

(** [m.T], with [d] where a short row has no entry. *)
Definition transpose {A} (d : A) (m : matrix A) : matrix A :=
  tabulate (ncols m) (nrows m) (λ i j, default d (get2 m j i)).

(** [np.fill_diagonal(m, x)] *)
Definition fill_diagonal {A} (m : matrix A) (x : A) : matrix A :=
  imap (λ i row, <[i := x]> row) m.

(** [np.triu(m)], with [z] below the diagonal. *)
Definition triu {A} (z : A) (m : matrix A) : matrix A :=
  imap (λ i row, imap (λ j x, if bool_decide (i ≤ j) then x else z) row) m.

(** [np.full((r, c), x)] *)
Definition full {A} (r c : nat) (x : A) : matrix A :=
  replicate r (replicate c x).

(** All rows have the length [c] and there are [r] of them. *)
Definition has_shape {A} (r c : nat) (m : matrix A) : Prop :=
  length m = r ∧ Forall (λ row, length row = c) m.

Definition has_shapeb {A} (r c : nat) (m : matrix A) : bool :=
  (length m =? r) && forallb (λ row, length row =? c) m.

(** Python item access with a range check. *)
Definition getitem2 {A} (m : matrix A) (i j : nat) : outcome A :=
  of_option IndexError (get2 m i j).

Definition setitem2 {A} (m : matrix A) (i j : nat) (x : A) : outcome (matrix A) :=
  match get2 m i j with
  | Some _ => Ok (set2 m i j x)
  | None => Raise IndexError
  end.

(** ** numpy index helpers *)

(** All positions of an [n]×[n] array in row-major order. *)
Definition grid (n : nat) : list (nat * nat) :=
  i ← seq 0 n; j ← seq 0 n; [(i, j)].

(** [np.triu_indices(n, k)]: the positions [(i, j)] with [j - i >= k], in
    row-major order, as the tuple (row indices, column indices). *)
Definition triu_indices (n : nat) (k : Z) : list nat * list nat :=
  let l := filter (λ p : nat * nat, (Z.of_nat p.1 + k ≤ Z.of_nat p.2)%Z) (grid n) in
  (l.*1, l.*2).

(** [np.tril_indices(n, k)]: the positions [(i, j)] with [j - i <= k]. *)
Definition tril_indices (n : nat) (k : Z) : list nat * list nat :=
  let l := filter (λ p : nat * nat, (Z.of_nat p.2 ≤ Z.of_nat p.1 + k)%Z) (grid n) in
  (l.*1, l.*2).

(** [np.c_[idx]] for a tuple of two index arrays: the (n, 2) array of rows. *)
Definition np_c_ (idx : list nat * list nat) : list (nat * nat) :=
  zip idx.1 idx.2.

(** [np.diag_indices(n)] *)
Definition diag_indices (n : nat) : list nat * list nat :=
  (seq 0 n, seq 0 n).

(** [a[rows, cols] = x] for a scalar [x]. *)
Definition assign_at {A} (m : matrix A) (idx : list (nat * nat)) (x : A) : matrix A :=
  foldl (λ acc p, set2 acc p.1 p.2 x) m idx.

(** ** Arrays, tables and the store *)

Inductive ndarray :=
| Arr1 (v : list Q)                          (* numeric array, ndim = 1 *)
| Arr2 (m : matrix Q)                        (* numeric array, ndim = 2 *)
| MArr2 (m : matrix Q) (mask : matrix bool)  (* np.ma.MaskedArray, ndim = 2 *)
| BoolArr2 (m : matrix bool)                 (* bool array, ndim = 2 *)
| IntArr1 (v : list nat)                     (* index array, ndim = 1 *)
| IntArr2 (m : list (nat * nat))             (* index array of shape (n, 2) *)
| FloatArr2 (m : matrix spec_float)          (* array of IEEE doubles, ndim = 2 *)
| CplxArr2 (m : matrix (spec_float * spec_float))  (* complex array, ndim = 2 *)
| ArrN (shape : list nat).                   (* ndim = 0 or ndim > 2: only the shape is observed *)

(** A table cell: a label or a number. *)
Inductive cell :=
| CStr (s : string)
| CNum (q : Q).

(** A [pd.DataFrame] with the default [RangeIndex]: [df_len] rows and named
    columns in order. *)
Record DataFrame := mkDataFrame {
  df_len : nat;
  df_cols : list (string * list cell)
}.

Inductive obj :=
| ONd (a : ndarray)
| OFrame (df : DataFrame)
| OList (l : list (list Q)).      (* a nested Python list of numbers *)

Abbreviation loc := nat (only parsing).
Abbreviation store := (list obj) (only parsing).

Definition shape (a : ndarray) : list nat :=
  match a with
  | Arr1 v => [length v]
  | Arr2 m => [nrows m; ncols m]
  | MArr2 m _ => [nrows m; ncols m]
  | BoolArr2 m => [nrows m; ncols m]
  | IntArr1 v => [length v]
  | IntArr2 m => [length m; 2]
  | FloatArr2 m => [nrows m; ncols m]
  | CplxArr2 m => [nrows m; ncols m]
  | ArrN s => s
  end.

Definition ndim (a : ndarray) : nat := length (shape a).

(** ** Arithmetic of an array

    The element-wise [+] and [-] of numpy are those of the dtype of the
    array: exact on the numbers of an [Arr2], and the IEEE 754 binary64
    operations (round to nearest even, overflow to an infinity, NaN for
    [inf - inf]) on the doubles of a [FloatArr2]. *)

Class Dtype (A : Type) := {
  dzero : A;
  dadd : A → A → A;
  dsub : A → A → A
}.

#[global] Instance exact_numbers : Dtype Q :=
  {| dzero := 0%Q; dadd := Qplus; dsub := Qminus |}.

(** [+] and [-] of two doubles *)
Definition f64_add : spec_float → spec_float → spec_float := SFadd 53 1024.
Definition f64_sub : spec_float → spec_float → spec_float := SFsub 53 1024.

#[global] Instance float64 : Dtype spec_float :=
  {| dzero := S754_zero false; dadd := f64_add; dsub := f64_sub |}.

(** ** Strings compared by identity *)

(** A Python [str] given as an argument: its characters, and whether the
    object is the interned one.  CPython interns the string constants of a
    program that are spelled like identifiers, so every literal ['soft'] of
    a program is one object; a string built at run time (read from a file,
    joined, lower-cased) is another object with the same characters. *)
Record py_str := mk_str {
  chars : string;
  interned : bool
}.

(** A string literal of the calling code, such as the default [mode='soft']. *)
Definition literal (s : string) : py_str := mk_str s true.

(** [s is 'lit'] for a literal ['lit'] of the source *)
Definition is_literal (s : py_str) (lit : string) : bool :=
  interned s && bool_decide (chars s = lit).

(** ** The store monad *)

Definition M (A : Type) : Type := store → outcome A * store.

#[global] Instance M_ret : MRet M := λ A a h, (Ok a, h).
#[global] Instance M_bind : MBind M := λ A B f m h,
  match m h with
  | (Ok a, h') => f a h'
  | (Raise e, h') => (Raise e, h')
  end.

Definition raise {A} (e : exn) : M A := λ h, (Raise e, h).
Definition lift {A} (o : outcome A) : M A := λ h, (o, h).

(** [assert b] *)
Definition assert_ (b : bool) : M () :=
  if b then mret () else raise AssertionError.

(** A new object: its location is the first unused one. *)
Definition alloc (o : obj) : M loc := λ h, (Ok (length h), h ++ [o]).

(** The object a reference points to.  References held by Python code always
    point to an object; a dangling location is outside the model. *)
Definition load (l : loc) : M obj := λ h, (of_option NotModelled (h !! l), h).

(** In-place update of the object at [l]. *)
Definition update (l : loc) (o : obj) : M () := λ h, (Ok (), <[l := o]> h).

(** [for x in xs: body x] *)
Fixpoint for_each {A} (xs : list A) (body : A → M ()) : M () :=
  match xs with
  | [] => mret ()
  | x :: xs' => body x;; for_each xs' body
  end.

(** [for x in xs: acc = body acc x] *)
Fixpoint fold_each {A S} (xs : list A) (body : S → A → M S) (s : S) : M S :=
  match xs with
  | [] => mret s
  | x :: xs' => s' ← body s x; fold_each xs' body s'
  end.

(** [enumerate(xs)] *)
Definition enumerate {A} (xs : list A) : list (nat * A) :=
  zip (seq 0 (length xs)) xs.

(** [isinstance(o, np.ndarray)] followed by an attribute of the array. *)
Definition as_ndarray (o : obj) : option ndarray :=
  match o with
  | ONd a => Some a
  | _ => None
  end.

Definition isinstance_ndarray (o : obj) : bool :=
  bool_decide (is_Some (as_ndarray o)).

(** [o.ndim], [o.shape]: an [AttributeError] for tables and lists. *)
Definition attr_ndarray (o : obj) : M ndarray :=
  lift (of_option AttributeError (as_ndarray o)).

(** The plain float matrix behind a 2-D array given as connectivity input. *)
Definition plain2 (a : ndarray) : M (matrix Q) :=
  match a with
  | Arr2 m => mret m
  | _ => raise NotModelled
  end.

(** * correction.py *)

Module Correction.

(** ** [get_pairs] *)

(** What [get_pairs] returns: the (n_pairs, 2) array ([as_array=True]) or the
    tuple of the two index arrays. *)
Inductive pairs_ref :=
| PairsArray (l : loc)
| PairsTuple (lr lc : loc).

Definition get_pairs (n : nat) (part : string) (as_array : bool) : M pairs_ref :=
  assert_ (bool_decide (part ∈ ["upper"; "lower"; "both"]));;
  idx ← (if bool_decide (part = "upper") then
           mret (triu_indices n 1)
         else if bool_decide (part = "lower") then
           mret (tril_indices n (-1))
         else if bool_decide (part = "both") then
           let high := np_c_ (triu_indices n 1) in
           let low := np_c_ (tril_indices n (-1)) in
           let _idx := high ++ low in
           mret (_idx.*1, _idx.*2)
         else raise UnboundLocalError);
  if as_array then
    l ← alloc (ONd (IntArr2 (np_c_ idx)));
    mret (PairsArray l)
  else
    lr ← alloc (ONd (IntArr1 idx.1));
    lc ← alloc (ONd (IntArr1 idx.2));
    mret (PairsTuple lr lc).

Definition load_index_array (l : loc) : M (list nat) :=
  o ← load l;
  match o with
  | ONd (IntArr1 v) => mret v
  | _ => raise NotModelled
  end.

(** The two index arrays of [get_pairs(..., as_array=False)]. *)
Definition load_pairs (p : pairs_ref) : M (list nat * list nat) :=
  match p with
  | PairsTuple lr lc =>
      r ← load_index_array lr;
      c ← load_index_array lc;
      mret (r, c)
  | PairsArray _ => raise NotModelled
  end.

(** [isinstance(o, np.ndarray) and o.ndim == d] *)
Definition is_ndarray_of_ndim (o : obj) (d : nat) : bool :=
  match o with
  | ONd a => ndim a =? d
  | _ => false
  end.

(** ** [ravel_connect] *)

(** [connect[rows, cols]]: a new 1-D array. *)
Definition gather (m : matrix Q) (idx : list nat * list nat) : outcome (list Q) :=
  traverse (λ p, getitem2 m p.1 p.2) (zip idx.1 idx.2).

Definition ravel_connect (connect : loc) (part : string) : M loc :=
  o ← load connect;
  assert_ (is_ndarray_of_ndim o 2);;
  a ← attr_ndarray o;
  assert_ (bool_decide (shape a !! 0 = shape a !! 1));;
  pairs ← get_pairs (default 0 (shape a !! 0)) part false;
  idx ← load_pairs pairs;
  m ← plain2 a;
  v ← lift (gather m idx);
  alloc (ONd (Arr1 v)).

(** ** [unravel_connect] *)

(** [m[rows, cols] = vals]: element by element in order; a value of length one
    is broadcast; any other length mismatch is a [ValueError]. *)
Definition scatter (m : matrix Q) (idx : list nat * list nat) (vals : list Q)
    : outcome (matrix Q) :=
  let pos := zip idx.1 idx.2 in
  if length vals =? length pos then
    foldl (λ acc pv, m' ← acc; setitem2 m' pv.1.1 pv.1.2 pv.2) (Ok m) (zip pos vals)
  else
    match vals with
    | [x] => foldl (λ acc p, m' ← acc; setitem2 m' p.1 p.2 x) (Ok m) pos
    | _ => Raise ValueError
    end.

Definition unravel_connect (connect : loc) (n_sites : nat) (part : string) : M loc :=
  o ← load connect;
  assert_ (is_ndarray_of_ndim o 1);;
  pairs ← get_pairs n_sites part false;
  idx ← load_pairs pairs;
  connect_ur ← alloc (ONd (Arr2 (full n_sites n_sites 0%Q)));
  v ← match o with
      | ONd (Arr1 v) => mret v
      | _ => raise NotModelled
      end;
  m ← lift (scatter (full n_sites n_sites 0%Q) idx v);
  update connect_ur (ONd (Arr2 m));;
  mret connect_ur.

(** ** [symmetrize] *)

(** [m.T] *)
Definition np_T `{Dtype A} (m : matrix A) : matrix A := transpose dzero m.

(** Element-wise [+] and [-] of arrays of one shape. *)
Definition np_add `{Dtype A} (a b : matrix A) : matrix A := zip_with (zip_with dadd) a b.
Definition np_sub `{Dtype A} (a b : matrix A) : matrix A := zip_with (zip_with dsub) a b.

(** [m.diagonal()] *)
Definition diagonal `{Dtype A} (m : matrix A) : list A :=
  (λ i, default dzero (get2 m i i)) <$> seq 0 (min (nrows m) (ncols m)).

(** [np.diag(v)] for a 1-D [v] *)
Definition np_diag `{Dtype A} (v : list A) : matrix A :=
  tabulate (length v) (length v)
    (λ i j, if bool_decide (i = j) then default dzero (v !! i) else dzero).

(** [arr + arr.T - np.diag(arr.diagonal())] in the arithmetic of the array;
    numpy has no [-] for booleans and raises [TypeError]. *)
Definition symmetrize (arr : loc) : M loc :=
  o ← load arr;
  assert_ (isinstance_ndarray o);;
  a ← attr_ndarray o;
  assert_ (match shape a with
           | [r; c] => r =? c
           | _ => false
           end);;
  match a with
  | Arr2 m =>
      alloc (ONd (Arr2 (np_sub (np_add m (np_T m)) (np_diag (diagonal m)))))
  | FloatArr2 m =>
      alloc (ONd (FloatArr2 (np_sub (np_add m (np_T m)) (np_diag (diagonal m)))))
  | BoolArr2 _ => raise TypeError
  | _ => raise NotModelled
  end.

(** ** [concat_connect] *)

(** [np.ma.is_masked(a)]: a masked array with at least one masked entry. *)
Definition is_masked (a : ndarray) : bool :=
  match a with
  | MArr2 _ mask => existsb (existsb id) mask
  | _ => false
  end.

(** The entries of a 2-D array read as floats. *)
Definition data2 (a : ndarray) : M (matrix Q) :=
  match a with
  | Arr2 m => mret m
  | MArr2 m _ => mret m
  | BoolArr2 m => mret (fmap (M := list) (λ b : bool, if b then 1%Q else 0%Q) <$> m)
  | IntArr2 m => mret ((λ p : nat * nat, [inject_Z (Z.of_nat p.1); inject_Z (Z.of_nat p.2)]) <$> m)
  | _ => raise NotModelled
  end.

(** [m[q:q+s, q:q+s] = c] for a [c] with [s] rows: [c] must have [s] columns,
    or one column, which is then repeated. *)
Definition set_block {A} (d : A) (m : matrix A) (q s : nat) (c : matrix A)
    : outcome (matrix A) :=
  let inside i := bool_decide (q ≤ i < q + s) in
  let put (f : nat → nat → A) :=
    imap (λ i row, imap (λ j x, if inside i && inside j then f (i - q) (j - q) else x) row) m in
  if ncols c =? s then Ok (put (λ i j, default d (get2 c i j)))
  else if ncols c =? 1 then Ok (put (λ i j, default d (get2 c i 0)))
  else Raise ValueError.

(** [aconnect[sl, sl] = c] on the array at [a]. *)
Definition assign_block (a : loc) (q s : nat) (c : ndarray) : M () :=
  cd ← data2 c;
  o ← load a;
  match o with
  | ONd (Arr2 m) =>
      m' ← lift (set_block 0%Q m q s cd);
      update a (ONd (Arr2 m'))
  | ONd (MArr2 m k) =>
      m' ← lift (set_block 0%Q m q s cd);
      let ck := match c with
                | MArr2 _ ck => ck
                | _ => full (nrows cd) (ncols cd) false
                end in
      k' ← lift (set_block false k q s ck);
      update a (ONd (MArr2 m' k'))
  | _ => raise NotModelled
  end.

Definition concat_connect (connect : list loc) (fill_with : Q) : M loc :=
  (* [k.ndim] and [k.shape] need arrays *)
  arrs ← fold_each connect (λ acc l, o ← load l; a ← attr_ndarray o; mret (acc ++ [a])) [];
  assert_ (forallb (λ k, ndim k =? 2) arrs);;
  let shapes := (λ k, default 0 (shape k !! 0)) <$> arrs in
  (* [np.sum([shapes])] of no shape at all is the float [0.0], which
     [np.full] refuses as a dimension *)
  sh ← (match shapes with
        | [] => raise TypeError
        | _ => mret (sum_list shapes)
        end);
  aconnect ← alloc (ONd (Arr2 (full sh sh fill_with)));
  (if existsb is_masked arrs then
     update aconnect (ONd (MArr2 (full sh sh fill_with) (full sh sh true)))
   else mret ());;
  fold_each (zip arrs shapes)
    (λ q cs, assign_block aconnect q cs.2 cs.1;; mret (q + cs.2)) 0;;
  mret aconnect.

(** ** pandas: [df.groupby(col, sort=...).groups] *)

Definition cell_eqb (a b : cell) : bool :=
  match a, b with
  | CStr s, CStr t => String.eqb s t
  | CNum p, CNum q => Qeq_bool p q
  | _, _ => false
  end.

(** The order pandas sorts group keys by: numbers before labels, numbers by
    value, labels by code point. *)
Definition cell_leb (a b : cell) : bool :=
  match a, b with
  | CStr s, CStr t => String.leb s t
  | CNum p, CNum q => Qle_bool p q
  | CNum _, CStr _ => true
  | CStr _, CNum _ => false
  end.

(** The distinct values of a column in the order of their first appearance. *)
Fixpoint uniques (l : list cell) : list cell :=
  match l with
  | [] => []
  | x :: l' => x :: filter (λ y, ¬ cell_eqb y x) (uniques l')
  end.

(** The row numbers at which a column holds the key [k], ascending. *)
Definition positions (k : cell) (column : list cell) : list nat :=
  (filter (λ p : nat * cell, cell_eqb p.2 k) (enumerate column)).*1.

(** The dictionary [groups]: key ↦ row labels, keys sorted when [sort] is set
    (the default of [groupby]) and in order of first appearance otherwise. *)
Definition groupby_groups (sort : bool) (column : list cell) : list (cell * list nat) :=
  let keys := uniques column in
  let keys := if sort then merge_sort (λ a b, cell_leb a b) keys else keys in
  (λ k, (k, positions k column)) <$> keys.

Fixpoint df_lookup (cols : list (string * list cell)) (name : string) : option (list cell) :=
  match cols with
  | [] => None
  | (n, c) :: cols' => if String.eqb n name then Some c else df_lookup cols' name
  end.

(** [df.keys()] *)
Definition df_keys (d : DataFrame) : list string := (df_cols d).*1.

(** [df[name] = values]: replaces the column or appends a new one. *)
Fixpoint set_column (cols : list (string * list cell)) (name : string) (v : list cell)
    : list (string * list cell) :=
  match cols with
  | [] => [(name, v)]
  | (n, c) :: cols' =>
      if String.eqb n name then (n, v) :: cols' else (n, c) :: set_column cols' name v
  end.

(** [df.keys()] and [df.groupby] need a table. *)
Definition attr_frame (o : obj) : M DataFrame :=
  match o with
  | OFrame d => mret d
  | _ => raise AttributeError
  end.

(** [df[col]] for a column that [col in df.keys()] has found. *)
Definition column (d : DataFrame) (col : string) : list cell :=
  default [] (df_lookup (df_cols d) col).

(** ** [anat_based_reorder] *)

(** [np.concatenate(ls)] of a list of lists of indices. *)
Definition np_concatenate (ls : list (list nat)) : outcome (list nat) :=
  match ls with
  | [] => Raise ValueError
  | _ => Ok (concat ls)
  end.

Definition modify_plain2 (l : loc) (f : matrix Q → outcome (matrix Q)) : M () :=
  o ← load l;
  match o with
  | ONd (Arr2 m) => m' ← lift (f m); update l (ONd (Arr2 m'))
  | _ => raise NotModelled
  end.

Definition anat_based_reorder (c df : loc) (col part : string)
    : M (loc * list string * loc) :=
  oc ← load c;
  assert_ (is_ndarray_of_ndim oc 2);;
  odf ← load df;
  d ← attr_frame odf;
  assert_ (bool_decide (col ∈ df_keys d));;
  a ← attr_ndarray oc;
  let n_elec := default 0 (shape a !! 0) in
  (* Group DataFrame column : *)
  let grp := groupby_groups true (column d col) in
  let labels := df_keys d in
  idx ← lift (np_concatenate (grp.*2));
  index ← alloc (ONd (IntArr1 idx));
  (* Get pairs : *)
  p ← get_pairs n_elec part false;
  rc ← load_pairs p;
  let pairs := np_c_ rc in
  (* Reconstruct the array : *)
  cm ← plain2 a;
  c_r ← alloc (ONd (Arr2 (full (nrows cm) (ncols cm) 0%Q)));
  for_each pairs (λ ki,
    let '(k, i) := ki in
    ix ← load_index_array index;
    ik ← lift (of_option IndexError (ix !! k));
    ii ← lift (of_option IndexError (ix !! i));
    let row := min ik ii in
    let col := max ik ii in
    oc ← load c;
    a ← attr_ndarray oc;
    cm ← plain2 a;
    v ← lift (getitem2 cm k i);
    modify_plain2 c_r (λ m, setitem2 m row col v));;
  mret (c_r, labels, index).

(** ** [anat_based_mean] *)

Inductive mean_result :=
| RetNone                                              (* falls off the end *)
| Ret2 (con : loc) (labels : list cell)
| Ret3 (con : loc) (labels : list cell) (xyz_r : loc).

(** [x[_r, cols]] for a column vector [_r] of row numbers: the block of the
    rows [rows] and the columns [cols], flattened. *)
Definition block {A} (m : matrix A) (rows cols : list nat) : outcome (list A) :=
  traverse (λ p : nat * nat, getitem2 m p.1 p.2) (r ← rows; c ← cols; [(r, c)]).

(** [x += x.T] for a plain 2-D array: the shapes must agree. *)
Definition iadd_transpose (m : matrix Q) : outcome (matrix Q) :=
  if nrows m =? ncols m then Ok (np_add m (np_T m)) else Raise ValueError.

(** [x += x.T] for a masked array: the mask becomes [mask | mask.T], and the
    data of [x.T] is added where the new mask is clear. *)
Definition iadd_transpose_masked (m : matrix Q) (k : matrix bool)
    : outcome (matrix Q * matrix bool) :=
  if nrows m =? ncols m then
    let k' := zip_with (zip_with orb) k (transpose false k) in
    let other := zip_with (zip_with (λ (b : bool) (v : Q), if b then 0%Q else v)) k' (np_T m) in
    Ok (np_add m other, k')
  else Raise ValueError.

(** The numbers of a table column at the rows [members]. *)
Definition numbers_at (column : list cell) (members : list nat) : outcome (list Q) :=
  traverse (λ i, match column !! i with
                 | Some (CNum q) => Ok q
                 | Some (CStr _) => Raise NotModelled
                 | None => Raise IndexError
                 end) members.

(** [xyz[:, j]] *)
Definition column_of (m : matrix Q) (j : nat) : outcome (list cell) :=
  traverse (λ row : list Q, CNum <$> of_option IndexError (row !! j)) m.

Section Means.
  (** The means are taken by numpy and pandas, on doubles and in the order
      of summation of these libraries: they are parameters.  [np_mean] is
      [a.mean()] of a plain array, given its entries in row-major order;
      [ma_mean] is [a.mean()] of a masked array that has an unmasked entry,
      given its entries and its mask; [pd_mean] is the mean that
      [GroupBy.mean] takes of the values of one column in one group. *)
Variable np_mean : list Q → Q.
Variable ma_mean : list Q → list bool → Q.
Variable pd_mean : list Q → Q.

(** The mean of a block of a masked array; [None] is [np.ma.masked], the
    mean of a block without unmasked entry. *)
Definition masked_mean (vals : list Q) (masks : list bool) : option Q :=
  let kept := (filter (λ p : Q * bool, p.2 = false) (zip vals masks)).*1 in
  match kept with
  | [] => None
  | _ => Some (ma_mean vals masks)
  end.

(** [con[r, c] = x[_r, cols].mean()] *)
Definition store_block_mean (x con : loc) (r c : nat) (rows cols : list nat) : M () :=
  ox ← load x;
  ocon ← load con;
  match ox, ocon with
  | ONd (Arr2 m), ONd (Arr2 cm) =>
      vals ← lift (block m rows cols);
      cm' ← lift (setitem2 cm r c (np_mean vals));
      update con (ONd (Arr2 cm'))
  | ONd (MArr2 m k), ONd (MArr2 cm ck) =>
      vals ← lift (block m rows cols);
      masks ← lift (block k rows cols);
      match masked_mean vals masks with
      | Some v =>
          cm' ← lift (setitem2 cm r c v);
          ck' ← lift (setitem2 ck r c false);
          update con (ONd (MArr2 cm' ck'))
      | None =>
          ck' ← lift (setitem2 ck r c true);
          update con (ONd (MArr2 cm ck'))
      end
  | _, _ => raise NotModelled
  end.

(** One row of [np.array(df[['X', 'Y', 'Z']])] after
    [df.groupby(col, sort=False).mean().reset_index().set_index(col)],
    [df.loc[labels].reset_index()]: the group means of the three columns; the
    grouping column itself, when it is one of the three, holds the key.
    Columns that are not numeric are left out by [mean()]. *)
Definition centroid (d : DataFrame) (col : string)
    (groups : list (cell * list nat)) (label : cell) : outcome (list Q) :=
  match list_find (λ g : cell * list nat, cell_eqb g.1 label) groups with
  | None => Raise KeyError
  | Some (_, (key, members)) =>
      traverse (λ name : string,
        if String.eqb name col then
          match key with
          | CNum q => Ok q
          | CStr _ => Raise NotModelled
          end
        else
          vals ← numbers_at (column d name) members;
          Ok (pd_mean vals)) ["X"; "Y"; "Z"]
  end.

Definition anat_based_mean (x df : loc) (col : string) (fill_with : Q)
    (xyz : option loc) : M mean_result :=
  ox ← load x;
  assert_ (is_ndarray_of_ndim ox 2);;
  odf ← load df;
  d ← attr_frame odf;
  assert_ (bool_decide (col ∈ df_keys d));;
  (* Get labels and roi's indices : *)
  let gp := groupby_groups false (column d col) in
  let labels := gp.*1 in
  let rois := gp.*2 in
  let n_roi := length labels in
  (* Process the connectivity array : *)
  (* [np.fill_diagonal(x, 0.)], in place; on a masked array it also clears
     the mask of the diagonal *)
  is_masked ← match ox with
      | ONd (Arr2 m) =>
          update x (ONd (Arr2 (fill_diagonal m 0%Q)));;
          mret false
      | ONd (MArr2 m k) =>
          let k0 := fill_diagonal k false in
          update x (ONd (MArr2 (fill_diagonal m 0%Q) k0));;
          mret (is_masked (MArr2 m k0))
      | _ => raise NotModelled
      end;
  '(x, con) ← (if is_masked : bool then
      ox ← load x;
      match ox with
      | ONd (MArr2 m k) =>
          (* [x.mask = np.triu(x.mask)] *)
          let k1 := triu false k in
          update x (ONd (MArr2 m k1));;
          (* [np.fill_diagonal(x.mask, True)] *)
          let k2 := fill_diagonal k1 true in
          update x (ONd (MArr2 m k2));;
          (* [x += x.T] *)
          mk ← lift (iadd_transpose_masked m k2);
          update x (ONd (MArr2 mk.1 mk.2));;
          con ← alloc (ONd (MArr2 (full n_roi n_roi 1%Q) (full n_roi n_roi false)));
          mret (x, con)
      | _ => raise NotModelled
      end
    else
      ox ← load x;
      match ox with
      | ONd (Arr2 m) | ONd (MArr2 m _) =>
          (* [x = np.triu(x)]: a new array, bound to the local name *)
          x' ← alloc (ONd (Arr2 (triu 0%Q m)));
          (* [x += x.T] *)
          modify_plain2 x' iadd_transpose;;
          con ← alloc (ONd (Arr2 (full n_roi n_roi 0%Q)));
          mret (x', con)
      | _ => raise NotModelled
      end);
  (* Take the mean inside rois : *)
  for_each (enumerate rois) (λ rr,
    for_each (enumerate rois) (λ cc,
      store_block_mean x con rr.1 cc.1 rr.2 cc.2));;
  (* xyz coordinates : *)
  match xyz with
  | None => mret (Ret2 con labels)
  | Some lxyz =>
      oxyz ← load lxyz;
      match as_ndarray oxyz with
      | None => mret RetNone
      | Some axyz =>
          s0 ← lift (of_option IndexError (shape axyz !! 0));
          if df_len d =? s0 then
            m ← plain2 axyz;
            cx ← lift (column_of m 0);
            cy ← lift (column_of m 1);
            cz ← lift (column_of m 2);
            (* [df['X'], df['Y'], df['Z'] = ...] on the caller's table *)
            odf ← load df;
            d ← attr_frame odf;
            let d := mkDataFrame (df_len d) (set_column (df_cols d) "X" cx) in
            update df (OFrame d);;
            let d := mkDataFrame (df_len d) (set_column (df_cols d) "Y" cy) in
            update df (OFrame d);;
            let d := mkDataFrame (df_len d) (set_column (df_cols d) "Z" cz) in
            update df (OFrame d);;
            let groups := groupby_groups false (column d col) in
            rows ← lift (traverse (centroid d col groups) labels);
            xyz_r ← alloc (ONd (Arr2 rows));
            mret (Ret3 con labels xyz_r)
          else mret RetNone
      end
  end.
End Means.

(** ** [remove_site_contact] *)

Definition is_digit (c : ascii) : bool := bool_decide (is_Some (Ascii.is_nat c)).

(** The maximal runs of characters satisfying [p], left to right: what
    [re.findall] returns for a character class followed by [+].  [cur] is the
    run being read, reversed. *)
Fixpoint runs_go (p : ascii → bool) (cur : string) (s : string) : list string :=
  let flush := match cur with
               | EmptyString => []
               | _ => [String.rev cur]
               end in
  match s with
  | EmptyString => flush
  | String c s' =>
      if p c then runs_go p (String c cur) s'
      else flush ++ runs_go p EmptyString s'
  end.

(** [findall(r'\D+', k)] and [findall(r'\d+', k)] *)
Definition findall_nondigits (k : string) : list string :=
  runs_go (λ c, negb (is_digit c)) EmptyString k.
Definition findall_digits (k : string) : list string :=
  runs_go is_digit EmptyString k.

(** [int(s)] for a run of digits *)
Fixpoint int_go (acc : N) (s : string) : N :=
  match s with
  | EmptyString => acc
  | String c s' => int_go (10 * acc + N.of_nat (default 0 (Ascii.is_nat c))) s'
  end.
Definition int (s : string) : N := int_go 0 s.

(** [str(n)] *)
Definition str (n : N) : string := pretty n.

(** [[findall(r'\D+', k)[0]] + findall(r'\d+', k)] *)
Definition parse_channel (k : string) : outcome (list string) :=
  letter ← of_option IndexError (findall_nondigits k !! 0);
  Ok (letter :: findall_digits k).

(** [np.asarray(r)] of a list of lists of strings: the rows must have one
    length. *)
Definition np_asarray (r : list (list string)) : outcome (matrix string) :=
  if forallb (λ row, length row =? ncols r) r then Ok r else Raise ValueError.

(** [np.all(r == next_contact, axis=1)]: [r] must have as many columns as
    [next_contact] has entries. *)
Definition rows_equal (r : matrix string) (next_contact : list string)
    : outcome (list bool) :=
  match r with
  | [] => Ok []
  | _ =>
      if ncols r =? length next_contact
      then Ok ((λ row, bool_decide (row = next_contact)) <$> r)
      else Raise ValueError
  end.

(** [select[i, to_remove] = True] *)
Definition set_row_where (select : matrix bool) (i : nat) (to_remove : list bool)
    : matrix bool :=
  alter (λ row, zip_with (λ (x b : bool), if b then true else x) row to_remove) i select.

Definition modify_bool2 (l : loc) (f : matrix bool → matrix bool) : M () :=
  o ← load l;
  match o with
  | ONd (BoolArr2 m) => update l (ONd (BoolArr2 (f m)))
  | _ => raise NotModelled
  end.

(** [select.astype(int)] and [.astype(bool)] *)
Definition astype_int (m : matrix bool) : matrix Q :=
  fmap (M := list) (λ b : bool, if b then 1%Q else 0%Q) <$> m.
Definition astype_bool (m : matrix Q) : matrix bool :=
  fmap (M := list) (λ q : Q, negb (Qeq_bool q 0)) <$> m.

(** [mode in ['soft', 'hard']] compares characters; [mode is 'soft'] compares
    identities, so a ['soft'] that is not the interned object takes the
    branch of ['hard']. *)
Definition remove_site_contact (mat : loc) (channels : list string) (mode : py_str)
    (remove_lower symmetrical : bool) : M loc :=
  let n_elec := length channels in
  omat ← load mat;
  a ← attr_ndarray omat;
  assert_ (bool_decide (shape a = [n_elec; n_elec])
           && bool_decide (chars mode ∈ ["soft"; "hard"]));;
  (* Define the boolean array to return : *)
  match a with
  | MArr2 _ _ => raise NotModelled
  | _ => mret ()
  end;;
  select ← alloc (ONd (BoolArr2 (full n_elec n_elec false)));
  (* Find site letter and num : *)
  r ← lift (traverse parse_channel channels);
  r ← lift (np_asarray r);
  for_each (enumerate r) (λ ik,
    let '(i, k) := ik in
    letter ← lift (of_option IndexError (k !! 0));
    k1 ← lift (of_option IndexError (k !! 1));
    k2 ← lift (of_option IndexError (k !! 2));
    let digit_1 := int k1 in
    let digit_2 := int k2 in
    to_remove ← (if is_literal mode "soft" then
                   let next_contact := [letter; str (digit_1 + 1); str (digit_2 + 1)] in
                   lift (rows_equal r next_contact)
                 else
                   let to_remove := (λ row, bool_decide (row !! 0 = Some letter)) <$> r in
                   mret (<[i := false]> to_remove));
    modify_bool2 select (λ m, set_row_where m i to_remove));;
  (* Remove lower triangle : *)
  modify_bool2 select (λ m, assign_at m (np_c_ (tril_indices n_elec 0)) remove_lower);;
  (* Symmetrical render : *)
  select ← (if symmetrical then
              o ← load select;
              match o with
              | ONd (BoolArr2 m) =>
                  as_int ← alloc (ONd (Arr2 (astype_int m)));
                  s ← symmetrize as_int;
                  os ← load s;
                  a ← attr_ndarray os;
                  sm ← plain2 a;
                  alloc (ONd (BoolArr2 (astype_bool sm)))
              | _ => raise NotModelled
              end
            else mret select);
  modify_bool2 select (λ m, assign_at m (np_c_ (diag_indices n_elec)) true);;
  mret select.

(** ** [_axes_correction] *)

(** An entry of an index tuple: [slice(None)], or the value given as [num]. *)
Inductive index_entry (A : Type) :=
| slice_None
| entry (num : A).
Arguments slice_None {A}.
Arguments entry {A} num.

(** [l[i] = x] on a Python list: a negative [i] counts from the end, and an
    [i] outside of [-len(l) .. len(l) - 1] is an [IndexError]. *)
Definition list_setitem {A} (l : list A) (i : Z) (x : A) : outcome (list A) :=
  if bool_decide (0 ≤ i < Z.of_nat (length l))%Z then
    Ok (<[Z.to_nat i := x]> l)
  else if bool_decide (- Z.of_nat (length l) ≤ i < 0)%Z then
    Ok (<[Z.to_nat (Z.of_nat (length l) + i) := x]> l)
  else Raise IndexError.

(** [[slice(None)] * ndim] is the empty list for [ndim <= 0]. *)
Definition _axes_correction {A} (axis ndim : Z) (num : A)
    : outcome (list (index_entry A)) :=
  let axes := replicate (Z.to_nat ndim) slice_None in
  list_setitem axes axis (entry num).

End Correction.

(** * stgc.py *)

Module Stgc.

Abbreviation complex := (spec_float * spec_float)%type (only parsing).

(** [0.] and [0j] *)
Definition fzero : spec_float := S754_zero false.
Definition czero : complex := (fzero, fzero).

(** [np.isinf], [np.isnan] *)
Definition isinf (v : spec_float) : bool :=
  match v with
  | S754_infinity _ => true
  | _ => false
  end.
Definition isnan (v : spec_float) : bool :=
  match v with
  | S754_nan => true
  | _ => false
  end.

(** [a[i]] for a Python integer [i]: negative indices count from the end. *)
Definition py_index (n : nat) (i : Z) : outcome nat :=
  if bool_decide (0 ≤ i < Z.of_nat n)%Z then Ok (Z.to_nat i)
  else if bool_decide (- Z.of_nat n ≤ i < 0)%Z then Ok (Z.to_nat (Z.of_nat n + i))
  else Raise IndexError.

(** [ind_t] before [ravel]: row [r] holds [np.arange(t0 - dt, t0) - r]. *)
Definition ind_t (dt lag t0 : nat) : matrix Z :=
  tabulate (S lag) dt (λ r c, (Z.of_nat t0 - Z.of_nat dt + Z.of_nat c - Z.of_nat r)%Z).

(** [np.squeeze(x[p, ind_t]).reshape(lag + 1, dt)] *)
Definition embed (x : matrix Q) (p : nat) (ind : matrix Z) : outcome (matrix Q) :=
  row ← of_option IndexError (x !! p);
  traverse (traverse (λ t, j ← py_index (length row) t;
                           of_option IndexError (row !! j))) ind.

Section Covgc.
  (** The numerical kernels of numpy are parameters: [det(np.cov(m))], the
      complex logarithm [numpy.lib.scimath.log], complex [+] and [-], and
      [np.abs] of a complex number. *)
Variable det_cov : matrix Q → outcome spec_float.
Variable log : spec_float → complex.
Variable cadd csub : complex → complex → complex.
Variable np_abs : complex → spec_float.

  (** The body of the loop over pairs, lines 103 to 126. *)
Definition causality (x_ y_ : matrix Q) : outcome (list complex) :=
    (* h_ycy : H(Y_i+1|Y_i) = H(Y_i+1) - H(Y_i) *)
    det_yi1 ← det_cov y_;
    det_yi ← det_cov (tail y_);
    let h_ycy := csub (log det_yi1) (log det_yi) in
    (* h_ycx : H(Y_i+1|X_i,Y_i) = H(Y_i+1,X_i,Y_i) - H(X_i,Y_i) *)
    det_yxi1 ← det_cov (y_ ++ tail x_);
    det_yxi ← det_cov (tail y_ ++ tail x_);
    let h_ycx := csub (log det_yxi1) (log det_yxi) in
    (* h_xcx : H(X_i+1|X_i) = H(X_i+1) - H(X_i) *)
    det_xi1 ← det_cov x_;
    det_xi ← det_cov (tail x_);
    let h_xcx := csub (log det_xi1) (log det_xi) in
    (* h_xcy : H(X_i+1|X_i,Y_i) = H(X_i+1,X_i,Y_i) - H(X_i,Y_i) *)
    det_xyi1 ← det_cov (x_ ++ tail y_);
    let h_xcy := csub (log det_xyi1) (log det_yxi) in
    (* h_xxcyy: H(X_i+1,Y_i+1|X_i,Y_i) = H(X_i+1,Y_i+1,X_i,Y_i) - H(X_i,Y_i) *)
    det_xyi1 ← det_cov (x_ ++ y_);
    let h_xxcyy := csub (log det_xyi1) (log det_yxi) in
    Ok [csub h_ycy h_ycx; csub h_xcx h_xcy; csub (cadd h_ycx h_xcy) h_xxcyy].

Definition load_plain2 (l : loc) : M (matrix Q) :=
    o ← load l;
    a ← attr_ndarray o;
    plain2 a.

  (** [dt], [lag] and [t0] are non-negative Python integers, so the assertion
      on their type holds; logging and the progress bar touch no array. *)
Definition covgc_time (x : loc) (dt lag t0 : nat) : M (loc * loc) :=
    ox ← load x;
    a ← attr_ndarray ox;
    (* [n_so, n_ti = x.shape] *)
    n_so ← match shape a with
           | [n_so; _] => mret n_so
           | _ => raise ValueError
           end;
    let ind := ind_t dt lag t0 in
    (* Pairs between sources *)
    let pair_list := np_c_ (triu_indices n_so 1) in
    pairs ← alloc (ONd (IntArr2 pair_list));
    let n_pairs := length pair_list in
    (* Init *)
    gc ← alloc (ONd (CplxArr2 (full n_pairs 3 czero)));
    (* Loop over number of pairs *)
    for_each (enumerate pair_list) (λ ip,
      let '(i_p, p) := ip in
      xm ← load_plain2 x;
      x_ ← lift (embed xm p.1 ind);
      y_ ← lift (embed xm p.2 ind);
      row ← lift (causality x_ y_);
      o ← load gc;
      match o with
      | ONd (CplxArr2 m) => update gc (ONd (CplxArr2 (<[i_p := row]> m)))
      | _ => raise NotModelled
      end);;
    o ← load gc;
    m ← match o with
        | ONd (CplxArr2 m) => mret m
        | _ => raise NotModelled
        end;
    (* [gc_real = np.abs(gc)] *)
    gc_real ← alloc (ONd (FloatArr2 (fmap (M := list) np_abs <$> m)));
    (* [gc_real[np.isinf(gc_real)] = 0.], [gc_real[np.isnan(gc_real)] = 0.] *)
    for_each [isinf; isnan] (λ test,
      o ← load gc_real;
      match o with
      | ONd (FloatArr2 g) =>
          update gc_real
            (ONd (FloatArr2 (fmap (M := list) (λ v, if test v then fzero else v) <$> g)))
      | _ => raise NotModelled
      end);;
    mret (gc_real, pairs).
End Covgc.

End Stgc.

(** * classification.py: [classify.stat], [defClf], [defCv] *)

Module Classification.

Definition lower_char (c : ascii) : ascii :=
  let n := N_of_ascii c in
  if ((65 <=? n) && (n <=? 90))%N then ascii_of_N (n + 32) else c.

(** [s.lower()] *)
Fixpoint lower (s : string) : string :=
  match s with
  | EmptyString => EmptyString
  | String c s' => String (lower_char c) (lower s')
  end.

(** [s.find(sub)]: the first index at which [sub] occurs in [s], or [-1]. *)
Fixpoint find_from (i : Z) (sub s : string) : Z :=
  if String.prefix sub s then i
  else match s with
       | EmptyString => (-1)%Z
       | String _ s' => find_from (i + 1) sub s'
       end.
Definition find (s sub : string) : Z := find_from 0 sub s.

Section Stat.
  (** What [stat] calls outside of this file, as parameters. *)
Variables feature score pvalues : Type.
  (** [x.shape[0] == da.shape[0]] *)
Variable same_rows : bool.
  (** [binostatinv(self.y, da)] *)
Variable binostatinv : pvalues.
  (** the columns [checkXY(x, self.y, xcol)] returns *)
Variable checkXY : string → list feature.
  (** the three [Parallel(...)(delayed(_cvscore)(...))] lists of [_classifyPerm] *)
Variables scores_label_rnd scores_full_rnd scores_intra_rnd : feature → list score.
  (** [perm2pval(n.mean(da, 1), n.array(daPerm))] *)
Variable perm2pval : list (option (list score)) → outcome pvalues.

  (** [None] is the Python [None] of a function that ends without [return]. *)
Definition _classifyPerm (x : feature) (method : string) : option (list score) :=
    (* Shuffle the labels : *)
    if bool_decide (method = "label_rnd") then Some (scores_label_rnd x)
    (* Full randomization : *)
    else if bool_decide (method = "full_rnd") then Some (scores_full_rnd x)
    (* Shuffle intra-class : *)
    else if bool_decide (method = "intra_rnd") then Some (scores_intra_rnd x)
    else None.

Definition stat (method : string)
      : outcome (pvalues * list (option (list score))) :=
    let xcol := if same_rows then "sf" else "mf" in
    (* Binomial : *)
    if bool_decide (method = "bino") then
      Ok (binostatinv, [])
    (* Permutations : *)
    else if bool_decide (find (lower method) "_rnd" + 1 ≠ 0)%Z then
      let x := checkXY xcol in
      let daPerm := (λ k, _classifyPerm k method) <$> x in
      pvalue ← perm2pval daPerm;
      Ok (pvalue, daPerm)
    else
      Raise ValueError.
End Stat.

(** ** [defClf] and [defCv] *)

(** What [defClf] and [defCv] raise themselves: [ZeroDivisionError], or
    [ValueError] with its message. *)
Inductive raised :=
| ZeroDivisionError
| ValueErrorWith (message : string).

(** The double-quote character of the error messages. *)
Definition dquote : string := String (ascii_of_nat 34) EmptyString.

(** The argument [clf]: a name or an integer code. *)
Inductive clf_name :=
| ClfStr (s : string)
| ClfInt (i : Z).

(** The scikit-learn classifiers with the arguments [defClf] gives them.
    These constructors only record their arguments. *)
Inductive estimator :=
| LinearDiscriminantAnalysis (priors : list Q)
| SVC (kernel : string) (probability : bool)
| LinearSVC
| NuSVC
| GaussianNB
| KNeighborsClassifier (n_neighbors : Z)
| RandomForestClassifier (n_estimators : Z)
| LogisticRegression
| QuadraticDiscriminantAnalysis.

(** The classifier with its two description attributes. *)
Record clfObj := mk_clfObj {
  clf_estimator : estimator;
  clf_lgStr : string;
  clf_shStr : string
}.

(** [str(i)] for an integer *)
Definition str (i : Z) : string := pretty i.

(** [str(clf)] *)
Definition str_clf (clf : clf_name) : string :=
  match clf with
  | ClfStr s => s
  | ClfInt i => str i
  end.

(** [clf == name or clf == code] *)
Definition clf_is (clf : clf_name) (name : string) (code : Z) : bool :=
  match clf with
  | ClfStr s => bool_decide (s = name)
  | ClfInt i => bool_decide (i = code)
  end.

(** [defClf.__new__], called without extra keyword arguments.  [y] is the
    label vector; the argument [priors] is overwritten before it is read.
    [1/len(n.unique(y))] is the true division of Python 3. *)
Definition defClf {P : Type} (y : list Z) (clf : clf_name) (kern : string)
    (n_knn n_tree : Z) (priors : P) : raised + clfObj :=
  (* Default value for priors : *)
  let k := length (remove_dups y) in
  if k =? 0 then inl ZeroDivisionError else
  let priors := replicate k (1 / inject_Z (Z.of_nat k))%Q in
  let clf := match clf with
             | ClfStr s => ClfStr (lower s)
             | ClfInt _ => clf
             end in
  if clf_is clf "lda" 0 then
    inr (mk_clfObj (LinearDiscriminantAnalysis priors)
           "Linear Discriminant Analysis" "LDA")
  else if clf_is clf "svm" 1 then
    inr (mk_clfObj (SVC kern true)
           ("Support Vector Machine (kernel=" ++ kern ++ ")") ("SVM-" ++ kern))
  else if clf_is clf "linearsvm" 2 then
    inr (mk_clfObj LinearSVC "Linear Support Vector Machine" "LSVM")
  else if clf_is clf "nusvm" 3 then
    inr (mk_clfObj NuSVC "Nu Support Vector Machine" "NuSVM")
  else if clf_is clf "nb" 4 then
    inr (mk_clfObj GaussianNB "Naive Baysian" "NB")
  else if clf_is clf "knn" 5 then
    inr (mk_clfObj (KNeighborsClassifier n_knn)
           ("k-Nearest Neighbor (neighbor=" ++ str n_knn ++ ")") ("KNN-" ++ str n_knn))
  else if clf_is clf "rf" 6 then
    inr (mk_clfObj (RandomForestClassifier n_tree)
           ("Random Forest (tree=" ++ str n_tree ++ ")") ("RF-" ++ str n_tree))
  else if clf_is clf "lr" 7 then
    inr (mk_clfObj LogisticRegression "Logistic Regression" "LogReg")
  else if clf_is clf "qda" 8 then
    inr (mk_clfObj QuadraticDiscriminantAnalysis "Quadratic Discriminant Analysis" "QDA")
  else
    inl (ValueErrorWith ("No classifier " ++ dquote ++ str_clf clf ++ dquote ++ dquote
                         ++ " found")).

(** A call of a constructor of [sklearn.cross_validation]. *)
Inductive cv_call :=
| StratifiedKFold (y : list Z) (n_folds : Z) (shuffle : bool) (random_state : Z)
| KFold (n : nat) (n_folds : Z) (shuffle : bool) (random_state : Z)
| StratifiedShuffleSplit (y : list Z) (n_iter : Z) (test_size : Q) (random_state : Z)
| ShuffleSplit (n : nat) (n_iter : Z) (test_size : Q) (random_state : Z).

(** [x ← m; k] for sums, the left summand being the exception. *)
Definition sum_bind {E A B} (m : E + A) (k : A → E + B) : E + B :=
  match m with
  | inl e => inl e
  | inr a => k a
  end.

(** A list comprehension whose element expression may raise. *)
Fixpoint collect {E A B} (f : A → E + B) (l : list A) : E + list B :=
  match l with
  | [] => inr []
  | a :: l' => sum_bind (f a) (λ b, sum_bind (collect f l') (λ bs, inr (b :: bs)))
  end.

Section DefCv.
  (** The scikit-learn constructors check their arguments and may raise:
      they are a parameter, with the objects [cv] they build and the
      exceptions [E] they raise. *)
Context {cv E : Type}.
Variable construct : cv_call → E + cv.

(** An exception of [_define] itself, or of a constructor. *)
Inductive cv_raised :=
| Raised (r : raised)
| FromSklearn (e : E).

(** The cross-validation object with its two description attributes. *)
Record cvT := mk_cvT {
  cv_object : cv;
  cv_lgStr : string;
  cv_shStr : string
}.

(** [1/n_folds], the true division of Python 3 *)
Definition one_over (n_folds : Z) : cv_raised + Q :=
  if bool_decide (n_folds = 0%Z) then inl (Raised ZeroDivisionError)
  else inr (1 / inject_Z n_folds)%Q.

Definition built (call : cv_call) (lg sh : string) : cv_raised + cvT :=
  match construct call with
  | inl e => inl (FromSklearn e)
  | inr o => inr (mk_cvT o lg sh)
  end.

(** [_define], called without extra keyword arguments; [y] is raveled. *)
Definition _define (y : list Z) (cvtype : string) (n_folds rndstate rep : Z)
    : cv_raised + cvT :=
  (* Stratified k-fold : *)
  if bool_decide (cvtype = "skfold") then
    built (StratifiedKFold y n_folds true rndstate)
      (str rep ++ "-times, " ++ str n_folds ++ " Stratified k-folds")
      (str rep ++ "rep x" ++ str n_folds ++ " " ++ cvtype)
  (* k-fold : *)
  else if bool_decide (cvtype = "kfold") then
    built (KFold (length y) n_folds true rndstate)
      (str rep ++ "-times, " ++ str n_folds ++ " k-folds")
      (str rep ++ "rep x" ++ str n_folds ++ " " ++ cvtype)
  (* Shuffle stratified k-fold : *)
  else if bool_decide (cvtype = "sss") then
    sum_bind (one_over n_folds) (λ test_size,
      built (StratifiedShuffleSplit y n_folds test_size rndstate)
        (str rep ++ "-times, test size 1/" ++ str n_folds ++ " Shuffle Stratified Split")
        (str rep ++ "rep x" ++ str n_folds ++ " " ++ cvtype))
  (* Shuffle stratified : *)
  else if bool_decide (cvtype = "ss") then
    sum_bind (one_over n_folds) (λ test_size,
      built (ShuffleSplit (length y) rep test_size rndstate)
        (str rep ++ "-times, test size 1/" ++ str n_folds ++ " Shuffle Stratified")
        (str rep ++ "rep x" ++ str n_folds ++ " " ++ cvtype))
  else
    inl (Raised (ValueErrorWith ("No cross-validation " ++ dquote ++ cvtype ++ dquote
                                 ++ dquote ++ " found"))).

(** [defCv.__new__]: one object per repetition [k in range(rep)]. *)
Definition defCv (y : list Z) (cvtype : string) (n_folds rndstate rep : Z)
    : cv_raised + list cvT :=
  collect (λ k, _define y cvtype n_folds k rep) (seqZ 0 rep).
End DefCv.

End Classification.

(** * Vocabulary of the statements *)

(** The pairs of the strict upper and of the strict lower triangle, as
    [get_pairs] lists them. *)
Definition upper_pairs (n : nat) : list (nat * nat) := np_c_ (triu_indices n 1).
Definition lower_pairs (n : nat) : list (nat * nat) := np_c_ (tril_indices n (-1)).

(** The pairs [get_pairs(n, part)] selects, for a valid [part]. *)
Definition selected_pairs (n : nat) (part : string) : list (nat * nat) :=
  if bool_decide (part = "upper") then upper_pairs n
  else if bool_decide (part = "lower") then lower_pairs n
  else upper_pairs n ++ lower_pairs n.

Definition valid_part (part : string) : Prop := part ∈ ["upper"; "lower"; "both"].

(** [get_pairs] has returned the pairs [l] in new arrays: the (n_pairs, 2)
    array, or the tuple of the row and the column indices. *)
Definition returns_pairs (h : store) (as_array : bool) (l : list (nat * nat))
    (res : outcome Correction.pairs_ref * store) : Prop :=
  if as_array then
    res = (Ok (Correction.PairsArray (length h)), h ++ [ONd (IntArr2 l)])
  else
    res = (Ok (Correction.PairsTuple (length h) (S (length h))),
           h ++ [ONd (IntArr1 l.*1); ONd (IntArr1 l.*2)]).

(** The locations [get_pairs] returns. *)
Definition pairs_locs (p : Correction.pairs_ref) : list loc :=
  match p with
  | Correction.PairsArray l => [l]
  | Correction.PairsTuple lr lc => [lr; lc]
  end.

(** The float entries of a 2-D array, masked or not. *)
Definition data_of (a : ndarray) : option (list (list Q)) :=
  match a with
  | Arr2 m | MArr2 m _ => Some m
  | _ => None
  end.

(** The array [a] is the square matrix [M], plain or masked with a mask of
    the same shape. *)
Definition is_square_input (a : ndarray) (M : list (list Q)) : Prop :=
  has_shape (nrows M) (nrows M) M
  ∧ (a = Arr2 M ∨ ∃ K, a = MArr2 M K ∧ has_shape (nrows M) (nrows M) K).

Definition holds_square (h : store) (l : loc) (M : list (list Q)) : Prop :=
  ∃ a, h !! l = Some (ONd a) ∧ is_square_input a M.

(** The array [concat_connect] is filling: its data [m] and, when masked, a
    mask of the same shape. *)
Definition acc_ok (N : nat) (oa : ndarray) (m : list (list Q)) : Prop :=
  has_shape N N m ∧ (oa = Arr2 m ∨ ∃ k, oa = MArr2 m k ∧ has_shape N N k).

(** Where the [k]-th diagonal block of [concat_connect] starts: the sum of
    the sizes of the blocks before it. *)
Definition block_offset (Ms : list (list (list Q))) (k : nat) : nat :=
  sum_list (nrows <$> take k Ms).

(** The entry at [(i, j)] of the block-diagonal arrangement of [Ms] that
    starts at [q], when [(i, j)] lies in one of the blocks. *)
Fixpoint block_entry (Ms : list (list (list Q))) (q i j : nat) : option Q :=
  match Ms with
  | [] => None
  | M :: Ms' =>
      if bool_decide (q ≤ i < q + nrows M) && bool_decide (q ≤ j < q + nrows M)
      then get2 M (i - q) (j - q)
      else block_entry Ms' (q + nrows M) i j
  end.

(** The strict order of group keys: below, and not equal. *)
Definition cell_lt (a b : cell) : Prop :=
  Correction.cell_leb a b = true ∧ Correction.cell_eqb a b = false.

(** The index array the specification describes for [anat_based_reorder]:
    the row numbers of each group, the groups taken in the order in which
    their values first appear in the column. *)
Definition index_by_first_appearance (column : list cell) : list nat :=
  concat ((λ k, Correction.positions k column) <$> Correction.uniques column).

(** A double: a zero, an infinity, NaN, or a finite number whose mantissa
    and exponent are those of the binary64 format.  The entries of a
    float64 array are doubles. *)
Definition is_double (a : spec_float) : bool := valid_binary 53 1024 a.

(** What [(a + a) - a] is for a double [a]: [a] itself when [a] is finite,
    not zero and below 2^1023 in magnitude (exponent below 971, so that
    [a + a] is finite); an infinity of the sign of [a] when [a + a]
    overflows; [+0.] for both zeros; NaN for the infinities and NaN. *)
Definition diagonal_entry (a : spec_float) : spec_float :=
  match a with
  | S754_zero _ => S754_zero false
  | S754_finite s m e => if (e <? 971)%Z then a else S754_infinity s
  | S754_infinity _ | S754_nan => S754_nan
  end.

(** A double that is a finite real number and not below zero. *)
Definition finite_nonneg (v : spec_float) : Prop :=
  match v with
  | S754_zero _ => True
  | S754_finite s _ _ => s = false
  | S754_infinity _ | S754_nan => False
  end.

(** The magnitude of [z], with zero in place of an infinite or NaN magnitude. *)
Definition coerced_abs (np_abs : spec_float * spec_float → spec_float)
    (z : spec_float * spec_float) : spec_float :=
  let v := np_abs z in
  if Stgc.isinf v || Stgc.isnan v then Stgc.fzero else v.

(** In the store [h], [xyz] is not a numpy array, or it is one whose number
    of rows differs from the number of rows of the table [d]. *)
Definition bad_xyz (h : store) (d : DataFrame) (xyz : loc) : Prop :=
  ∃ o, h !! xyz = Some o
     ∧ (as_ndarray o = None
        ∨ ∃ a s0, o = ONd a ∧ shape a !! 0 = Some s0 ∧ s0 ≠ df_len d).

(** The arrays [anat_based_mean] returns. *)
Definition mean_locs (r : Correction.mean_result) : list loc :=
  match r with
  | Correction.RetNone => []
  | Correction.Ret2 con _ => [con]
  | Correction.Ret3 con _ xyz_r => [con; xyz_r]
  end.

(** A run of [m] from a store of at least [n] objects only allocates, and
    writes only to objects beyond the first [n] or listed in [W]; a value it
    returns satisfies [Q]. *)
Definition hoare {A} (W : list loc) (n : nat) (m : M A) (Q : A → Prop) : Prop :=
  ∀ h r h', n ≤ length h → m h = (r, h') →
    length h ≤ length h'
    ∧ (∀ l, l < n → l ∉ W → h' !! l = h !! l)
    ∧ (∀ a, r = Ok a → Q a).

(** A call is free of side effects: whatever it returns or raises, every
    object of the store it started from is still there, unchanged, and the
    arrays it returns (at the locations [locs]) are new objects. *)
Definition side_effect_free {A} (m : M A) (locs : A → list loc) : Prop :=
  ∀ h r h', m h = (r, h') →
    (∀ l o, h !! l = Some o → h' !! l = Some o)
    ∧ (∀ a l, r = Ok a → l ∈ locs a → h !! l = None).

(** The test of [remove_site_contact] on a pair of channels: the channel
    whose parsed label is [rj] is marked in the row of a channel with the
    letter prefix [letter] and the digit groups [d1], [d2] when [rj] is the
    next contact [letter, d1 + 1, d2 + 1], if [mode] is the interned
    ['soft'], and when [rj] has the same letter prefix otherwise: for
    ['hard'], and for a ['soft'] that is another object than the literal. *)
Definition marks (mode : py_str) (letter d1 d2 : string) (rj : list string) : bool :=
  if is_literal mode "soft" then
    bool_decide (rj = [letter; Correction.str (Correction.int d1 + 1);
                       Correction.str (Correction.int d2 + 1)])
  else bool_decide (rj !! 0 = Some letter).

(** Where [anat_based_reorder] writes the entry of the pair [(k, i)]: row
    [min(index[k], index[i])], column [max(index[k], index[i])]. *)
Definition reorder_target (idx : list nat) (ki : nat * nat) : nat * nat :=
  (min (default 0 (idx !! ki.1)) (default 0 (idx !! ki.2)),
   max (default 0 (idx !! ki.1)) (default 0 (idx !! ki.2))).

(** The exact mean of a list of rationals: a value of the parameters
    [np_mean] and [pd_mean] for the examples. *)
Definition exact_sum (l : list Q) : Q := foldr Qplus 0%Q l.
Definition exact_mean (l : list Q) : Q :=
  (exact_sum l / inject_Z (Z.of_nat (length l)))%Q.

Definition exact_ma_mean (vals : list Q) (masks : list bool) : Q :=
  exact_mean (filter (λ p : Q * bool, p.2 = false) (zip vals masks)).*1.

(** The value [anat_based_mean] reads for the pair of sites [(i, j)]: the
    entry of the upper triangle of [x] that joins them, and zero for
    [i = j]. *)
Definition upper_value (A : list (list Q)) (i j : nat) : Q :=
  if decide (i = j) then 0%Q else default 0%Q (get2 A (i `min` j) (i `max` j)).

(** All pairs of a row of [rows] and a column of [cols], row by row. *)
Definition cartesian (rows cols : list nat) : list (nat * nat) :=
  r ← rows; c ← cols; [(r, c)].

(** The samples [covgc_time] reads from the series [row] of a source: the
    array [E] has [lag + 1] rows of [dt] samples, row [r] holding the [dt]
    samples that end [r] samples before [t0]; the sample at the (possibly
    negative) position [t] is read as Python reads [row[t]], a negative [t]
    counting from the end. *)
Definition is_window (dt lag t0 : nat) (row : list Q) (E : list (list Q)) : Prop :=
  has_shape (S lag) dt E
  ∧ ∀ r c, r ≤ lag → c < dt →
      let t := (Z.of_nat t0 - Z.of_nat dt + Z.of_nat c - Z.of_nat r)%Z in
      (- Z.of_nat (length row) ≤ t < Z.of_nat (length row))%Z
      ∧ is_Some (get2 E r c)
      ∧ get2 E r c = row !! Z.to_nat (t mod Z.of_nat (length row)).

(** The names and the integer codes of the classifiers of [defClf]. *)
Definition classifier_codes : list (Z * string) :=
  [(0, "lda"); (1, "svm"); (2, "linearsvm"); (3, "nusvm"); (4, "nb"); (5, "knn");
   (6, "rf"); (7, "lr"); (8, "qda")]%Z.

(** [clf] names a classifier of [defClf]: a code from 0 to 8, or a name of
    the list in any letter case. *)
Definition known_clf (clf : Classification.clf_name) : Prop :=
  match clf with
  | Classification.ClfInt i => (0 ≤ i ≤ 8)%Z
  | Classification.ClfStr s => Classification.lower s ∈ classifier_codes.*2
  end.

(** The cross-validation names of [_define]. *)
Definition known_cvtype (cvtype : string) : Prop :=
  cvtype ∈ ["skfold"; "kfold"; "sss"; "ss"].

(** The mask of an input of [concat_connect], as [np.ma.getmaskarray] gives
    it: the mask of a masked array, and all [False] for a plain array. *)
Definition mask_of (a : ndarray) : list (list bool) :=
  match a with
  | MArr2 _ k => k
  | Arr2 m => full (nrows m) (ncols m) false
  | _ => []
  end.

(** * Properties *)

(* BEGIN-LEMMAS *)

(** ** Index lists *)

Lemma elem_of_grid n i j : (i, j) ∈ grid n ↔ i < n ∧ j < n.
Proof.
  unfold grid. rewrite list_elem_of_bind. split.
  - intros (a & Hj & Ha). apply list_elem_of_bind in Hj as (b & Hb & Hb').
    apply list_elem_of_singleton in Hb. simplify_eq.
    apply elem_of_seq in Ha, Hb'. lia.
  - intros [Hi Hj]. exists i. split; [|apply elem_of_seq; lia].
    apply list_elem_of_bind. exists j. split; [by apply list_elem_of_singleton|].
    apply elem_of_seq; lia.
Qed.

Lemma NoDup_grid n : NoDup (grid n).
Proof.
  unfold grid. apply NoDup_bind; [| |apply NoDup_seq].
  - intros x1 x2 [a b] _ _ H1 H2.
    apply list_elem_of_bind in H1 as (? & H1 & _), H2 as (? & H2 & _).
    apply list_elem_of_singleton in H1, H2. congruence.
  - intros x _. apply NoDup_bind; [| |apply NoDup_seq].
    + intros y1 y2 [a b] _ _ H1 H2.
      apply list_elem_of_singleton in H1, H2. congruence.
    + intros. apply NoDup_singleton.
Qed.

Lemma upper_pairs_eq n :
  upper_pairs n = filter (λ p : nat * nat, (Z.of_nat p.1 + 1 ≤ Z.of_nat p.2)%Z) (grid n).
Proof. unfold upper_pairs, np_c_, triu_indices. simpl. apply zip_fst_snd. Qed.

Lemma lower_pairs_eq n :
  lower_pairs n = filter (λ p : nat * nat, (Z.of_nat p.2 ≤ Z.of_nat p.1 + -1)%Z) (grid n).
Proof. unfold lower_pairs, np_c_, tril_indices. simpl. apply zip_fst_snd. Qed.

Lemma elem_of_upper_pairs n i j : (i, j) ∈ upper_pairs n ↔ i < j ∧ j < n.
Proof.
  rewrite upper_pairs_eq, list_elem_of_filter, elem_of_grid. simpl. lia.
Qed.

Lemma elem_of_lower_pairs n i j : (i, j) ∈ lower_pairs n ↔ j < i ∧ i < n.
Proof.
  rewrite lower_pairs_eq, list_elem_of_filter, elem_of_grid. simpl. lia.
Qed.

Lemma NoDup_upper_pairs n : NoDup (upper_pairs n).
Proof. rewrite upper_pairs_eq. apply NoDup_filter, NoDup_grid. Qed.

Lemma NoDup_lower_pairs n : NoDup (lower_pairs n).
Proof. rewrite lower_pairs_eq. apply NoDup_filter, NoDup_grid. Qed.

Lemma length_filter_bind {A B} (P : B → Prop) `{!∀ x, Decision (P x)}
    (f : A → list B) (l : list A) :
  length (filter P (l ≫= f)) = sum_list ((λ x, length (filter P (f x))) <$> l).
Proof.
  induction l as [|x l IH]; [done|].
  rewrite bind_cons, filter_app, length_app, IH. done.
Qed.

Lemma length_filter_row (i s len : nat) :
  length (filter (λ p : nat * nat, (Z.of_nat p.1 + 1 ≤ Z.of_nat p.2)%Z)
            (seq s len ≫= λ j, [(i, j)]))
  = (s + len) - max (S i) s.
Proof.
  revert s. induction len as [|len IH]; intros s.
  - simpl. lia.
  - cbn [seq]. rewrite bind_cons, filter_app, length_app, IH.
    rewrite filter_cons. simpl. case_decide; simpl; lia.
Qed.

Lemma sum_triangle (N len s : nat) :
  s + len = N →
  2 * sum_list ((λ i, N - S i) <$> seq s len) = len * (len - 1).
Proof.
  revert s. induction len as [|len IH]; intros s Hs; [done|].
  cbn [seq fmap list_fmap sum_list]. specialize (IH (S s) ltac:(lia)).
  cbn [fmap] in IH. destruct len; simpl in *; nia.
Qed.

Lemma length_upper_pairs n : length (upper_pairs n) = n * (n - 1) / 2.
Proof.
  apply Nat.div_unique_exact; [done|].
  rewrite upper_pairs_eq. unfold grid. rewrite length_filter_bind.
  rewrite <- (sum_triangle n n 0) by done. f_equal. f_equal.
  apply list_fmap_ext. intros k i Hi%lookup_seq.
  rewrite (length_filter_row i 0 n). lia.
Qed.

(** ** Running the store monad *)

Lemma run_bind {A B} (m : M A) (f : A → M B) h :
  (m ≫= f) h = match m h with
               | (Ok a, h') => f a h'
               | (Raise e, h') => (Raise e, h')
               end.
Proof. reflexivity. Qed.

Lemma run_alloc o h : alloc o h = (Ok (length h), h ++ [o]).
Proof. reflexivity. Qed.

Lemma run_load l h o : h !! l = Some o → load l h = (Ok o, h).
Proof. intros H. unfold load. by rewrite H. Qed.

Lemma lookup_alloc (h : store) (o : obj) : (h ++ [o]) !! length h = Some o.
Proof. by rewrite lookup_app_r, Nat.sub_diag. Qed.

Ltac munfold := unfold mbind, M_bind, mret, M_ret, alloc, raise, lift, assert_, update in *.

Lemma valid_part_cases part :
  valid_part part ↔ part = "upper" ∨ part = "lower" ∨ part = "both".
Proof. unfold valid_part. rewrite !elem_of_cons, elem_of_nil. tauto. Qed.

Lemma get_pairs_run n part as_array h :
  valid_part part →
  returns_pairs h as_array (selected_pairs n part)
    (Correction.get_pairs n part as_array h).
Proof.
  assert (∀ l : list (nat * nat), zip l.*1 l.*2 = l) as Hz by apply zip_fst_snd.
  intros [-> | [-> | ->]]%valid_part_cases;
    unfold Correction.get_pairs, returns_pairs, selected_pairs;
    munfold; destruct as_array; simpl;
    rewrite ?length_app, ?Hz, <- ?(assoc_L (++)); simpl;
    rewrite ?Nat.add_1_r.
  all: rewrite ?upper_pairs_eq, ?lower_pairs_eq; try done.
  all: unfold np_c_; simpl; by rewrite Hz, ?zip_fst_snd.
Qed.

Lemma get_pairs_invalid n part as_array h :
  ¬ valid_part part →
  Correction.get_pairs n part as_array h = (Raise AssertionError, h).
Proof.
  intros Hv. unfold Correction.get_pairs. munfold.
  by rewrite bool_decide_eq_false_2.
Qed.
(** ** Frame rules *)

Section frame.
Context {A B : Type} (W : list loc) (n : nat).
Implicit Types (m : M A) (Q : A → Prop).

Lemma hoare_ret (a : A) Q : Q a → hoare W n (mret a) Q.
  Proof. intros Hq h r h' _ [= <- <-]. split_and!; [done..|]. by intros ? [= <-]. Qed.

Lemma hoare_raise e Q : hoare W n (raise e : M A) Q.
  Proof. intros h r h' _ [= <- <-]. split_and!; done. Qed.

Lemma hoare_lift (o : outcome A) Q :
    (∀ a, o = Ok a → Q a) → hoare W n (lift o) Q.
  Proof. intros Hq h r h' _ [= <- <-]. split_and!; done. Qed.

Lemma hoare_weaken m (P Q : A → Prop) :
    hoare W n m P → (∀ a, P a → Q a) → hoare W n m Q.
  Proof.
    intros Hm HPQ h r h' Hn Hrun. destruct (Hm h r h' Hn Hrun) as (?&?&?).
    split_and!; [done..|]. eauto.
  Qed.

Lemma hoare_bind m (f : A → M B) (P : A → Prop) (R : B → Prop) :
    hoare W n m P → (∀ a, P a → hoare W n (f a) R) → hoare W n (m ≫= f) R.
  Proof.
    intros Hm Hf h r h' Hn Hrun. rewrite run_bind in Hrun.
    destruct (m h) as [[a|e] h1] eqn:Hmh.
    - destruct (Hm h _ h1 Hn Hmh) as (Hlen & Hsame & Hp).
      destruct (Hf a (Hp a eq_refl) h1 r h' ltac:(lia) Hrun) as (Hlen' & Hsame' & Hr).
      split_and!; [lia| |done].
      intros l Hl HW. rewrite Hsame', Hsame by done. done.
    - simplify_eq. destruct (Hm h _ h' Hn Hmh) as (Hlen & Hsame & Hp).
      split_and!; done.
  Qed.
End frame.

Section frame_prim.
Context (W : list loc) (n : nat).

Lemma hoare_assert b (Q : () → Prop) : Q () → hoare W n (assert_ b) Q.
  Proof. intros. destruct b; [by apply hoare_ret|apply hoare_raise]. Qed.

Lemma hoare_alloc o : hoare W n (alloc o) (λ l, n ≤ l).
  Proof.
    intros h r h' Hn [= <- <-]. rewrite length_app. split_and!; [lia| |].
    - intros l Hl _. apply lookup_app_l. lia.
    - by intros ? [= <-].
  Qed.

Lemma hoare_load l : hoare W n (load l) (λ _, True).
  Proof. intros h r h' Hn [= <- <-]. split_and!; done. Qed.

Lemma hoare_update l o : n ≤ l ∨ l ∈ W → hoare W n (update l o) (λ _, True).
  Proof.
    intros Hl h r h' Hn [= <- <-]. rewrite length_insert. split_and!; [done| |done].
    intros l' Hl' HW. apply list_lookup_insert_ne. intros ->. destruct Hl; [lia|done].
  Qed.

Lemma hoare_for_each {A} (xs : list A) (body : A → M ()) :
    (∀ x, hoare W n (body x) (λ _, True)) →
    hoare W n (for_each xs body) (λ _, True).
  Proof.
    intros Hb. induction xs as [|x xs IH]; simpl.
    - by apply hoare_ret.
    - eapply hoare_bind; [apply Hb|]. intros _ _. apply IH.
  Qed.

Lemma hoare_fold_each {A S} (xs : list A) (body : S → A → M S) (s : S)
      (I : S → Prop) :
    I s → (∀ s x, I s → hoare W n (body s x) I) →
    hoare W n (fold_each xs body s) I.
  Proof.
    intros Hs Hb. revert s Hs. induction xs as [|x xs IH]; intros s Hs; simpl.
    - by apply hoare_ret.
    - eapply hoare_bind; [by apply Hb|]. intros s' Hs'. by apply IH.
  Qed.
End frame_prim.

Lemma hoare_side_effect_free {A} (m : M A) (locs : A → list loc) :
  (∀ n, hoare [] n m (λ a, Forall (λ l, n ≤ l) (locs a))) →
  side_effect_free m locs.
Proof.
  intros Hm h r h' Hrun.
  destruct (Hm (length h) h r h' (le_n _) Hrun) as (Hlen & Hsame & Hq).
  split.
  - intros l o Hl. rewrite Hsame; [done| |apply not_elem_of_nil].
    by eapply lookup_lt_Some.
  - intros a l -> Hin. apply lookup_ge_None.
    specialize (Hq a eq_refl). rewrite Forall_forall in Hq. by apply Hq.
Qed.
(** Rules with the trivial postcondition, for the steps whose result is not
    a location. *)
Section frame_trivial.
Context (W : list loc) (n : nat).

Lemma hoare_true_ret {A} (a : A) : hoare W n (mret a) (λ _, True).
  Proof. by apply hoare_ret. Qed.
Lemma hoare_true_lift {A} (o : outcome A) : hoare W n (lift o) (λ _, True).
  Proof. by apply hoare_lift. Qed.
Lemma hoare_true_assert b : hoare W n (assert_ b) (λ _, True).
  Proof. by apply hoare_assert. Qed.
Lemma hoare_true_weaken {A} (m : M A) (P : A → Prop) :
    hoare W n m P → hoare W n m (λ _, True).
  Proof. intros. by eapply hoare_weaken. Qed.
End frame_trivial.

Create HintDb hoare discriminated.
#[local] Hint Resolve hoare_alloc hoare_load hoare_true_ret hoare_true_lift
  hoare_true_assert hoare_raise : hoare.

Ltac hoare_side :=
  solve [ done | left; lia | right; rewrite ?elem_of_cons; tauto | lia
        | simpl; auto with lia | repeat constructor; simpl; lia ].

(** Walks through a computation: at a bind, the first part is closed by a
    known rule or, recursively, with the trivial postcondition. *)
Ltac hoare_go :=
  lazymatch goal with
  | |- hoare _ _ (mbind _ _) _ =>
      first
        [ eapply hoare_bind;
          [ first [ apply hoare_alloc
                  | apply hoare_update; hoare_side
                  | solve [ eauto with hoare ] ]
          | intros ? ?; hoare_go ]
        | lazymatch goal with
          | |- hoare _ ?n _ _ =>
              eapply (hoare_bind _ _ _ _ (λ l : nat, n ≤ l)); [ hoare_go | intros ? ?; hoare_go ]
          end
        | lazymatch goal with
          | |- hoare _ ?n _ _ =>
              eapply (hoare_bind _ _ _ _ (λ p : nat * nat, n ≤ p.2));
              [ hoare_go | intros [? ?] ?; simpl in *; hoare_go ]
          end
        | eapply (hoare_bind _ _ _ _ (λ _, True)); [ hoare_go | intros ? _; hoare_go ] ]
  | |- hoare _ _ (match ?x with _ => _ end) _ => destruct x; hoare_go
  | |- hoare _ _ (for_each _ _) _ => apply hoare_for_each; intros ?; hoare_go
  | |- hoare _ _ (fold_each _ _ _) _ =>
      apply (hoare_fold_each _ _ _ _ _ (λ _, True)); [done | intros ? ? _; hoare_go]
  | |- hoare _ _ (let '(_, _) := ?x in _) _ => destruct x; hoare_go
  | |- hoare _ _ (mret _) _ => apply hoare_ret; hoare_side
  | |- hoare _ _ (raise _) _ => apply hoare_raise
  | |- hoare _ _ (lift _) _ => apply hoare_lift; intros; hoare_side
  | |- hoare _ _ (assert_ _) _ => apply hoare_assert; hoare_side
  | |- hoare _ _ (load _) _ => eapply hoare_weaken; [apply hoare_load | intros; hoare_side]
  | |- hoare _ _ (alloc _) _ => eapply hoare_weaken; [apply hoare_alloc | intros; hoare_side]
  | |- hoare _ _ (update _ _) _ =>
      eapply hoare_weaken; [apply hoare_update; hoare_side | intros; hoare_side]
  | |- hoare _ _ _ _ =>
      first [ solve [ eauto with hoare ]
            | eapply hoare_weaken; [ solve [ eauto with hoare ] | intros; hoare_side ] ]
  end.

Import Correction.

Lemma hoare_get_pairs W n k part as_array :
  hoare W n (get_pairs k part as_array) (λ p, Forall (λ l, n ≤ l) (pairs_locs p)).
Proof.
  unfold get_pairs. hoare_go.
Qed.

Section frame_helpers.
Context (W : list loc) (n : nat).

Lemma hoare_attr_ndarray o : hoare W n (attr_ndarray o) (λ _, True).
  Proof. apply hoare_true_lift. Qed.
Lemma hoare_plain2 a : hoare W n (plain2 a) (λ _, True).
  Proof. unfold plain2. hoare_go. Qed.
Lemma hoare_data2 a : hoare W n (data2 a) (λ _, True).
  Proof. unfold data2. hoare_go. Qed.
Lemma hoare_attr_frame o : hoare W n (attr_frame o) (λ _, True).
  Proof. unfold attr_frame. hoare_go. Qed.
Lemma hoare_load_index_array l : hoare W n (load_index_array l) (λ _, True).
  Proof. unfold load_index_array. hoare_go. Qed.
Lemma hoare_load_pairs p : hoare W n (load_pairs p) (λ _, True).
  Proof.
    pose proof hoare_load_index_array.
    unfold load_pairs. hoare_go.
  Qed.
Lemma hoare_modify_plain2 l f :
    n ≤ l ∨ l ∈ W → hoare W n (modify_plain2 l f) (λ _, True).
  Proof. intros. unfold modify_plain2. hoare_go. Qed.
Lemma hoare_modify_bool2 l f :
    n ≤ l ∨ l ∈ W → hoare W n (modify_bool2 l f) (λ _, True).
  Proof. intros. unfold modify_bool2. hoare_go. Qed.
Lemma hoare_assign_block l q s c :
    n ≤ l ∨ l ∈ W → hoare W n (assign_block l q s c) (λ _, True).
  Proof.
    intros. pose proof hoare_data2. unfold assign_block. hoare_go.
  Qed.
Lemma hoare_true_get_pairs k part as_array :
    hoare W n (get_pairs k part as_array) (λ _, True).
  Proof. eapply hoare_true_weaken, hoare_get_pairs. Qed.
End frame_helpers.

#[local] Hint Resolve hoare_attr_ndarray hoare_plain2 hoare_data2 hoare_attr_frame
  hoare_load_index_array hoare_load_pairs hoare_true_get_pairs : hoare.
#[local] Hint Extern 1 (hoare _ _ (modify_plain2 _ _) _) =>
  apply hoare_modify_plain2; hoare_side : hoare.
#[local] Hint Extern 1 (hoare _ _ (modify_bool2 _ _) _) =>
  apply hoare_modify_bool2; hoare_side : hoare.
#[local] Hint Extern 1 (hoare _ _ (assign_block _ _ _ _) _) =>
  apply hoare_assign_block; hoare_side : hoare.

Lemma hoare_ravel_connect W n connect part :
  hoare W n (ravel_connect connect part) (λ l, n ≤ l).
Proof. unfold ravel_connect. hoare_go. Qed.

Lemma hoare_unravel_connect W n connect n_sites part :
  hoare W n (unravel_connect connect n_sites part) (λ l, n ≤ l).
Proof. unfold unravel_connect. hoare_go. Qed.

Lemma hoare_symmetrize W n arr :
  hoare W n (symmetrize arr) (λ l, n ≤ l).
Proof. unfold symmetrize. hoare_go. Qed.

Lemma hoare_concat_connect W n connect fill_with :
  hoare W n (concat_connect connect fill_with) (λ l, n ≤ l).
Proof.
  unfold concat_connect. hoare_go.
Qed.

Lemma hoare_anat_based_reorder W n c df col part :
  hoare W n (anat_based_reorder c df col part) (λ r, n ≤ r.1.1 ∧ n ≤ r.2).
Proof. unfold anat_based_reorder. hoare_go. Qed.

Lemma hoare_remove_site_contact W n mat channels mode remove_lower symmetrical :
  hoare W n (remove_site_contact mat channels mode remove_lower symmetrical)
    (λ l, n ≤ l).
Proof.
  pose proof hoare_symmetrize.
  unfold remove_site_contact. hoare_go.
Qed.

Lemma hoare_store_block_mean W n np_mean ma_mean x con r c rows cols :
  n ≤ con ∨ con ∈ W →
  hoare W n (store_block_mean np_mean ma_mean x con r c rows cols) (λ _, True).
Proof. intros. unfold store_block_mean. hoare_go. Qed.

#[local] Hint Extern 1 (hoare _ _ (store_block_mean _ _ _ _ _ _ _ _) _) =>
  apply hoare_store_block_mean; hoare_side : hoare.

(** [anat_based_mean] writes to its arguments [x] and [df] only. *)
Lemma hoare_anat_based_mean np_mean ma_mean pd_mean n x df col fill_with xyz :
  hoare [x; df] n (anat_based_mean np_mean ma_mean pd_mean x df col fill_with xyz)
    (λ r, Forall (λ l, n ≤ l) (mean_locs r)).
Proof.
  unfold anat_based_mean. hoare_go.
Qed.

Section frame_covgc.
Context (det_cov : list (list Q) → outcome spec_float)
          (log : spec_float → spec_float * spec_float)
          (cadd csub : spec_float * spec_float → spec_float * spec_float
                       → spec_float * spec_float)
          (np_abs : spec_float * spec_float → spec_float).

Lemma hoare_covgc_time W n x dt lag t0 :
    hoare W n (Stgc.covgc_time det_cov log cadd csub np_abs x dt lag t0)
      (λ r, n ≤ r.1 ∧ n ≤ r.2).
  Proof.
    unfold Stgc.covgc_time, Stgc.load_plain2. hoare_go.
  Qed.
End frame_covgc.

(** ** C6 *)

(** C6.  For every [n] (in particular [n ≥ 2]): [get_pairs(n, 'upper')]
    returns exactly the [n(n-1)/2] pairs [(i, j)] with [i < j];
    [get_pairs(n, 'lower')] returns exactly the transposed set, the pairs with
    [i > j]; [get_pairs(n, 'both')] returns the upper pairs followed by the
    lower pairs; and for a [part] outside of the three names the call fails
    with the assertion error and leaves the store as it was. *)
Theorem get_pairs_spec (n : nat) (as_array : bool) (h : store) :
  returns_pairs h as_array (upper_pairs n) (Correction.get_pairs n "upper" as_array h)
  ∧ (∀ i j, (i, j) ∈ upper_pairs n ↔ i < j ∧ j < n)
  ∧ NoDup (upper_pairs n)
  ∧ length (upper_pairs n) = n * (n - 1) / 2
  ∧ returns_pairs h as_array (lower_pairs n) (Correction.get_pairs n "lower" as_array h)
  ∧ (∀ i j, (i, j) ∈ lower_pairs n ↔ j < i ∧ i < n)
  ∧ (∀ i j, (i, j) ∈ lower_pairs n ↔ (j, i) ∈ upper_pairs n)
  ∧ NoDup (lower_pairs n)
  ∧ returns_pairs h as_array (upper_pairs n ++ lower_pairs n)
      (Correction.get_pairs n "both" as_array h)
  ∧ (∀ part, part ∉ ["upper"; "lower"; "both"] →
       Correction.get_pairs n part as_array h = (Raise AssertionError, h)).
Proof.
  split_and!.
  - apply (get_pairs_run n "upper"). apply valid_part_cases; auto.
  - apply elem_of_upper_pairs.
  - apply NoDup_upper_pairs.
  - apply length_upper_pairs.
  - apply (get_pairs_run n "lower"). apply valid_part_cases; auto.
  - apply elem_of_lower_pairs.
  - intros i j. rewrite elem_of_lower_pairs, elem_of_upper_pairs. lia.
  - apply NoDup_lower_pairs.
  - apply (get_pairs_run n "both"). apply valid_part_cases; auto.
  - intros part Hpart. by apply get_pairs_invalid.
Qed.

Lemma get_pairs_spec_witness :
  ("diagonal" ∉ ["upper"; "lower"; "both"])
  ∧ Correction.get_pairs 3 "diagonal" true [] = (Raise AssertionError, []).
Proof.
  assert ("diagonal" ∉ ["upper"; "lower"; "both"]) as H.
  { apply (bool_decide_unpack _). vm_compute. exact I. }
  split; [exact H|].
  destruct (get_pairs_spec 3 true []) as (_ & _ & _ & _ & _ & _ & _ & _ & _ & Hfail).
  exact (Hfail "diagonal" H).
Defined.

(** ** Matrices *)

Lemma get2_Some {A} (m : list (list A)) i j x :
  get2 m i j = Some x ↔ ∃ row, m !! i = Some row ∧ row !! j = Some x.
Proof.
  unfold get2. destruct (m !! i) as [row|]; simpl.
  - split; [eauto|]. by intros (? & [= <-] & ?).
  - split; [done|]. by intros (? & ? & ?).
Qed.

Lemma has_shape_lookup {A} r c (m : list (list A)) i row :
  has_shape r c m → m !! i = Some row → i < r ∧ length row = c.
Proof.
  intros [Hr Hc] Hi. split.
  - rewrite <- Hr. by eapply lookup_lt_Some.
  - rewrite Forall_forall in Hc. apply Hc. by eapply list_elem_of_lookup_2.
Qed.

Lemma has_shape_get2 {A} r c (m : list (list A)) i j :
  has_shape r c m → i < r → j < c → is_Some (get2 m i j).
Proof.
  intros Hs Hi Hj. destruct Hs as [Hr Hc].
  destruct (lookup_lt_is_Some_2 m i) as [row Hrow]; [lia|].
  destruct (has_shape_lookup r c m i row (conj Hr Hc) Hrow) as [_ Hlen].
  destruct (lookup_lt_is_Some_2 row j) as [x Hx]; [lia|].
  exists x. apply get2_Some. eauto.
Qed.

Lemma get2_lt {A} r c (m : list (list A)) i j x :
  has_shape r c m → get2 m i j = Some x → i < r ∧ j < c.
Proof.
  intros Hs (row & Hrow & Hx)%get2_Some.
  destruct (has_shape_lookup _ _ _ _ _ Hs Hrow) as [? Hlen].
  split; [done|]. rewrite <- Hlen. by eapply lookup_lt_Some.
Qed.

Lemma has_shape_ncols {A} r c (m : list (list A)) :
  has_shape r c m → nrows m = r ∧ (0 < r → ncols m = c).
Proof.
  intros [Hr Hc]. split; [done|]. intros Hpos.
  destruct m as [|row m]; simpl in *; [lia|]. by inversion Hc.
Qed.

Lemma has_shape_square_shape {A} n (m : list (list A)) :
  has_shape n n m → nrows m = n ∧ ncols m = n.
Proof.
  intros Hs. destruct (has_shape_ncols _ _ _ Hs) as [Hr Hc]. split; [done|].
  destruct n; [|apply Hc; lia]. destruct m; [done|]. done.
Qed.

Lemma get2_tabulate {A} r c (f : nat → nat → A) i j :
  i < r → j < c → get2 (tabulate r c f) i j = Some (f i j).
Proof.
  intros Hi Hj. unfold get2, tabulate.
  rewrite list_lookup_fmap, lookup_seq_lt by done. simpl.
  rewrite list_lookup_fmap, lookup_seq_lt by done. done.
Qed.

Lemma has_shape_tabulate {A} r c (f : nat → nat → A) :
  has_shape r c (tabulate r c f).
Proof.
  split.
  - unfold tabulate. by rewrite length_fmap, length_seq.
  - apply Forall_forall. intros row (i & -> & _)%list_elem_of_fmap.
    by rewrite length_fmap, length_seq.
Qed.

Lemma has_shape_full {A} r c (x : A) : has_shape r c (full r c x).
Proof.
  split; [apply length_replicate|].
  apply Forall_forall. intros row [-> _]%elem_of_replicate. apply length_replicate.
Qed.

Lemma get2_full {A} r c (x : A) i j : i < r → j < c → get2 (full r c x) i j = Some x.
Proof.
  intros. unfold get2, full. rewrite lookup_replicate_2 by done. simpl.
  by rewrite lookup_replicate_2.
Qed.

Lemma has_shape_zip_with {A B C} (f : A → B → C) r c a b :
  has_shape r c a → has_shape r c b →
  has_shape r c (zip_with (zip_with f) a b).
Proof.
  intros [Ha Ha'] [Hb Hb']. split.
  - rewrite length_zip_with. lia.
  - apply Forall_forall. intros row (i & Hi)%list_elem_of_lookup_1.
    apply lookup_zip_with_Some in Hi as (x & y & -> & Hx & Hy).
    rewrite length_zip_with.
    destruct (has_shape_lookup r c a i x (conj Ha Ha') Hx).
    destruct (has_shape_lookup r c b i y (conj Hb Hb') Hy). lia.
Qed.

Lemma get2_zip_with {A B C} (f : A → B → C) a b i j x y :
  get2 a i j = Some x → get2 b i j = Some y →
  get2 (zip_with (zip_with f) a b) i j = Some (f x y).
Proof.
  intros (ra & Hra & Hx)%get2_Some (rb & Hrb & Hy)%get2_Some.
  apply get2_Some. exists (zip_with f ra rb). split.
  - apply lookup_zip_with_Some. eauto.
  - apply lookup_zip_with_Some. eauto.
Qed.

Lemma get2_transpose {A} (d : A) n (m : list (list A)) i j x :
  has_shape n n m → get2 m j i = Some x → get2 (transpose d m) i j = Some x.
Proof.
  intros Hs Hx. destruct (get2_lt _ _ _ _ _ _ Hs Hx).
  destruct (has_shape_square_shape _ _ Hs) as [Hr Hc].
  unfold transpose. rewrite Hr, Hc, get2_tabulate by done. by rewrite Hx.
Qed.

Lemma has_shape_transpose {A} (d : A) n (m : list (list A)) :
  has_shape n n m → has_shape n n (transpose d m).
Proof.
  intros Hs. destruct (has_shape_square_shape _ _ Hs) as [Hr Hc].
  unfold transpose. rewrite Hr, Hc. apply has_shape_tabulate.
Qed.

Lemma length_diagonal `{Dtype T} n (m : list (list T)) :
  has_shape n n m → length (Correction.diagonal m) = n.
Proof.
  intros Hs. destruct (has_shape_square_shape _ _ Hs) as [Hr Hc].
  unfold Correction.diagonal. rewrite length_fmap, length_seq. lia.
Qed.

Lemma get2_np_diag `{Dtype T} n (m : list (list T)) i j a :
  has_shape n n m → i < n → j < n → get2 m i i = Some a →
  get2 (Correction.np_diag (Correction.diagonal m)) i j
  = Some (if bool_decide (i = j) then a else dzero).
Proof.
  intros Hs Hi Hj Ha. unfold Correction.np_diag.
  rewrite (length_diagonal n) by done. rewrite get2_tabulate by done.
  f_equal. case_bool_decide; [|done].
  unfold Correction.diagonal. destruct (has_shape_square_shape _ _ Hs) as [Hr Hc].
  rewrite list_lookup_fmap, lookup_seq_lt by lia. simpl. by rewrite Ha.
Qed.

(** ** C7: [symmetrize] *)

Lemma shape_square n (m : list (list Q)) :
  has_shape n n m → shape (Arr2 m) = [n; n].
Proof.
  intros Hs. destruct (has_shape_square_shape _ _ Hs) as [Hr Hc].
  simpl. by rewrite Hr, Hc.
Qed.

Lemma symmetrize_run h arr n A :
  h !! arr = Some (ONd (Arr2 A)) → has_shape n n A →
  Correction.symmetrize arr h =
    (Ok (length h),
     h ++ [ONd (Arr2 (Correction.np_sub (Correction.np_add A (Correction.np_T A))
                        (Correction.np_diag (Correction.diagonal A))))]).
Proof.
  intros Hl Hs. unfold Correction.symmetrize.
  destruct (has_shape_square_shape _ _ Hs) as [Hr Hc].
  rewrite run_bind, (run_load _ _ _ Hl). munfold. simpl.
  by rewrite Hr, Hc, Nat.eqb_refl.
Qed.

Lemma symmetrize_run_float64 h arr n A :
  h !! arr = Some (ONd (FloatArr2 A)) → has_shape n n A →
  Correction.symmetrize arr h =
    (Ok (length h),
     h ++ [ONd (FloatArr2 (Correction.np_sub (Correction.np_add A (Correction.np_T A))
                             (Correction.np_diag (Correction.diagonal A))))]).
Proof.
  intros Hl Hs. unfold Correction.symmetrize.
  destruct (has_shape_square_shape _ _ Hs) as [Hr Hc].
  rewrite run_bind, (run_load _ _ _ Hl). munfold. simpl.
  by rewrite Hr, Hc, Nat.eqb_refl.
Qed.

Lemma symmetrize_bool h arr n B :
  h !! arr = Some (ONd (BoolArr2 B)) → has_shape n n B →
  Correction.symmetrize arr h = (Raise TypeError, h).
Proof.
  intros Hl Hs. unfold Correction.symmetrize.
  destruct (has_shape_square_shape _ _ Hs) as [Hr Hc].
  rewrite run_bind, (run_load _ _ _ Hl). munfold. simpl.
  by rewrite Hr, Hc, Nat.eqb_refl.
Qed.

Lemma symmetrize_not_square h arr o :
  h !! arr = Some o →
  (∀ a r, o = ONd a → shape a ≠ [r; r]) →
  Correction.symmetrize arr h = (Raise AssertionError, h).
Proof.
  intros Hl Hns. unfold Correction.symmetrize.
  rewrite run_bind, (run_load _ _ _ Hl).
  destruct o as [a| |]; try done. munfold. simpl.
  specialize (Hns a). destruct (shape a) as [|r [|c [|]]]; try done.
  destruct (r =? c) eqn:Hrc; [|done].
  apply Nat.eqb_eq in Hrc as ->. by destruct (Hns c).
Qed.

Lemma symmetrize_entry_dtype `{Dtype T} n (A : list (list T)) i j a b :
  has_shape n n A → get2 A i j = Some a → get2 A j i = Some b →
  get2 (Correction.np_sub (Correction.np_add A (Correction.np_T A))
          (Correction.np_diag (Correction.diagonal A))) i j
  = Some (dsub (dadd a b) (if bool_decide (i = j) then a else dzero)).
Proof.
  intros Hs Ha Hb. destruct (get2_lt _ _ _ _ _ _ Hs Ha) as [Hi Hj].
  destruct (has_shape_get2 n n A i i Hs Hi Hi) as [d Hd].
  unfold Correction.np_sub, Correction.np_add, Correction.np_T.
  erewrite get2_zip_with; [| |by eapply get2_np_diag].
  2:{ erewrite get2_zip_with; [done|done|]. by eapply get2_transpose. }
  do 2 f_equal. case_bool_decide; [|done]. subst. congruence.
Qed.

Lemma symmetrize_entry n (A : list (list Q)) i j a b :
  has_shape n n A → get2 A i j = Some a → get2 A j i = Some b →
  get2 (Correction.np_sub (Correction.np_add A (Correction.np_T A))
          (Correction.np_diag (Correction.diagonal A))) i j
  = Some (a + b - (if bool_decide (i = j) then a else 0))%Q.
Proof. exact (symmetrize_entry_dtype n A i j a b). Qed.

Lemma has_shape_symmetrize `{Dtype T} n (A : list (list T)) :
  has_shape n n A →
  has_shape n n (Correction.np_sub (Correction.np_add A (Correction.np_T A))
                   (Correction.np_diag (Correction.diagonal A))).
Proof.
  intros Hs. unfold Correction.np_sub, Correction.np_add, Correction.np_T.
  repeat apply has_shape_zip_with; try done.
  - by apply has_shape_transpose.
  - unfold Correction.np_diag. rewrite (length_diagonal n) by done.
    apply has_shape_tabulate.
Qed.

(** *** The arithmetic of doubles that [symmetrize] uses *)

Lemma f64_add_comm a b : f64_add a b = f64_add b a.
Proof.
  destruct a as [[]|[]| |sa ma ea], b as [[]|[]| |sb mb eb]; try reflexivity.
  unfold f64_add, SFadd. by rewrite Z.min_comm, Z.add_comm.
Qed.

Lemma f64_sub_zero a : f64_sub a (S754_zero false) = a.
Proof. by destruct a as [[]|[]| |]. Qed.

(** Rounding a mantissa that is already in the format changes nothing. *)
Lemma binary_round_canonical s m e :
  bounded 53 1024 m e = true → binary_round 53 1024 s m e = S754_finite s m e.
Proof.
  unfold bounded, canonical_mantissa. intros [Hc He]%andb_prop.
  apply Z.eqb_eq in Hc. apply Z.leb_le in He.
  unfold binary_round. rewrite Hc. unfold shl_align. rewrite Z.sub_diag.
  unfold binary_round_aux, shr_fexp. simpl Zdigits2. rewrite Hc, Z.sub_diag. simpl.
  rewrite Hc, Z.sub_diag. simpl.
  by apply Z.leb_le in He as ->.
Qed.

(** Rounding twice a mantissa of the format: a subnormal number keeps its
    exponent, a normal number moves to the next exponent, and overflows at
    the largest one. *)
Lemma binary_round_twice s m e :
  bounded 53 1024 m e = true →
  binary_round 53 1024 s (m~0) e
  = if (e <? 971)%Z then
      if (Z.pos (digits2_pos m) <? 53)%Z then S754_finite s (m~0) e
      else S754_finite s m (e + 1)
    else S754_infinity s.
Proof.
  unfold bounded, canonical_mantissa. intros [Hc He]%andb_prop.
  apply Z.eqb_eq in Hc. apply Z.leb_le in He.
  unfold fexp, emin in Hc.
  unfold binary_round. simpl digits2_pos. rewrite Pos2Z.inj_succ.
  destruct (Z.ltb_spec (Z.pos (digits2_pos m)) 53) as [Hsub|Hnorm].
  - assert (fexp 53 1024 (Z.succ (Z.pos (digits2_pos m)) + e) = e) as Hf
      by (unfold fexp, emin; lia).
    rewrite Hf. unfold shl_align. rewrite Z.sub_diag.
    unfold binary_round_aux, shr_fexp. simpl Zdigits2. rewrite Pos2Z.inj_succ.
    rewrite Hf, Z.sub_diag. simpl. rewrite Pos2Z.inj_succ, Hf, Z.sub_diag. simpl.
    destruct (Z.ltb_spec e 971), (Z.leb_spec e (1024 - 53)); try lia; done.
  - assert (fexp 53 1024 (Z.succ (Z.pos (digits2_pos m)) + e) = e + 1)%Z as Hf
      by (unfold fexp, emin; lia).
    rewrite Hf. unfold shl_align.
    replace (e + 1 - e)%Z with 1%Z by lia.
    unfold binary_round_aux, shr_fexp. simpl Zdigits2. rewrite Pos2Z.inj_succ.
    rewrite Hf. replace (e + 1 - e)%Z with 1%Z by lia. simpl.
    assert (fexp 53 1024 (Z.pos (digits2_pos m) + (e + 1)) = e + 1)%Z as Hf'
      by (unfold fexp, emin; lia).
    rewrite Hf', Z.sub_diag. simpl.
    destruct (Z.ltb_spec e 971), (Z.leb_spec (e + 1) (1024 - 53)); try lia; done.
Qed.

(** [(a + a) - a] for a double [a] *)
Lemma f64_diagonal a :
  is_double a = true → f64_sub (f64_add a a) a = diagonal_entry a.
Proof.
  destruct a as [[]|[]| |s m e]; try reflexivity.
  unfold is_double, valid_binary. intros Hb.
  assert (f64_add (S754_finite s m e) (S754_finite s m e)
          = binary_round 53 1024 s (m~0) e) as ->.
  { unfold f64_add, SFadd. rewrite Z.min_id. unfold shl_align. rewrite Z.sub_diag.
    cbn [fst].
    replace (cond_Zopp s (Z.pos m) + cond_Zopp s (Z.pos m))%Z
      with (cond_Zopp s (Z.pos m~0)) by (destruct s; simpl; lia).
    by destruct s. }
  rewrite binary_round_twice by done. unfold diagonal_entry.
  destruct (Z.ltb_spec e 971) as [He|He]; [|done].
  destruct (Z.ltb_spec (Z.pos (digits2_pos m)) 53) as [Hsub|Hnorm].
  - unfold f64_sub, SFsub. rewrite Z.min_id. unfold shl_align. rewrite Z.sub_diag.
    cbn [fst].
    assert (cond_Zopp s (Z.pos m~0) - cond_Zopp s (Z.pos m)
            = cond_Zopp s (Z.pos m))%Z as -> by (destruct s; simpl; lia).
    destruct s; simpl; by apply binary_round_canonical.
  - unfold f64_sub, SFsub. rewrite Z.min_r by lia. unfold shl_align.
    rewrite Z.sub_diag. replace (e - (e + 1))%Z with (-1)%Z by lia.
    cbn [fst Pos.iter].
    assert (cond_Zopp s (Z.pos m~0) - cond_Zopp s (Z.pos m)
            = cond_Zopp s (Z.pos m))%Z as -> by (destruct s; simpl; lia).
    destruct s; simpl; by apply binary_round_canonical.
Qed.

(** The claim fails on the code: with the double nearest to 1e308 on the
    diagonal, [a + a] overflows, and the diagonal of the result holds
    infinities where the diagonal of [A] holds 1e308.  The other entries of
    the example are the doubles 2 and 3, whose sum is 5. *)
Lemma symmetrize_counterexample :
  let a := S754_finite false 5010420900022432 971 in
  let two := S754_finite false 4503599627370496 (-51) in
  let three := S754_finite false 6755399441055744 (-51) in
  let five := S754_finite false 5629499534213120 (-50) in
  let inf := S754_infinity false in
  let h := [ONd (FloatArr2 [[a; two]; [three; a]])] in
  is_double a = true
  ∧ Correction.symmetrize 0 h
    = (Ok 1, h ++ [ONd (FloatArr2 [[inf; five]; [five; inf]])]).
Proof. split; vm_compute; reflexivity. Qed.

(** C7, as amended.  For every square float64 array [A], [symmetrize(A)] is
    a new array that equals [A + A.T - diag(diagonal(A))] entry by entry, in
    the arithmetic of doubles.  The result is symmetric: off the diagonal
    its entry at [(i, j)] and at [(j, i)] is the rounded sum of [A[i, j]] and
    [A[j, i]].  A diagonal entry is [(a + a) - a] for the entry [a] of [A]:
    it is [a] if [a] is finite, not zero and [a + a] does not overflow, an
    infinity if [a + a] overflows, [+0.] for a zero and NaN for an infinite
    or NaN [a].  A square array of booleans raises [TypeError]; for an
    argument that is not a square 2-D array the call fails with the
    assertion error. *)
Theorem symmetrize_spec (h : store) (arr : loc) :
  (∀ n A, h !! arr = Some (ONd (FloatArr2 A)) → has_shape n n A →
     ∃ S, Correction.symmetrize arr h = (Ok (length h), h ++ [ONd (FloatArr2 S)])
        ∧ has_shape n n S
        ∧ (∀ i j a b, get2 A i j = Some a → get2 A j i = Some b →
             get2 S i j
             = Some (f64_sub (f64_add a b)
                       (if bool_decide (i = j) then a else S754_zero false)))
        ∧ (∀ i j s t, get2 S i j = Some s → get2 S j i = Some t → s = t)
        ∧ (∀ i j a b, i ≠ j → get2 A i j = Some a → get2 A j i = Some b →
             get2 S i j = Some (f64_add a b))
        ∧ (∀ i a, get2 A i i = Some a → is_double a = true →
             get2 S i i = Some (diagonal_entry a)))
  ∧ (∀ n B, h !! arr = Some (ONd (BoolArr2 B)) → has_shape n n B →
       Correction.symmetrize arr h = (Raise TypeError, h))
  ∧ (∀ o, h !! arr = Some o → (∀ a r, o = ONd a → shape a ≠ [r; r]) →
       Correction.symmetrize arr h = (Raise AssertionError, h)).
Proof.
  split_and!.
  - intros n A Hl Hs. eexists. split; [by eapply symmetrize_run_float64|].
    split; [by apply has_shape_symmetrize|].
    assert (∀ i j a b, get2 A i j = Some a → get2 A j i = Some b →
      get2 (Correction.np_sub (Correction.np_add A (Correction.np_T A))
          (Correction.np_diag (Correction.diagonal A))) i j
      = Some (f64_sub (f64_add a b)
                (if bool_decide (i = j) then a else S754_zero false))) as Hent.
    { intros i j a b Ha Hb. exact (symmetrize_entry_dtype n A i j a b Hs Ha Hb). }
    split_and!; [done| | |].
    + intros i j s t Hs' Ht'.
      destruct (get2_lt _ _ _ _ _ _ (has_shape_symmetrize n A Hs) Hs') as [Hi Hj].
      destruct (has_shape_get2 n n A i j Hs Hi Hj) as [a Ha].
      destruct (has_shape_get2 n n A j i Hs Hj Hi) as [b Hb].
      rewrite (Hent i j a b Ha Hb) in Hs'. rewrite (Hent j i b a Hb Ha) in Ht'.
      injection Hs' as <-. injection Ht' as <-.
      destruct (decide (i = j)) as [->|Hne].
      * rewrite Ha in Hb. by injection Hb as <-.
      * rewrite !bool_decide_eq_false_2 by congruence.
        by rewrite (f64_add_comm a b).
    + intros i j a b Hne Ha Hb. rewrite (Hent i j a b Ha Hb).
      by rewrite bool_decide_eq_false_2, f64_sub_zero.
    + intros i a Ha Hd. rewrite (Hent i i a a Ha Ha).
      by rewrite bool_decide_eq_true_2, f64_diagonal.
  - intros. by eapply symmetrize_bool.
  - intros. by eapply symmetrize_not_square.
Qed.

Lemma symmetrize_spec_witness :
  let one := S754_finite false 4503599627370496 (-52) in
  let two := S754_finite false 4503599627370496 (-51) in
  let three := S754_finite false 6755399441055744 (-51) in
  let five := S754_finite false 5629499534213120 (-50) in
  let A := [[one; two]; [three; one]] in
  let h := [ONd (FloatArr2 A)] in
  (h !! 0 = Some (ONd (FloatArr2 A)) ∧ has_shape 2 2 A)
  ∧ (∃ S, Correction.symmetrize 0 h = (Ok 1, h ++ [ONd (FloatArr2 S)])
        ∧ get2 S 0 1 = Some five
        ∧ get2 S 0 0 = Some one)
  ∧ ([ONd (Arr1 [1%Q])] !! 0 = Some (ONd (Arr1 [1%Q]))
     ∧ Correction.symmetrize 0 [ONd (Arr1 [1%Q])] = (Raise AssertionError, [ONd (Arr1 [1%Q])])).
Proof.
  intros one two three five A h.
  assert (h !! 0 = Some (ONd (FloatArr2 A)) ∧ has_shape 2 2 A) as [H1 H2].
  { split; [reflexivity|]. split; [reflexivity|]. repeat constructor. }
  destruct (symmetrize_spec h 0) as (Hok & _ & _).
  destruct (Hok 2 A H1 H2) as (S & Hrun & _ & _ & _ & Hoff & Hdiag).
  destruct (symmetrize_spec [ONd (Arr1 [1%Q])] 0) as (_ & _ & Hfail).
  split; [done|]. split.
  - exists S. split; [exact Hrun|]. split.
    + exact (Hoff 0 1 two three ltac:(done) eq_refl eq_refl).
    + exact (Hdiag 0 one eq_refl eq_refl).
  - split; [reflexivity|]. apply (Hfail _ eq_refl).
    intros a r [= <-]. discriminate.
Defined.

(** ** C4: [ravel_connect] and [unravel_connect] *)

Lemma get2_set2 {A} (m : list (list A)) i j x i' j' :
  get2 (set2 m i j x) i' j' =
    if decide (i = i' ∧ j = j') then (λ _, x) <$> get2 m i j else get2 m i' j'.
Proof.
  unfold get2, set2. destruct (decide (i = i')) as [<-|Hi].
  - rewrite list_lookup_alter_eq. destruct (m !! i) as [row|]; simpl.
    + destruct (decide (j = j')) as [<-|Hj].
      * rewrite decide_True by done.
        destruct (row !! j) as [y|] eqn:Hy; simpl.
        -- rewrite list_lookup_insert_eq; [done|]. by eapply lookup_lt_Some.
        -- rewrite list_insert_ge; [by rewrite Hy|]. by apply lookup_ge_None.
      * rewrite decide_False by tauto. by rewrite list_lookup_insert_ne.
    + by case_decide.
  - rewrite decide_False by tauto. by rewrite list_lookup_alter_ne.
Qed.

Lemma has_shape_set2 {A} r c (m : list (list A)) i j x :
  has_shape r c m → has_shape r c (set2 m i j x).
Proof.
  intros Hs. pose proof Hs as [Hr Hc]. unfold set2. split; [by rewrite length_alter|].
  apply Forall_forall. intros row (k & Hk)%list_elem_of_lookup_1.
  rewrite list_lookup_alter in Hk. destruct (decide (i = k)) as [<-|Hne].
  - destruct (m !! i) as [row'|] eqn:Hrow; [|done]. injection Hk as <-.
    rewrite length_insert. eapply has_shape_lookup; eauto.
  - eapply has_shape_lookup; eauto.
Qed.

Lemma scatter_fold {f : nat * nat → Q} r c (pos : list (nat * nat)) (m : list (list Q)) :
  has_shape r c m →
  (∀ p, p ∈ pos → p.1 < r ∧ p.2 < c) →
  ∃ R, foldl (λ (acc : outcome (list (list Q))) (pv : nat * nat * Q),
                m' ← acc; setitem2 m' pv.1.1 pv.1.2 pv.2)
         (Ok m) (zip pos (f <$> pos)) = Ok R
     ∧ has_shape r c R
     ∧ ∀ i j, get2 R i j = if decide ((i, j) ∈ pos) then Some (f (i, j)) else get2 m i j.
Proof.
  revert m. induction pos as [|[a b] pos IH]; intros m Hs Hin.
  - exists m. split_and!; [done..|]. intros i j. rewrite decide_False; [done|].
    apply not_elem_of_nil.
  - simpl.
    destruct (Hin (a, b)) as [Ha Hb]; [left|]. simpl in *.
    destruct (has_shape_get2 r c m a b Hs Ha Hb) as [y Hy].
    unfold setitem2 at 2. rewrite Hy.
    destruct (IH (set2 m a b (f (a, b)))) as (R & HR & HsR & Hget).
    { by apply has_shape_set2. }
    { intros p Hp. apply Hin. by right. }
    exists R. split_and!; [done..|].
    intros i j. rewrite Hget. destruct (decide ((i, j) ∈ pos)) as [Hp|Hp].
    + rewrite decide_True; [done|]. by right.
    + rewrite get2_set2. destruct (decide (a = i ∧ b = j)) as [[-> ->]|Hne].
      * rewrite decide_True by left. by rewrite Hy.
      * rewrite decide_False; [done|].
        intros [?|?]%elem_of_cons; simplify_eq; tauto.
Qed.

Lemma traverse_map {A B} (f : A → outcome B) (g : A → B) (l : list A) :
  (∀ a, a ∈ l → f a = Ok (g a)) → traverse f l = Ok (g <$> l).
Proof.
  intros Hf. induction l as [|a l IH]; [done|].
  cbn [traverse]. rewrite Hf by left. cbn. rewrite IH; [done|].
  intros b Hb. apply Hf. by right.
Qed.

Lemma gather_map (A : list (list Q)) (pos : list (nat * nat)) :
  (∀ p, p ∈ pos → is_Some (get2 A p.1 p.2)) →
  Correction.gather A (pos.*1, pos.*2)
  = Ok ((λ p, default 0%Q (get2 A p.1 p.2)) <$> pos).
Proof.
  intros Hin. unfold Correction.gather. cbn [fst snd]. rewrite zip_fst_snd.
  apply traverse_map. intros p Hp. destruct (Hin p Hp) as [y Hy].
  unfold getitem2. by rewrite Hy.
Qed.

Lemma selected_pairs_lt n part i j :
  (i, j) ∈ selected_pairs n part → i < n ∧ j < n.
Proof.
  unfold selected_pairs. repeat case_bool_decide;
    rewrite ?elem_of_app, ?elem_of_upper_pairs, ?elem_of_lower_pairs; lia.
Qed.

Lemma lookup_app_plus {A} (h k : list A) i : (h ++ k) !! (length h + i) = k !! i.
Proof. rewrite lookup_app_r by lia. f_equal. lia. Qed.

Lemma lookup_app_S {A} (h k : list A) : (h ++ k) !! S (length h) = k !! 1.
Proof. rewrite <- (lookup_app_plus h k 1). f_equal. lia. Qed.

Lemma lookup_app_0 {A} (h k : list A) : (h ++ k) !! length h = k !! 0.
Proof. rewrite <- (lookup_app_plus h k 0). f_equal. lia. Qed.

Lemma load_pairs_run h (P : list (nat * nat)) :
  Correction.load_pairs (Correction.PairsTuple (length h) (S (length h)))
    (h ++ [ONd (IntArr1 P.*1); ONd (IntArr1 P.*2)])
  = (Ok (P.*1, P.*2), h ++ [ONd (IntArr1 P.*1); ONd (IntArr1 P.*2)]).
Proof.
  unfold Correction.load_pairs, Correction.load_index_array.
  rewrite !run_bind. unfold load at 1. rewrite lookup_app_0. simpl.
  rewrite !run_bind. unfold load at 1. rewrite lookup_app_S. simpl. done.
Qed.

#[local] Arguments nrows : simpl never.
#[local] Arguments ncols : simpl never.
#[local] Arguments Correction.get_pairs : simpl never.
#[local] Arguments Correction.load_pairs : simpl never.
#[local] Arguments Correction.gather : simpl never.
#[local] Arguments Correction.scatter : simpl never.
#[local] Arguments selected_pairs : simpl never.
#[local] Arguments full : simpl never.

Lemma run_ret {A} (a : A) (h : list obj) : (mret a : M A) h = (Ok a, h).
Proof. reflexivity. Qed.
Lemma run_lift {A} (o : outcome A) (h : list obj) : lift o h = (o, h).
Proof. reflexivity. Qed.
Lemma run_raise {A} e (h : list obj) : (raise e : M A) h = (Raise e, h).
Proof. reflexivity. Qed.
Lemma run_assert_true (h : list obj) : assert_ true h = (Ok (), h).
Proof. reflexivity. Qed.
Lemma run_assert_false (h : list obj) : assert_ false h = (Raise AssertionError, h).
Proof. reflexivity. Qed.
Lemma run_update l o (h : list obj) : update l o h = (Ok (), <[l := o]> h).
Proof. reflexivity. Qed.

(** Runs the next steps of a computation on a symbolic store. *)
Ltac mrun :=
  repeat first
    [ rewrite run_bind | rewrite run_ret | rewrite run_lift | rewrite run_raise
    | rewrite run_assert_true | rewrite run_assert_false | rewrite run_alloc
    | rewrite run_update | progress simpl ].

Lemma ravel_connect_run h l n A part :
  h !! l = Some (ONd (Arr2 A)) → has_shape n n A → valid_part part →
  Correction.ravel_connect l part h =
    (Ok (length h + 2),
     h ++ [ONd (IntArr1 (selected_pairs n part).*1);
           ONd (IntArr1 (selected_pairs n part).*2);
           ONd (Arr1 ((λ p, default 0%Q (get2 A p.1 p.2)) <$> selected_pairs n part))]).
Proof.
  intros Hl Hs Hv. unfold Correction.ravel_connect.
  destruct (has_shape_square_shape _ _ Hs) as [Hr Hc].
  rewrite run_bind, (run_load _ _ _ Hl). mrun.
  rewrite Hr, Hc. rewrite bool_decide_eq_true_2 by done. mrun.
  pose proof (get_pairs_run n part false h Hv) as Hp. unfold returns_pairs in Hp.
  rewrite Hp. mrun. rewrite load_pairs_run. mrun.
  rewrite gather_map.
  2:{ intros [i j] Hin. apply selected_pairs_lt in Hin as [??].
      by eapply has_shape_get2. }
  mrun. rewrite length_app. simpl. rewrite <- (assoc_L (++)). done.
Qed.

Lemma unravel_connect_run h l n part (f : nat * nat → Q) :
  h !! l = Some (ONd (Arr1 (f <$> selected_pairs n part))) → valid_part part →
  ∃ R, Correction.unravel_connect l n part h =
         (Ok (length h + 2),
          h ++ [ONd (IntArr1 (selected_pairs n part).*1);
                ONd (IntArr1 (selected_pairs n part).*2);
                ONd (Arr2 R)])
     ∧ has_shape n n R
     ∧ ∀ i j, get2 R i j =
         if decide ((i, j) ∈ selected_pairs n part) then Some (f (i, j))
         else get2 (full n n 0%Q) i j.
Proof.
  intros Hl Hv. unfold Correction.unravel_connect.
  destruct (@scatter_fold f n n (selected_pairs n part) (full n n 0%Q))
    as (R & HR & HsR & Hget).
  { apply has_shape_full. }
  { intros [i j]. apply selected_pairs_lt. }
  refine (ex_intro _ R (conj _ (conj HsR Hget))).
  rewrite run_bind, (run_load _ _ _ Hl). mrun.
  pose proof (get_pairs_run n part false h Hv) as Hp. unfold returns_pairs in Hp.
  rewrite Hp. mrun. rewrite load_pairs_run. mrun.
  unfold Correction.scatter. cbn [fst snd]. rewrite zip_fst_snd, length_fmap, Nat.eqb_refl.
  rewrite HR. mrun. rewrite length_app. simpl.
  f_equal. rewrite <- (assoc_L (++)). simpl.
  rewrite insert_app_r_alt by lia.
  replace (length h + 2 - length h) with 2 by lia. done.
Qed.

(** C4.  Round trip: for every [n]×[n] array [A] and every part,
    [unravel_connect(ravel_connect(A, part), n, part)] returns an [n]×[n]
    array that holds the entry of [A] at every position [get_pairs(n, part)]
    selects and zero at every other position. *)
Theorem ravel_unravel_roundtrip (h : store) (l n : nat) (A : list (list Q))
    (part : string) :
  h !! l = Some (ONd (Arr2 A)) → has_shape n n A →
  part ∈ ["upper"; "lower"; "both"] →
  ∃ l1 h1 l2 h2 B,
    Correction.ravel_connect l part h = (Ok l1, h1)
    ∧ Correction.unravel_connect l1 n part h1 = (Ok l2, h2)
    ∧ h2 !! l2 = Some (ONd (Arr2 B))
    ∧ has_shape n n B
    ∧ ∀ i j, i < n → j < n →
        get2 B i j = if decide ((i, j) ∈ selected_pairs n part) then get2 A i j
                     else Some 0%Q.
Proof.
  intros Hl Hs Hv.
  pose proof (ravel_connect_run h l n A part Hl Hs Hv) as Hravel.
  set (h1 := h ++ _) in Hravel.
  destruct (unravel_connect_run h1 (length h + 2) n part
              (λ p, default 0%Q (get2 A p.1 p.2))) as (B & Hun & HsB & Hget); [|done|].
  { unfold h1. rewrite lookup_app_plus. done. }
  eexists _, _, _, _, B. split_and!; [exact Hravel|exact Hun| |done|].
  - rewrite lookup_app_plus. done.
  - intros i j Hi Hj. rewrite Hget. case_decide as Hin.
    + destruct (has_shape_get2 n n A i j Hs Hi Hj) as [a Ha]. simpl. by rewrite Ha.
    + by apply get2_full.
Qed.

Lemma ravel_unravel_roundtrip_witness :
  let A := [[1; 2]; [3; 4]]%Q in
  (([ONd (Arr2 A)] : list obj) !! 0 = Some (ONd (Arr2 A)) ∧ has_shape 2 2 A
   ∧ "upper" ∈ ["upper"; "lower"; "both"])
  ∧ ∃ l1 h1 l2 h2 B,
      Correction.ravel_connect 0 "upper" [ONd (Arr2 A)] = (Ok l1, h1)
      ∧ Correction.unravel_connect l1 2 "upper" h1 = (Ok l2, h2)
      ∧ h2 !! l2 = Some (ONd (Arr2 B))
      ∧ get2 B 0 1 = Some 2%Q ∧ get2 B 1 0 = Some 0%Q.
Proof.
  intros A.
  assert (([ONd (Arr2 A)] : list obj) !! 0 = Some (ONd (Arr2 A))) as H1 by reflexivity.
  assert (has_shape 2 2 A) as H2 by (split; [reflexivity|repeat constructor]).
  assert ("upper" ∈ ["upper"; "lower"; "both"]) as H3 by left.
  split; [done|].
  destruct (ravel_unravel_roundtrip [ONd (Arr2 A)] 0 2 A "upper" H1 H2 H3)
    as (l1 & h1 & l2 & h2 & B & Hr & Hu & Hl & _ & Hget).
  exists l1, h1, l2, h2, B. split_and!; [done..| |].
  - rewrite (Hget 0 1) by lia. reflexivity.
  - rewrite (Hget 1 0) by lia. reflexivity.
Defined.

(** ** C8: [concat_connect] *)

Lemma block_entry_ge Ms q i j x :
  block_entry Ms q i j = Some x → q ≤ i ∧ q ≤ j.
Proof.
  revert q. induction Ms as [|M Ms IH]; intros q; simpl; [done|].
  destruct (bool_decide (q ≤ i < q + nrows M)) eqn:Hi;
    destruct (bool_decide (q ≤ j < q + nrows M)) eqn:Hj; simpl.
  - apply bool_decide_eq_true in Hi, Hj. lia.
  - intros H%IH. lia.
  - intros H%IH. lia.
  - intros H%IH. lia.
Qed.

Lemma block_offset_0 Ms : block_offset Ms 0 = 0.
Proof. reflexivity. Qed.

Lemma block_offset_S M0 Ms k :
  block_offset (M0 :: Ms) (S k) = nrows M0 + block_offset Ms k.
Proof. reflexivity. Qed.

Lemma block_entry_block Ms q k M i j :
  Ms !! k = Some M → i < nrows M → j < nrows M →
  block_entry Ms q (q + block_offset Ms k + i) (q + block_offset Ms k + j)
  = get2 M i j.
Proof.
  revert q k. induction Ms as [|M0 Ms IH]; intros q k Hk Hi Hj; [done|].
  destruct k as [|k]; simpl in Hk.
  - injection Hk as ->. rewrite block_offset_0. cbn [block_entry].
    rewrite !bool_decide_eq_true_2 by lia. simpl. f_equal; lia.
  - rewrite block_offset_S. cbn [block_entry].
    rewrite (bool_decide_eq_false_2 (q ≤ q + (nrows M0 + block_offset Ms k) + i < _)) by lia.
    simpl. rewrite <- (IH (q + nrows M0) k Hk Hi Hj). f_equal; lia.
Qed.

Lemma block_entry_outside Ms q i j :
  (∀ k M, Ms !! k = Some M →
     ¬ (q + block_offset Ms k ≤ i < q + block_offset Ms k + nrows M
        ∧ q + block_offset Ms k ≤ j < q + block_offset Ms k + nrows M)) →
  block_entry Ms q i j = None.
Proof.
  revert q. induction Ms as [|M0 Ms IH]; intros q Hout; [done|]. simpl.
  pose proof (Hout 0 M0 eq_refl) as H0. rewrite block_offset_0 in H0.
  destruct (bool_decide (q ≤ i < q + nrows M0)) eqn:Hi;
    destruct (bool_decide (q ≤ j < q + nrows M0)) eqn:Hj; simpl;
    try apply bool_decide_eq_true in Hi; try apply bool_decide_eq_true in Hj;
    try (exfalso; lia).
  all: apply IH; intros k M Hk; specialize (Hout (S k) M Hk);
    rewrite block_offset_S in Hout; lia.
Qed.

Lemma get2_imap2 {A} (g : nat → nat → A → A) (m : list (list A)) i j :
  get2 (imap (λ i row, imap (λ j x, g i j x) row) m) i j = g i j <$> get2 m i j.
Proof.
  unfold get2. rewrite list_lookup_imap. destruct (m !! i) as [row|]; [|done].
  simpl. by rewrite list_lookup_imap.
Qed.

Lemma has_shape_imap2 {A} r c (g : nat → nat → A → A) (m : list (list A)) :
  has_shape r c m → has_shape r c (imap (λ i row, imap (λ j x, g i j x) row) m).
Proof.
  intros Hs. pose proof Hs as [Hr Hc]. split; [by rewrite length_imap|].
  apply Forall_forall. intros row (k & Hk)%list_elem_of_lookup_1.
  rewrite list_lookup_imap in Hk. destruct (m !! k) as [row'|] eqn:Hrow; [|done].
  injection Hk as <-. rewrite length_imap. eapply has_shape_lookup; eauto.
Qed.

Lemma set_block_square {A} (d : A) N s (m c : list (list A)) q :
  has_shape N N m → has_shape s s c →
  ∃ m', Correction.set_block d m q s c = Ok m'
      ∧ has_shape N N m'
      ∧ ∀ i j, i < N → j < N →
          get2 m' i j =
            if bool_decide (q ≤ i < q + s) && bool_decide (q ≤ j < q + s)
            then get2 c (i - q) (j - q) else get2 m i j.
Proof.
  intros Hm Hc. destruct (has_shape_square_shape _ _ Hc) as [_ Hcols].
  unfold Correction.set_block. rewrite Hcols, Nat.eqb_refl.
  eexists. split_and!; [done|by apply has_shape_imap2|].
  intros i j Hi Hj. rewrite get2_imap2.
  destruct (has_shape_get2 N N m i j Hm Hi Hj) as [x ->]. simpl.
  destruct (bool_decide (q ≤ i < q + s)) eqn:Hbi;
    destruct (bool_decide (q ≤ j < q + s)) eqn:Hbj; simpl; try done.
  apply bool_decide_eq_true in Hbi, Hbj.
  destruct (has_shape_get2 s s c (i - q) (j - q) Hc) as [y ->]; [lia..|]. done.
Qed.

Lemma assign_block_run N (h : list obj) a oa m q c M :
  h !! a = Some (ONd oa) → acc_ok N oa m → is_square_input c M →
  ∃ oa' m', Correction.assign_block a q (nrows M) c h = (Ok (), <[a := ONd oa']> h)
    ∧ acc_ok N oa' m'
    ∧ ∀ i j, i < N → j < N →
        get2 m' i j =
          if bool_decide (q ≤ i < q + nrows M) && bool_decide (q ≤ j < q + nrows M)
          then get2 M (i - q) (j - q) else get2 m i j.
Proof.
  intros Ha [Hm Hoa] [HM Hc].
  destruct (set_block_square 0%Q N (nrows M) m M q Hm HM) as (m' & Hset & Hm' & Hget).
  unfold Correction.assign_block.
  assert (Correction.data2 c h = (Ok M, h)) as Hdata.
  { destruct Hc as [->|(K & -> & _)]; done. }
  rewrite run_bind, Hdata. mrun. rewrite Ha. simpl.
  destruct Hoa as [->|(k & -> & Hk)].
  - mrun. rewrite Hset. mrun. exists (Arr2 m'), m'. split_and!; [done| |done].
    split; [done|by left].
  - mrun. rewrite Hset. mrun.
    assert (∃ ck, match c with
                  | MArr2 _ ck => ck
                  | _ => full (nrows M) (ncols M) false
                  end = ck ∧ has_shape (nrows M) (nrows M) ck) as (ck & -> & Hck).
    { destruct Hc as [->|(K & -> & HK)]; eexists; split; try done.
      destruct (has_shape_square_shape _ _ HM) as [_ ->]. apply has_shape_full. }
    destruct (set_block_square false N (nrows M) k ck q Hk Hck) as (k' & Hsetk & Hk' & _).
    rewrite Hsetk. mrun. exists (MArr2 m' k'), m'. split_and!; [done| |done].
    split; [done|right; eauto].
Qed.

Lemma concat_loop N a Ms arrs :
  Forall2 is_square_input arrs Ms →
  ∀ q oa m (h : list obj),
    h !! a = Some (ONd oa) → acc_ok N oa m →
    ∃ oa' m',
      fold_each (zip arrs (nrows <$> Ms))
        (λ q cs, Correction.assign_block a q cs.2 cs.1;; mret (q + cs.2)) q h
      = (Ok (q + sum_list (nrows <$> Ms)), <[a := ONd oa']> h)
      ∧ acc_ok N oa' m'
      ∧ ∀ i j, i < N → j < N →
          get2 m' i j = match block_entry Ms q i j with
                        | Some x => Some x
                        | None => get2 m i j
                        end.
Proof.
  induction 1 as [|c M arrs Ms Hc _ IH]; intros q oa m h Ha Hacc.
  - exists oa, m. simpl. rewrite run_ret, Nat.add_0_r, list_insert_id by done.
    done.
  - destruct (assign_block_run N h a oa m q c M Ha Hacc Hc)
      as (oa1 & m1 & Hrun & Hacc1 & Hget1).
    destruct (IH (q + nrows M) oa1 m1 (<[a := ONd oa1]> h)) as (oa' & m' & Hloop & Hacc' & Hget').
    { apply list_lookup_insert_eq. by eapply lookup_lt_Some. }
    { done. }
    exists oa', m'. split_and!; [|done|].
    + cbn [fmap list_fmap zip zip_with fold_each]. rewrite run_bind.
      cbn [fst snd]. rewrite run_bind, Hrun. rewrite run_ret.
      fold (fmap (M := list) nrows Ms). rewrite Hloop.
      rewrite list_insert_insert_eq. simpl. do 2 f_equal. lia.
    + intros i j Hi Hj. rewrite Hget', Hget1 by done. cbn [block_entry].
      destruct (bool_decide (q ≤ i < q + nrows M) && bool_decide (q ≤ j < q + nrows M))
        eqn:Hin.
      * apply andb_true_iff in Hin as [Hbi%bool_decide_eq_true Hbj%bool_decide_eq_true].
        destruct (block_entry Ms (q + nrows M) i j) as [x|] eqn:Hx.
        { apply block_entry_ge in Hx. lia. }
        destruct Hc as [HM _].
        destruct (has_shape_get2 _ _ M (i - q) (j - q) HM) as [y ->]; [lia..|]. done.
      * done.
Qed.

Lemma load_arrays_run (h : list obj) connect arrs :
  Forall2 (λ l a, h !! l = Some (ONd a)) connect arrs →
  ∀ acc,
    fold_each connect
      (λ acc l, o ← load l; a ← attr_ndarray o; mret (acc ++ [a])) acc h
    = (Ok (acc ++ arrs), h).
Proof.
  induction 1 as [|l a connect arrs Hl _ IH]; intros acc; simpl.
  - by rewrite run_ret, app_nil_r.
  - rewrite run_bind, run_bind, (run_load _ _ _ Hl). mrun.
    rewrite IH. by rewrite <- (assoc_L (++)).
Qed.

Lemma block_offset_le Ms k M :
  Ms !! k = Some M → block_offset Ms k + nrows M ≤ sum_list (nrows <$> Ms).
Proof.
  revert k. induction Ms as [|M0 Ms IH]; intros k Hk; [done|].
  destruct k as [|k]; simpl in Hk.
  - injection Hk as ->. rewrite block_offset_0, fmap_cons. simpl. lia.
  - rewrite block_offset_S, fmap_cons. simpl. specialize (IH k Hk). lia.
Qed.

Lemma holds_square_arrays (h : list obj) connect Ms :
  Forall2 (holds_square h) connect Ms →
  ∃ arrs, Forall2 (λ l a, h !! l = Some (ONd a)) connect arrs
        ∧ Forall2 is_square_input arrs Ms.
Proof.
  induction 1 as [|l M connect Ms (a & Hl & Ha) _ (arrs & IH1 & IH2)].
  - exists []. split; constructor.
  - exists (a :: arrs). split; by constructor.
Qed.

Lemma square_inputs_ndim arrs Ms :
  Forall2 is_square_input arrs Ms →
  forallb (λ k, ndim k =? 2) arrs = true
  ∧ (λ k, default 0 (shape k !! 0)) <$> arrs = nrows <$> Ms.
Proof.
  induction 1 as [|a M arrs Ms [_ Ha] _ [IH1 IH2]]; [done|].
  rewrite !fmap_cons, IH2. cbn [forallb]. rewrite IH1.
  destruct Ha as [->|(K & -> & _)]; done.
Qed.

(** C8.  For every non-empty list of square matrices [M1..Mk] (plain arrays,
    or masked arrays with a mask of their shape) and every fill value,
    [concat_connect] returns a new square array of size [n1 + ... + nk] in
    which the matrices are the consecutive diagonal blocks, in the order of
    the list, and every entry outside of the blocks is [fill_with]. *)
Theorem concat_connect_spec (h : store) (connect : list loc)
    (Ms : list (list (list Q))) (fill_with : Q) :
  connect ≠ [] →
  Forall2 (holds_square h) connect Ms →
  ∃ o R,
    Correction.concat_connect connect fill_with h = (Ok (length h), h ++ [ONd o])
    ∧ data_of o = Some R
    ∧ has_shape (sum_list (nrows <$> Ms)) (sum_list (nrows <$> Ms)) R
    ∧ (∀ k M i j, Ms !! k = Some M → i < nrows M → j < nrows M →
         get2 R (block_offset Ms k + i) (block_offset Ms k + j) = get2 M i j)
    ∧ (∀ i j, i < sum_list (nrows <$> Ms) → j < sum_list (nrows <$> Ms) →
         (∀ k M, Ms !! k = Some M →
            ¬ (block_offset Ms k ≤ i < block_offset Ms k + nrows M
               ∧ block_offset Ms k ≤ j < block_offset Ms k + nrows M)) →
         get2 R i j = Some fill_with).
Proof.
  intros Hne Hin. set (N := sum_list (nrows <$> Ms)).
  destruct (holds_square_arrays h connect Ms Hin) as (arrs & Hload & Hsq).
  destruct (square_inputs_ndim arrs Ms Hsq) as [Hndim Hshapes].
  assert (∃ oa0, acc_ok N oa0 (full N N fill_with)
     ∧ ((if existsb Correction.is_masked arrs
         then update (length h) (ONd (MArr2 (full N N fill_with) (full N N true)))
         else mret ()) (h ++ [ONd (Arr2 (full N N fill_with))])
        = (Ok (), h ++ [ONd oa0]))) as (oa0 & Hacc0 & Hmask).
  { destruct (existsb Correction.is_masked arrs).
    - eexists. split; [|rewrite run_update, insert_app_r_alt, Nat.sub_diag by lia; done].
      split; [apply has_shape_full|]. right. eexists. split; [done|apply has_shape_full].
    - eexists. split; [|by rewrite run_ret].
      split; [apply has_shape_full|]. by left. }
  destruct (concat_loop N (length h) Ms arrs Hsq 0 oa0 (full N N fill_with)
              (h ++ [ONd oa0])) as (oa' & R & Hloop & [HsR HoaR] & Hget).
  { by rewrite lookup_app_0. }
  { done. }
  exists oa', R. split_and!.
  - unfold Correction.concat_connect.
    rewrite run_bind, (load_arrays_run h connect arrs Hload []). cbn [app].
    rewrite run_bind, Hndim, run_assert_true. rewrite Hshapes.
    assert ((match nrows <$> Ms with
             | [] => raise TypeError
             | _ :: _ => mret (sum_list (nrows <$> Ms))
             end : M nat) = mret N) as ->.
    { destruct Ms; [|done]. inversion Hin. by subst. }
    subst N. rewrite run_bind, run_ret.
    rewrite run_bind, run_alloc. rewrite run_bind, Hmask.
    rewrite run_bind, Hloop. rewrite run_ret.
    by rewrite insert_app_r_alt, Nat.sub_diag by lia.
  - by destruct HoaR as [->|(k & -> & _)].
  - done.
  - intros k M i j Hk Hi Hj. pose proof (block_offset_le Ms k M Hk). fold N in H.
    rewrite Hget by lia.
    pose proof (block_entry_block Ms 0 k M i j Hk Hi Hj) as Hb. simpl in Hb.
    rewrite Hb.
    assert (has_shape (nrows M) (nrows M) M) as HM.
    { eapply Forall2_lookup_r in Hsq as (c & _ & [? _]); eauto. }
    by destruct (has_shape_get2 _ _ M i j HM Hi Hj) as [y ->].
  - intros i j Hi Hj Hout. rewrite Hget by done.
    rewrite (block_entry_outside Ms 0 i j); [by apply get2_full|].
    intros k M Hk. simpl. by apply Hout.
Qed.

Lemma concat_connect_spec_witness :
  let M1 := [[1; 2]; [3; 4]]%Q in
  let M2 := [[5]]%Q in
  let h := [ONd (Arr2 M1); ONd (Arr2 M2)] in
  ([0; 1] ≠ [] ∧ Forall2 (holds_square h) [0; 1] [M1; M2])
  ∧ ∃ o R,
      Correction.concat_connect [0; 1] (-1)%Q h = (Ok 2, h ++ [ONd o])
      ∧ data_of o = Some R
      ∧ get2 R 2 2 = Some 5%Q
      ∧ get2 R 0 2 = Some (-1)%Q.
Proof.
  intros M1 M2 h.
  assert ([0; 1] ≠ [] ∧ Forall2 (holds_square h) [0; 1] [M1; M2]) as [H1 H2].
  { split; [discriminate|].
    repeat constructor.
    - exists (Arr2 M1). split; [reflexivity|]. split; [|left; reflexivity].
      split; [reflexivity|repeat constructor].
    - exists (Arr2 M2). split; [reflexivity|]. split; [|left; reflexivity].
      split; [reflexivity|repeat constructor]. }
  split; [done|].
  destruct (concat_connect_spec h [0; 1] [M1; M2] (-1)%Q H1 H2)
    as (o & R & Hrun & Hdata & _ & Hblock & Hfill).
  exists o, R. split_and!; [exact Hrun|exact Hdata| |].
  - exact (Hblock 1 M2 0 0 eq_refl (le_n 1) (le_n 1)).
  - apply Hfill; [vm_compute; lia..|].
    intros [|[|k]] M Hk; [injection Hk as <-|injection Hk as <-|discriminate];
      vm_compute; lia.
Defined.

(** ** Inverting successful runs *)

Lemma bind_Ok_inv {A B} (m : M A) (f : A → M B) (h : list obj) b h' :
  (m ≫= f) h = (Ok b, h') → ∃ a h1, m h = (Ok a, h1) ∧ f a h1 = (Ok b, h').
Proof.
  rewrite run_bind. destruct (m h) as [[a|e] h1]; [eauto|discriminate].
Qed.

Lemma lift_Ok_inv {A} (o : outcome A) (h : list obj) a h' :
  lift o h = (Ok a, h') → o = Ok a ∧ h' = h.
Proof. by intros [= -> ->]. Qed.

Lemma ret_Ok_inv {A} (x : A) (h : list obj) a h' :
  (mret x : M A) h = (Ok a, h') → a = x ∧ h' = h.
Proof. by intros [= -> ->]. Qed.

Lemma load_Ok_inv l (h : list obj) o h' :
  load l h = (Ok o, h') → h !! l = Some o ∧ h' = h.
Proof. unfold load. destruct (h !! l); by intros [= -> ->]. Qed.

Lemma assert_Ok_inv b (h : list obj) u h' :
  assert_ b h = (Ok u, h') → b = true ∧ h' = h.
Proof. destruct b; by intros [= <-]. Qed.

Lemma alloc_Ok_inv o (h : list obj) l h' :
  alloc o h = (Ok l, h') → l = length h ∧ h' = h ++ [o].
Proof. by intros [= <- <-]. Qed.

Lemma update_Ok_inv l o (h : list obj) u h' :
  update l o h = (Ok u, h') → h' = <[l := o]> h.
Proof. by intros [= <-]. Qed.

Lemma for_each_Ok_inv {A} (I : list obj → Prop) (xs : list A) (body : A → M ()) :
  (∀ x h u h', I h → body x h = (Ok u, h') → I h') →
  ∀ h u h', I h → for_each xs body h = (Ok u, h') → I h'.
Proof.
  intros Hbody. induction xs as [|x xs IH]; intros h u h' Hi Hrun; simpl in Hrun.
  - by apply ret_Ok_inv in Hrun as [_ ->].
  - apply bind_Ok_inv in Hrun as (u1 & h1 & Hx & Hrest). eauto.
Qed.

Lemma traverse_length {A B} (f : A → outcome B) (l : list A) r :
  traverse f l = Ok r → length r = length l.
Proof.
  revert r. induction l as [|a l IH]; intros r; simpl.
  - by intros [= <-].
  - destruct (f a) as [b|]; [|done]. simpl.
    destruct (traverse f l) as [bs|]; [|done]. simpl.
    intros [= <-]. simpl. f_equal. by apply IH.
Qed.

(** ** C1: [remove_site_contact] *)

Lemma has_shape_assign_at {A} r c (m : list (list A)) idx x :
  has_shape r c m → has_shape r c (assign_at m idx x).
Proof.
  revert m. unfold assign_at. induction idx as [|p idx IH]; intros m Hs; [done|].
  simpl. apply IH. by apply has_shape_set2.
Qed.

Lemma get2_assign_at {A} (m : list (list A)) idx x i j :
  get2 (assign_at m idx x) i j =
    if decide ((i, j) ∈ idx) then (λ _, x) <$> get2 m i j else get2 m i j.
Proof.
  revert m. unfold assign_at. induction idx as [|[a b] idx IH]; intros m.
  - rewrite decide_False; [done|]. apply not_elem_of_nil.
  - simpl. rewrite IH, get2_set2. simpl.
    destruct (decide ((i, j) ∈ (a, b) :: idx)) as [Hin'|Hin'];
      destruct (decide ((i, j) ∈ idx)) as [Hin|Hin];
      destruct (decide (a = i ∧ b = j)) as [[-> ->]|Hne]; try done.
    + by destruct (get2 m i j).
    + apply elem_of_cons in Hin' as [?|?]; simplify_eq; tauto.
    + destruct Hin'. by right.
    + destruct Hin'. by right.
    + destruct Hin'. by left.
Qed.

Lemma elem_of_diag_indices n i : i < n → (i, i) ∈ np_c_ (diag_indices n).
Proof.
  intros Hi. unfold np_c_, diag_indices. simpl.
  apply list_elem_of_lookup. exists i. apply lookup_zip_Some.
  split; apply lookup_seq; lia.
Qed.

Lemma get2_assign_diag n (m : list (list bool)) i :
  has_shape n n m → i < n →
  get2 (assign_at m (np_c_ (diag_indices n)) true) i i = Some true.
Proof.
  intros Hs Hi. rewrite get2_assign_at, decide_True by by apply elem_of_diag_indices.
  by destruct (has_shape_get2 n n m i i Hs Hi Hi) as [x ->].
Qed.

Lemma has_shape_set_row_where n (m : list (list bool)) i to_remove :
  has_shape n n m → length to_remove = n →
  has_shape n n (Correction.set_row_where m i to_remove).
Proof.
  intros Hs Hlen. pose proof Hs as [Hr Hc]. unfold Correction.set_row_where.
  split; [by rewrite length_alter|].
  apply Forall_forall. intros row (k & Hk)%list_elem_of_lookup_1.
  rewrite list_lookup_alter in Hk. destruct (decide (i = k)) as [<-|Hne].
  - destruct (m !! i) as [row'|] eqn:Hrow; [|done]. injection Hk as <-.
    rewrite length_zip_with.
    destruct (has_shape_lookup _ _ _ _ _ Hs Hrow) as [_ ->]. lia.
  - eapply has_shape_lookup; eauto.
Qed.

Lemma has_shape_fmap2 {A B} (f : A → B) r c (m : list (list A)) :
  has_shape r c m → has_shape r c (fmap (M := list) f <$> m).
Proof.
  intros Hs. pose proof Hs as [Hr Hc]. split; [by rewrite length_fmap|].
  apply Forall_forall. intros row (row' & -> & Hin)%list_elem_of_fmap.
  rewrite length_fmap. rewrite Forall_forall in Hc. by apply Hc.
Qed.

Lemma rows_equal_length r next to_remove :
  Correction.rows_equal r next = Ok to_remove → length to_remove = length r.
Proof.
  unfold Correction.rows_equal. destruct r as [|row r]; [by intros [= <-]|].
  destruct (ncols (row :: r) =? length next); [|done].
  intros [= <-]. simpl. f_equal. apply length_fmap.
Qed.

Lemma np_asarray_Ok r r' : Correction.np_asarray r = Ok r' → r' = r.
Proof. unfold Correction.np_asarray. by destruct (forallb _ r); intros [= <-]. Qed.

(** Peels the first step off a successful run. *)
Tactic Notation "bind_inv" hyp(H) "as" ident(a) ident(h1) ident(Hs) :=
  apply bind_Ok_inv in H as (a & h1 & Hs & H).

Lemma modify_bool2_Ok_inv l f (h : list obj) u h' :
  Correction.modify_bool2 l f h = (Ok u, h') →
  ∃ m, h !! l = Some (ONd (BoolArr2 m)) ∧ h' = <[l := ONd (BoolArr2 (f m))]> h.
Proof.
  unfold Correction.modify_bool2. intros H. bind_inv H as o h1 Hl.
  apply load_Ok_inv in Hl as [Hl ->].
  destruct o as [[]| |]; try done.
  apply update_Ok_inv in H. eauto.
Qed.

Lemma remove_site_contact_ok (h : list obj) mat channels mode remove_lower symmetrical l h' :
  Correction.remove_site_contact mat channels mode remove_lower symmetrical h = (Ok l, h') →
  ∃ sel, h' !! l = Some (ONd (BoolArr2 sel))
       ∧ has_shape (length channels) (length channels) sel
       ∧ ∀ i, i < length channels → get2 sel i i = Some true.
Proof.
  unfold Correction.remove_site_contact. set (n := length channels). intros H.
  bind_inv H as omat h1 Hmat. apply load_Ok_inv in Hmat as [Hmat ->].
  bind_inv H as a h1 Ha. apply lift_Ok_inv in Ha as [Ha ->].
  bind_inv H as u1 h1 Hassert. apply assert_Ok_inv in Hassert as [Hassert ->].
  bind_inv H as u2 h1 Hmasked. assert (h1 = h) as ->.
  { destruct a; by (apply ret_Ok_inv in Hmasked as [_ ->]) || discriminate. }
  clear Hmasked.
  bind_inv H as select h1 Halloc. apply alloc_Ok_inv in Halloc as [-> ->].
  bind_inv H as r0 h1 Hparse. apply lift_Ok_inv in Hparse as [Hparse ->].
  bind_inv H as r h1 Hr. apply lift_Ok_inv in Hr as [Hr ->].
  apply np_asarray_Ok in Hr as ->.
  assert (length r0 = n) as Hlen by by eapply traverse_length.
  pose (I := λ hh : list obj, ∃ m, hh = h ++ [ONd (BoolArr2 m)] ∧ has_shape n n m).
  assert (∀ hh u hh' f, I hh → (∀ m, has_shape n n m → has_shape n n (f m)) →
            Correction.modify_bool2 (length h) f hh = (Ok u, hh') → I hh') as Hmod.
  { intros hh u hh' f (m & -> & Hm) Hf (m' & Hl' & ->)%modify_bool2_Ok_inv.
    rewrite lookup_app_0 in Hl'. injection Hl' as <-.
    exists (f m). rewrite insert_app_r_alt, Nat.sub_diag by lia. eauto. }
  bind_inv H as u3 h1 Hloop.
  assert (I h1) as Hi.
  { eapply for_each_Ok_inv; [|exists (full n n false); split; [done|apply has_shape_full]|exact Hloop].
    clear Hloop. intros [i k] hh u hh' Hhh Hbody.
    bind_inv Hbody as letter hx Hx. apply lift_Ok_inv in Hx as [_ ->].
    bind_inv Hbody as k1 hx Hx. apply lift_Ok_inv in Hx as [_ ->].
    bind_inv Hbody as k2 hx Hx. apply lift_Ok_inv in Hx as [_ ->].
    bind_inv Hbody as to_remove hx Hx.
    assert (hx = hh ∧ length to_remove = n) as [-> Hto].
    { destruct (is_literal mode "soft").
      - apply lift_Ok_inv in Hx as [Hre ->]. split; [done|].
        apply rows_equal_length in Hre. lia.
      - apply ret_Ok_inv in Hx as [-> ->]. split; [done|].
        by rewrite length_insert, length_fmap. }
    eapply Hmod; [done| |exact Hbody].
    intros m Hm. by apply has_shape_set_row_where. }
  clear Hloop.
  bind_inv H as u4 h2 Htril.
  assert (I h2) as Hi2.
  { eapply Hmod; [exact Hi| |exact Htril]. intros m Hm. by apply has_shape_assign_at. }
  clear Htril Hi.
  bind_inv H as select' h3 Hsym.
  assert (∃ m hb, h3 = hb ++ [ONd (BoolArr2 m)] ∧ select' = length hb ∧ has_shape n n m)
    as (m & hb & -> & -> & Hm).
  { destruct Hi2 as (m & -> & Hm). destruct symmetrical.
    - bind_inv Hsym as o hx Hx. apply load_Ok_inv in Hx as [Hl ->].
      rewrite lookup_app_0 in Hl. injection Hl as <-.
      bind_inv Hsym as as_int hx Hx. apply alloc_Ok_inv in Hx as [-> ->].
      bind_inv Hsym as s hx Hx.
      erewrite (symmetrize_run _ _ n) in Hx;
        [|by rewrite lookup_app_0|by apply has_shape_fmap2].
      injection Hx as <- <-.
      bind_inv Hsym as os hx Hx. apply load_Ok_inv in Hx as [Hl ->].
      rewrite lookup_app_0 in Hl. injection Hl as <-.
      bind_inv Hsym as a' hx Hx. apply lift_Ok_inv in Hx as [[= <-] ->].
      bind_inv Hsym as sm hx Hx. apply ret_Ok_inv in Hx as [-> ->].
      apply alloc_Ok_inv in Hsym as [-> ->].
      eexists _, _. split_and!; [done..|].
      apply has_shape_fmap2, has_shape_symmetrize. by apply has_shape_fmap2.
    - apply ret_Ok_inv in Hsym as [-> ->]. eauto. }
  clear Hsym.
  bind_inv H as u5 h4 Hdiag. apply modify_bool2_Ok_inv in Hdiag as (m' & Hl' & ->).
  rewrite lookup_app_0 in Hl'. injection Hl' as <-.
  apply ret_Ok_inv in H as [-> ->].
  eexists. rewrite insert_app_r_alt, Nat.sub_diag by lia. split_and!.
  - by rewrite lookup_app_0.
  - by apply has_shape_assign_at.
  - intros i Hi. by apply get2_assign_diag.
Qed.

Lemma remove_site_contact_one_digit_group (h : list obj) mat mode remove_lower
    symmetrical l h' :
  Correction.remove_site_contact mat ["A1"; "A2"; "B1"] mode remove_lower symmetrical h
  ≠ (Ok l, h').
Proof.
  unfold Correction.remove_site_contact. intros H.
  bind_inv H as omat h1 Hmat. apply load_Ok_inv in Hmat as [Hmat ->].
  bind_inv H as a h1 Ha. apply lift_Ok_inv in Ha as [Ha ->].
  bind_inv H as u1 h1 Hassert. apply assert_Ok_inv in Hassert as [Hassert ->].
  bind_inv H as u2 h1 Hmasked. clear Hmasked.
  bind_inv H as select h2 Halloc. clear Halloc.
  bind_inv H as r0 h3 Hparse. apply lift_Ok_inv in Hparse as [Hparse ->].
  vm_compute in Hparse. injection Hparse as <-.
  bind_inv H as r h3 Hr. apply lift_Ok_inv in Hr as [Hr ->].
  vm_compute in Hr. injection Hr as <-.
  bind_inv H as u3 h3 Hloop. clear H.
  unfold enumerate in Hloop. cbn [length seq zip zip_with for_each] in Hloop.
  bind_inv Hloop as u4 h4 Hbody. clear Hloop.
  bind_inv Hbody as letter h5 Hx. apply lift_Ok_inv in Hx as [_ ->].
  bind_inv Hbody as k1 h5 Hx. apply lift_Ok_inv in Hx as [_ ->].
  bind_inv Hbody as k2 h5 Hx. apply lift_Ok_inv in Hx as [Hx _].
  discriminate.
Qed.

(** The claim fails on the code: for the channel list of the claim no mask is
    returned in either mode; the call raises [IndexError] when it reads the
    second digit group of the first label. *)
Lemma remove_site_contact_counterexample :
  let h := [ONd (Arr2 (full 3 3 0%Q))] in
  Correction.remove_site_contact 0 ["A1"; "A2"; "B1"] (literal "soft") false false h
    = (Raise IndexError, h ++ [ONd (BoolArr2 (full 3 3 false))])
  ∧ Correction.remove_site_contact 0 ["A1"; "A2"; "B1"] (literal "hard") false false h
    = (Raise IndexError, h ++ [ONd (BoolArr2 (full 3 3 false))]).
Proof. split; vm_compute; reflexivity. Qed.

(** C1, as amended.  For the channel list ["A1", "A2", "B1"] no mask is
    returned in any mode: every label must carry two digit groups.  For the
    labels ["A1-A2", "A2-A3", "B1-B2"], in mode 'soft' index 0 marks index 1
    as excluded, since (A, 2, 3) = (A, 1+1, 2+1), and not index 2; in mode
    'hard' index 0 excludes exactly the other channels of letter prefix 'A',
    index 1 (both with the lower triangle kept out of the mask, the default,
    and whichever object the string [mode] is); and the diagonal entries of every returned mask are True, whatever the
    mode and the other options. *)
Theorem remove_site_contact_spec :
  (∀ (h : store) mat mode remove_lower symmetrical l h',
     Correction.remove_site_contact mat ["A1"; "A2"; "B1"] mode remove_lower
       symmetrical h ≠ (Ok l, h'))
  ∧ (∀ mode symmetrical,
       chars mode = "soft" ∨ chars mode = "hard" →
       ∃ l h' sel,
         Correction.remove_site_contact 0 ["A1-A2"; "A2-A3"; "B1-B2"] mode
           false symmetrical [ONd (Arr2 (full 3 3 0%Q))] = (Ok l, h')
         ∧ h' !! l = Some (ONd (BoolArr2 sel))
         ∧ sel !! 0 = Some [true; true; false])
  ∧ (∀ (h : store) mat channels mode remove_lower symmetrical l h',
       Correction.remove_site_contact mat channels mode remove_lower symmetrical h
         = (Ok l, h') →
       ∃ sel, h' !! l = Some (ONd (BoolArr2 sel))
            ∧ has_shape (length channels) (length channels) sel
            ∧ ∀ i, i < length channels → get2 sel i i = Some true).
Proof.
  split_and!.
  - apply remove_site_contact_one_digit_group.
  - intros [mode is_interned] symmetrical [Hmode | Hmode];
      simpl in Hmode; subst mode;
      destruct is_interned, symmetrical; vm_compute;
      eexists _, _, _; split_and!; reflexivity.
  - apply remove_site_contact_ok.
Qed.

Lemma remove_site_contact_spec_witness :
  let h := [ONd (Arr2 (full 3 3 0%Q))] in
  let sel := [[true; true; false]; [false; true; false]; [false; false; true]] in
  (chars (literal "soft") = "soft" ∨ chars (literal "soft") = "hard")
  ∧ Correction.remove_site_contact 0 ["A1-A2"; "A2-A3"; "B1-B2"] (literal "soft") false false h
    = (Ok 1, h ++ [ONd (BoolArr2 sel)])
  ∧ ∃ sel', (h ++ [ONd (BoolArr2 sel)]) !! 1 = Some (ONd (BoolArr2 sel'))
          ∧ get2 sel' 2 2 = Some true.
Proof.
  intros h sel.
  assert (Correction.remove_site_contact 0 ["A1-A2"; "A2-A3"; "B1-B2"] (literal "soft") false false h
    = (Ok 1, h ++ [ONd (BoolArr2 sel)])) as Hrun by (vm_compute; reflexivity).
  destruct remove_site_contact_spec as (_ & _ & Hdiag).
  destruct (Hdiag h 0 ["A1-A2"; "A2-A3"; "B1-B2"] (literal "soft") false false 1 _ Hrun)
    as (sel' & Hl & _ & Hd).
  split; [by left|]. split; [exact Hrun|].
  exists sel'. split; [exact Hl|]. apply Hd. simpl. lia.
Defined.

(** ** C2: [anat_based_reorder] *)

#[local] Instance cell_leb_refl : Reflexive (λ a b, Is_true (Correction.cell_leb a b)).
Proof.
  intros [s|q]; simpl.
  - pose proof (reflexivity (R := String.le) s) as H. exact H.
  - apply Is_true_true, Qle_bool_iff, Qle_refl.
Qed.

#[local] Instance cell_leb_trans : Transitive (λ a b, Is_true (Correction.cell_leb a b)).
Proof.
  intros [s1|q1] [s2|q2] [s3|q3]; simpl; try done.
  - intros H1 H2. exact (transitivity (R := String.le) H1 H2).
  - intros H1%Is_true_true%Qle_bool_iff H2%Is_true_true%Qle_bool_iff.
    apply Is_true_true, Qle_bool_iff. by eapply Qle_trans.
Qed.

#[local] Instance cell_leb_total : Total (λ a b, Is_true (Correction.cell_leb a b)).
Proof.
  intros [s1|q1] [s2|q2]; simpl; try (by left); try (by right).
  - apply (total String.le).
  - destruct (Qlt_le_dec q1 q2) as [H|H].
    + left. by apply Is_true_true, Qle_bool_iff, Qlt_le_weak.
    + right. by apply Is_true_true, Qle_bool_iff.
Qed.

Lemma cell_eqb_leb a b :
  Correction.cell_eqb a b = true
  ↔ Correction.cell_leb a b = true ∧ Correction.cell_leb b a = true.
Proof.
  destruct a as [s|p], b as [t|q]; simpl; try (split; [done|intros []; done]).
  - rewrite String.eqb_eq. split.
    + intros ->. split; apply Is_true_true, (reflexivity (R := String.le)).
    + intros [H1 H2]. by apply String.leb_antisym.
  - rewrite Qeq_bool_iff, !Qle_bool_iff. split.
    + intros ->. split; apply Qle_refl.
    + intros [H1 H2]. by apply Qle_antisym.
Qed.

Lemma cell_eqb_sym a b : Correction.cell_eqb a b = Correction.cell_eqb b a.
Proof.
  destruct a, b; simpl; try done.
  - apply String.eqb_sym.
  - apply Qeq_bool_comm.
Qed.

Lemma cell_eqb_refl a : Correction.cell_eqb a a = true.
Proof. destruct a; simpl; [apply String.eqb_refl|apply Qeq_bool_refl]. Qed.

Lemma StronglySorted_sublist {A} (R : relation A) (k l : list A) :
  k `sublist_of` l → StronglySorted R l → StronglySorted R k.
Proof.
  induction 1 as [|x k l Hkl IH|x k l Hkl IH]; intros Hl; [done| |].
  - apply StronglySorted_cons in Hl as [Hx Hl].
    apply StronglySorted_cons. split; [|by apply IH].
    rewrite Forall_forall in Hx |- *. intros y Hy. apply Hx.
    by eapply elem_of_sublist.
  - apply StronglySorted_cons in Hl as [_ Hl]. by apply IH.
Qed.

Lemma StronglySorted_seq s n : StronglySorted lt (seq s n).
Proof.
  revert s. induction n as [|n IH]; intros s; simpl; [constructor|].
  apply StronglySorted_cons. split; [|apply IH].
  apply Forall_forall. intros y Hy%elem_of_seq. lia.
Qed.

Lemma StronglySorted_perm_sym {A} (R : relation A) `{!Symmetric R} (l l' : list A) :
  l ≡ₚ l' → StronglySorted R l → StronglySorted R l'.
Proof.
  induction 1 as [|x l l' Hp IH|x y l|l1 l2 l3 _ IH1 _ IH2]; intros Hl; [done|..].
  - apply StronglySorted_cons in Hl as [Hx Hl].
    apply StronglySorted_cons. split; [by rewrite <- Hp|by apply IH].
  - apply StronglySorted_cons in Hl as [Hy Hl].
    apply StronglySorted_cons in Hl as [Hx Hl].
    apply Forall_cons in Hy as [Hyx Hy].
    apply StronglySorted_cons. split; [|apply StronglySorted_cons; by split].
    apply Forall_cons. split; [by symmetry|done].
  - by apply IH2, IH1.
Qed.

Lemma elem_of_enumerate {A} (l : list A) i x :
  (i, x) ∈ enumerate l ↔ l !! i = Some x.
Proof.
  unfold enumerate. rewrite list_elem_of_lookup. split.
  - intros (k & Hk). apply lookup_zip_Some in Hk as [Hs Hx].
    apply lookup_seq in Hs as [-> _]. done.
  - intros Hx. exists i. apply lookup_zip_Some. split; [|done].
    apply lookup_seq. split; [done|]. by eapply lookup_lt_Some.
Qed.

Lemma elem_of_positions k column i :
  i ∈ Correction.positions k column
  ↔ ∃ x, column !! i = Some x ∧ Correction.cell_eqb x k = true.
Proof.
  unfold Correction.positions. rewrite list_elem_of_fmap. split.
  - intros ([j x] & -> & Hin). apply list_elem_of_filter in Hin as [Hp Hin].
    apply elem_of_enumerate in Hin. exists x. split; [done|]. by apply Is_true_true.
  - intros (x & Hx & Heq). exists (i, x). split; [done|].
    apply list_elem_of_filter. split; [by apply Is_true_true|].
    by apply elem_of_enumerate.
Qed.

Lemma positions_sorted k column : StronglySorted lt (Correction.positions k column).
Proof.
  unfold Correction.positions.
  apply (StronglySorted_sublist _ _ (enumerate column).*1).
  - apply fmap_sublist, sublist_filter.
  - unfold enumerate. rewrite fst_zip by (rewrite length_seq; lia).
    apply StronglySorted_seq.
Qed.

Lemma cell_eqb_trans a b c :
  Correction.cell_eqb a b = true → Correction.cell_eqb b c = true →
  Correction.cell_eqb a c = true.
Proof.
  destruct a, b, c; simpl; try done.
  - rewrite !String.eqb_eq. congruence.
  - apply Qeq_bool_trans.
Qed.

Lemma elem_of_uniques l k : k ∈ Correction.uniques l → k ∈ l.
Proof.
  induction l as [|x l IH]; simpl; [done|].
  intros [->|Hin]%elem_of_cons; [by left|].
  apply list_elem_of_filter in Hin as [_ Hin]. right. by apply IH.
Qed.

Lemma uniques_cover l x :
  x ∈ l → ∃ k, k ∈ Correction.uniques l ∧ Correction.cell_eqb x k = true.
Proof.
  induction l as [|y l IH]; simpl; [by intros ?%elem_of_nil|].
  intros [->|Hin]%elem_of_cons.
  - exists y. split; [by left|apply cell_eqb_refl].
  - destruct (IH Hin) as (k & Hk & Heq).
    destruct (Correction.cell_eqb k y) eqn:Hky.
    + exists y. split; [by left|]. by eapply cell_eqb_trans.
    + exists k. split; [|done]. right. apply list_elem_of_filter. split; [|done].
      rewrite Hky. by intros [].
Qed.

Lemma uniques_distinct l :
  StronglySorted (λ a b, Correction.cell_eqb a b = false) (Correction.uniques l).
Proof.
  induction l as [|x l IH]; simpl; [constructor|].
  apply StronglySorted_cons. split.
  - apply Forall_forall. intros y [Hp _]%list_elem_of_filter.
    rewrite cell_eqb_sym. by destruct (Correction.cell_eqb y x); [destruct Hp|].
  - eapply StronglySorted_sublist; [apply sublist_filter|done].
Qed.

(** The keys of [groupby(col)] with its default [sort=True]: strictly
    ascending, and the values of the column. *)
Lemma sorted_keys column :
  let keys := merge_sort (λ a b, Is_true (Correction.cell_leb a b))
                (Correction.uniques column) in
  StronglySorted cell_lt keys
  ∧ (∀ k, k ∈ keys → k ∈ column)
  ∧ (∀ x, x ∈ column → ∃ k, k ∈ keys ∧ Correction.cell_eqb x k = true).
Proof.
  intros keys.
  assert (keys ≡ₚ Correction.uniques column) as Hperm by apply merge_sort_Permutation.
  split_and!.
  - assert (StronglySorted (λ a b, Is_true (Correction.cell_leb a b)) keys) as H1.
    { apply StronglySorted_merge_sort; apply _. }
    assert (StronglySorted (λ a b, Correction.cell_eqb a b = false) keys) as H2.
    { assert (Symmetric (λ a b, Correction.cell_eqb a b = false)) as Hsym.
      { intros a b. by rewrite cell_eqb_sym. }
      apply (StronglySorted_perm_sym _ (Correction.uniques column));
        [by symmetry|apply uniques_distinct]. }
    clear Hperm. induction keys as [|k keys IH]; [constructor|].
    apply StronglySorted_cons in H1 as [H1 H1'], H2 as [H2 H2'].
    apply StronglySorted_cons. split; [|by apply IH].
    rewrite Forall_forall in H1, H2 |- *. intros y Hy. split; [|by apply H2].
    by apply Is_true_true, H1.
  - intros k Hk. rewrite Hperm in Hk. by apply elem_of_uniques.
  - intros x Hx. destruct (uniques_cover _ _ Hx) as (k & Hk & Heq).
    exists k. by rewrite Hperm.
Qed.

(** The failing input: with the values "b", "a" in the grouping column the
    returned index array is [1, 0], the groups in ascending order of their
    values, where the order of first appearance, which the specification
    states and [anat_based_mean] follows, gives [0, 1]. *)
Lemma anat_based_reorder_counterexample :
  let d := mkDataFrame 2 [("roi", [CStr "b"; CStr "a"])] in
  let h := [ONd (Arr2 (full 2 2 0%Q)); OFrame d] in
  ∃ c_r labels index h',
    Correction.anat_based_reorder 0 1 "roi" "upper" h = (Ok (c_r, labels, index), h')
    ∧ h' !! index = Some (ONd (IntArr1 [1; 0]))
    ∧ index_by_first_appearance (Correction.column d "roi") = [0; 1].
Proof. vm_compute. eexists _, _, _, _. split_and!; reflexivity. Qed.

(** C2, on the code.  [anat_based_reorder] calls [df.groupby(col)] without
    the [sort=False] that [anat_based_mean] passes for the same table, so
    the groups do not come in the order of first appearance.  For every 2-D
    connectivity array [c] and annotation table containing the grouping
    column, it groups the electrode indices by the values of that column,
    the groups in ascending order of their values ([groupby] sorts its keys
    by default), each group listing its row numbers in ascending order; the
    returned index array is the concatenation of the per-group index lists
    in that order. *)
Theorem anat_based_reorder_index (h : store) (c df : loc) (col part : string)
    (d : DataFrame) (c_r : loc) (labels : list string) (index : loc) (h' : store) :
  h !! df = Some (OFrame d) →
  Correction.anat_based_reorder c df col part h = (Ok (c_r, labels, index), h') →
  ∃ keys,
    h' !! index
      = Some (ONd (IntArr1
          (concat ((λ k, Correction.positions k (Correction.column d col)) <$> keys))))
    ∧ StronglySorted cell_lt keys
    ∧ (∀ k, k ∈ keys → k ∈ Correction.column d col)
    ∧ (∀ x, x ∈ Correction.column d col →
         ∃ k, k ∈ keys ∧ Correction.cell_eqb x k = true)
    ∧ (∀ k i, i ∈ Correction.positions k (Correction.column d col)
         ↔ ∃ x, Correction.column d col !! i = Some x ∧ Correction.cell_eqb x k = true)
    ∧ (∀ k, StronglySorted lt (Correction.positions k (Correction.column d col))).
Proof.
  intros Hd H. unfold Correction.anat_based_reorder in H.
  bind_inv H as oc h1 Hc. apply load_Ok_inv in Hc as [Hc ->].
  bind_inv H as u1 h1 Ha1. apply assert_Ok_inv in Ha1 as [_ ->].
  bind_inv H as odf h1 Hdf. apply load_Ok_inv in Hdf as [Hdf ->].
  rewrite Hd in Hdf. injection Hdf as <-.
  bind_inv H as d' h1 Hd'. apply ret_Ok_inv in Hd' as [-> ->].
  bind_inv H as u2 h1 Ha2. apply assert_Ok_inv in Ha2 as [_ ->].
  bind_inv H as a h1 Ha. apply lift_Ok_inv in Ha as [_ ->].
  bind_inv H as idx h1 Hidx. apply lift_Ok_inv in Hidx as [Hidx ->].
  bind_inv H as index0 h1 Halloc. apply alloc_Ok_inv in Halloc as [-> ->].
  set (keys := merge_sort (λ a b, Is_true (Correction.cell_leb a b))
                 (Correction.uniques (Correction.column d col))).
  assert (idx = concat ((λ k, Correction.positions k (Correction.column d col)) <$> keys))
    as ->.
  { unfold Correction.np_concatenate, Correction.groupby_groups in Hidx.
    fold keys in Hidx. rewrite <- list_fmap_compose in Hidx.
    by destruct (_ <$> keys); [|injection Hidx as <-]. }
  lazymatch type of H with
  | ?t _ = _ =>
      assert (hoare [] (S (length h)) t (λ r, r.2 = length h)) as Htail by hoare_go
  end.
  eapply Htail in H as (_ & Hsame & Hq); [|rewrite length_app; simpl; lia].
  specialize (Hq _ eq_refl). simpl in Hq. subst index.
  exists keys. destruct (sorted_keys (Correction.column d col)) as (Hs & Hk1 & Hk2).
  split_and!;
    [|done..|intros k i; apply elem_of_positions|intros k; apply positions_sorted].
  rewrite Hsame; [by rewrite lookup_app_0|lia|apply not_elem_of_nil].
Qed.

Lemma anat_based_reorder_index_witness :
  let d := mkDataFrame 3 [("roi", [CStr "b"; CStr "a"; CStr "b"])] in
  let h := [ONd (Arr2 (full 3 3 0%Q)); OFrame d] in
  let h' := h ++ [ONd (IntArr1 [1; 0; 2]); ONd (IntArr1 [0; 0; 1]);
                  ONd (IntArr1 [1; 2; 2]); ONd (Arr2 (full 3 3 0%Q))] in
  (h !! 1 = Some (OFrame d)
   ∧ Correction.anat_based_reorder 0 1 "roi" "upper" h = (Ok (5, ["roi"], 2), h'))
  ∧ ∃ keys, h' !! 2 = Some (ONd (IntArr1
        (concat ((λ k, Correction.positions k (Correction.column d "roi")) <$> keys))))
      ∧ StronglySorted cell_lt keys.
Proof.
  intros d h h'.
  assert (h !! 1 = Some (OFrame d)) as H1 by reflexivity.
  assert (Correction.anat_based_reorder 0 1 "roi" "upper" h = (Ok (5, ["roi"], 2), h'))
    as H2 by (vm_compute; reflexivity).
  split; [done|].
  destruct (anat_based_reorder_index h 0 1 "roi" "upper" d 5 ["roi"] 2 h' H1 H2)
    as (keys & Hidx & Hsorted & _).
  exists keys. split; [exact Hidx|exact Hsorted].
Defined.

(** ** C5: [covgc_time] *)

Lemma coerced_abs_finite_nonneg np_abs z :
  SFltb (np_abs z) Stgc.fzero = false → finite_nonneg (coerced_abs np_abs z).
Proof.
  unfold coerced_abs. destruct (np_abs z) as [s|s| |s m e]; simpl; try done.
  by destruct s.
Qed.

Section covgc.
Context (det_cov : list (list Q) → outcome spec_float)
        (log : spec_float → spec_float * spec_float)
        (cadd csub : spec_float * spec_float → spec_float * spec_float
                     → spec_float * spec_float)
        (np_abs : spec_float * spec_float → spec_float).

Lemma covgc_time_result (h : list obj) x dt lag t0 gc pairs h' :
  Stgc.covgc_time det_cov log cadd csub np_abs x dt lag t0 h = (Ok (gc, pairs), h') →
  ∃ m, h' !! gc = Some (ONd (FloatArr2 (fmap (M := list) (coerced_abs np_abs) <$> m))).
Proof.
  unfold Stgc.covgc_time. intros H.
  bind_inv H as ox h1 Hx. apply load_Ok_inv in Hx as [Hx ->].
  bind_inv H as a h1 Ha. apply lift_Ok_inv in Ha as [Ha ->].
  bind_inv H as n_so h1 Hn. assert (h1 = h) as ->.
  { destruct (shape a) as [|? [|? [|]]]; try done. by apply ret_Ok_inv in Hn as [_ ->]. }
  clear Hn.
  bind_inv H as lp h1 Hlp. clear Hlp.
  bind_inv H as lgc h2 Hgc. clear Hgc.
  bind_inv H as u h3 Hloop. clear Hloop.
  bind_inv H as o h4 Ho. apply load_Ok_inv in Ho as [_ ->].
  bind_inv H as m h4 Hm. clear Hm.
  bind_inv H as gc_real h5 Halloc. apply alloc_Ok_inv in Halloc as [-> ->].
  bind_inv H as u' h6 Hco. apply ret_Ok_inv in H as [[= -> ->] ->].
  exists m. simpl in Hco.
  bind_inv Hco as u1 h7 H1.
  bind_inv H1 as o1 h8 Hl. apply load_Ok_inv in Hl as [Hl ->].
  rewrite lookup_app_0 in Hl. injection Hl as <-.
  apply update_Ok_inv in H1 as ->.
  rewrite insert_app_r_alt, Nat.sub_diag in Hco by lia. simpl in Hco.
  bind_inv Hco as u2 h9 H2.
  bind_inv H2 as o2 h10 Hl. apply load_Ok_inv in Hl as [Hl ->].
  rewrite lookup_app_0 in Hl. injection Hl as <-.
  apply update_Ok_inv in H2 as ->.
  apply ret_Ok_inv in Hco as [_ ->].
  rewrite insert_app_r_alt, Nat.sub_diag by lia. simpl.
  rewrite lookup_app_0. simpl. do 3 f_equal.
  rewrite <- !list_fmap_compose. apply list_fmap_ext. intros _ row _. simpl.
  rewrite <- !list_fmap_compose. apply list_fmap_ext. intros _ z _. simpl.
  unfold coerced_abs. by destruct (np_abs z).
Qed.
End covgc.

(** C5.  Whenever [covgc_time] returns, every entry of the returned [gc]
    array is the magnitude [np.abs] of a complex causality value, with zero
    in place of an infinite or NaN magnitude; so, [np.abs] never being below
    zero, every entry is a finite real number that is not negative. *)
Theorem covgc_time_finite
    (det_cov : list (list Q) → outcome spec_float)
    (log : spec_float → spec_float * spec_float)
    (cadd csub : spec_float * spec_float → spec_float * spec_float
                 → spec_float * spec_float)
    (np_abs : spec_float * spec_float → spec_float)
    (h : store) (x : loc) (dt lag t0 : nat) (gc pairs : loc) (h' : store) :
  (∀ z, SFltb (np_abs z) Stgc.fzero = false) →
  Stgc.covgc_time det_cov log cadd csub np_abs x dt lag t0 h = (Ok (gc, pairs), h') →
  ∃ m g,
    h' !! gc = Some (ONd (FloatArr2 g))
    ∧ g = (fmap (M := list) (coerced_abs np_abs) <$> m)
    ∧ ∀ row v, row ∈ g → v ∈ row → finite_nonneg v.
Proof.
  intros Habs Hrun.
  destruct (covgc_time_result _ _ _ _ _ _ _ _ _ _ _ _ _ Hrun) as (m & Hgc).
  eexists m, _. split_and!; [exact Hgc|done|].
  intros row v (row' & -> & _)%list_elem_of_fmap (z & -> & _)%list_elem_of_fmap.
  by apply coerced_abs_finite_nonneg.
Qed.

Lemma covgc_time_finite_witness :
  let det_cov := λ _ : list (list Q), Ok (S754_finite false 1 0) in
  let log := λ v : spec_float, (v, Stgc.fzero) in
  let cadd := λ a b : spec_float * spec_float, a in
  let csub := λ a b : spec_float * spec_float, (S754_infinity true, Stgc.fzero) in
  let np_abs := λ z : spec_float * spec_float, SFabs z.1 in
  let h := [ONd (Arr2 [[1; 2; 3; 4]; [2; 3; 4; 5]]%Q)] in
  let h' := h ++ [ONd (IntArr2 [(0, 1)]);
                  ONd (CplxArr2 [[(S754_infinity true, Stgc.fzero);
                                  (S754_infinity true, Stgc.fzero);
                                  (S754_infinity true, Stgc.fzero)]]);
                  ONd (FloatArr2 [[Stgc.fzero; Stgc.fzero; Stgc.fzero]])] in
  ((∀ z, SFltb (np_abs z) Stgc.fzero = false)
   ∧ Stgc.covgc_time det_cov log cadd csub np_abs 0 2 1 3 h = (Ok (3, 1), h'))
  ∧ ∃ g, h' !! 3 = Some (ONd (FloatArr2 g))
       ∧ ∀ row v, row ∈ g → v ∈ row → finite_nonneg v.
Proof.
  intros det_cov log cadd csub np_abs h h'.
  assert (∀ z, SFltb (np_abs z) Stgc.fzero = false) as H1.
  { intros [[s|s| |s m e] im]; reflexivity. }
  assert (Stgc.covgc_time det_cov log cadd csub np_abs 0 2 1 3 h = (Ok (3, 1), h')) as H2.
  { vm_compute. reflexivity. }
  split; [done|].
  destruct (covgc_time_finite det_cov log cadd csub np_abs h 0 2 1 3 3 1 h' H1 H2)
    as (m & g & Hg & _ & Hfin).
  exists g. split; [exact Hg|exact Hfin].
Defined.

(** ** C9: [classify.stat] *)

(** C9, on the code.  The method ['foo_rnd'] is none of the four methods,
    yet [stat] does not raise its [ValueError]: the test
    [method.lower().find('_rnd') + 1] lets it into the permutation branch,
    where [_classifyPerm] matches no case and returns [None] for every
    feature; [stat] goes on to [perm2pval] with these. *)
Theorem stat_accepts_unknown_rnd_method
    (feature score pvalues : Type) (same_rows : bool) (binostatinv : pvalues)
    (checkXY : string → list feature)
    (scores_label_rnd scores_full_rnd scores_intra_rnd : feature → list score)
    (perm2pval : list (option (list score)) → outcome pvalues) :
  let stat := Classification.stat feature score pvalues same_rows binostatinv
                checkXY scores_label_rnd scores_full_rnd scores_intra_rnd perm2pval in
  let x := checkXY (if same_rows then "sf" else "mf") in
  ("foo_rnd" ∉ ["bino"; "label_rnd"; "full_rnd"; "intra_rnd"])
  ∧ (∀ k, Classification._classifyPerm feature score scores_label_rnd
            scores_full_rnd scores_intra_rnd k "foo_rnd" = None)
  ∧ stat "foo_rnd"
    = (pvalue ← perm2pval ((λ _, None) <$> x); Ok (pvalue, (λ _, None) <$> x))
  ∧ stat "LABEL_RND"
    = (pvalue ← perm2pval ((λ _, None) <$> x); Ok (pvalue, (λ _, None) <$> x)).
Proof.
  intros stat x. split_and!.
  - apply (bool_decide_unpack _). vm_compute. exact I.
  - done.
  - done.
  - done.
Qed.

(** For a method without ['_rnd'] in it, other than ['bino'], [stat] does
    raise the [ValueError]. *)
Lemma stat_rejects_other_methods
    (feature score pvalues : Type) (same_rows : bool) (binostatinv : pvalues)
    (checkXY : string → list feature)
    (scores_label_rnd scores_full_rnd scores_intra_rnd : feature → list score)
    (perm2pval : list (option (list score)) → outcome pvalues) (method : string) :
  method ≠ "bino" →
  Classification.find (Classification.lower method) "_rnd" = (-1)%Z →
  Classification.stat feature score pvalues same_rows binostatinv
    checkXY scores_label_rnd scores_full_rnd scores_intra_rnd perm2pval method
  = Raise ValueError.
Proof.
  intros Hm Hf. unfold Classification.stat.
  case_bool_decide; [done|]. rewrite Hf. done.
Qed.

(** ** C10 and C3: [anat_based_mean] *)

(** Without [xyz], [anat_based_mean] writes to [x] only. *)
Lemma hoare_anat_based_mean_None np_mean ma_mean pd_mean n x df col fill_with :
  hoare [x] n (Correction.anat_based_mean np_mean ma_mean pd_mean x df col fill_with None)
    (λ r, Forall (λ l, n ≤ l) (mean_locs r)).
Proof.
  unfold Correction.anat_based_mean. hoare_go.
Qed.

(** C10.  A call with an [xyz] that is not [None] and that, when [xyz] is
    inspected (after the means are taken), is not a numpy array or has a
    number of rows different from the number of rows of the table, returns
    nothing ([None]): it does all that the call without [xyz] does, raises no
    error and returns no aggregated result.  When [xyz] is another object
    than [x], it is enough that [xyz] is such before the call. *)
Theorem anat_based_mean_bad_xyz
    (np_mean : list Q → Q) (ma_mean : list Q → list bool → Q) (pd_mean : list Q → Q)
    (h : store) (x df : loc) (col : string)
    (fill_with : Q) (xyz : loc) (d : DataFrame) (con : loc) (labels : list cell)
    (h' : store) :
  h !! df = Some (OFrame d) →
  Correction.anat_based_mean np_mean ma_mean pd_mean x df col fill_with None h = (Ok (Correction.Ret2 con labels), h') →
  bad_xyz h' d xyz ∨ (xyz ≠ x ∧ bad_xyz h d xyz) →
  Correction.anat_based_mean np_mean ma_mean pd_mean x df col fill_with (Some xyz) h = (Ok Correction.RetNone, h').
Proof.
  intros Hd Hnone Hbad.
  assert (bad_xyz h' d xyz) as (o & Ho & Hkind).
  { destruct Hbad as [Hbad|[Hne (o & Ho & Hkind)]]; [done|].
    exists o. split; [|done].
    destruct (hoare_anat_based_mean_None np_mean ma_mean pd_mean (length h) x df col fill_with h _ h'
                (le_n _) Hnone) as (_ & Hsame & _).
    rewrite Hsame; [done|by eapply lookup_lt_Some|].
    rewrite list_elem_of_singleton. done. }
  clear Hbad. revert Hnone. unfold Correction.anat_based_mean. intros H.
  bind_inv H as ox h1 Hs1. rewrite run_bind, Hs1.
  bind_inv H as u1 h2 Hs2. rewrite run_bind, Hs2.
  bind_inv H as odf h3 Hs3. rewrite run_bind, Hs3.
  bind_inv H as d0 h4 Hs4. rewrite run_bind, Hs4.
  bind_inv H as u2 h5 Hs5. rewrite run_bind, Hs5.
  bind_inv H as is_masked h6 Hs6. rewrite run_bind, Hs6.
  bind_inv H as xc h7 Hs7. rewrite run_bind, Hs7.
  destruct xc as [x' con'].
  bind_inv H as u3 h8 Hs8. rewrite run_bind, Hs8.
  apply ret_Ok_inv in H as [[= -> ->] ->].
  assert (d0 = d) as ->.
  { apply load_Ok_inv in Hs1 as [_ ->]. apply assert_Ok_inv in Hs2 as [_ ->].
    apply load_Ok_inv in Hs3 as [Hdf ->]. rewrite Hd in Hdf. injection Hdf as <-.
    by apply ret_Ok_inv in Hs4 as [-> _]. }
  rewrite run_bind, (run_load _ _ _ Ho).
  destruct Hkind as [Hnot|(a & s0 & -> & Hshape & Hrows)].
  - by rewrite Hnot.
  - simpl. rewrite run_bind. rewrite Hshape. simpl.
    rewrite (proj2 (Nat.eqb_neq _ _)) by done. done.
Qed.

Lemma anat_based_mean_bad_xyz_witness :
  let d := mkDataFrame 2 [("roi", [CStr "b"; CStr "a"])] in
  let h := [ONd (Arr2 [[1; 2]; [3; 4]]%Q); OFrame d; OList [[1; 2; 3]]%Q] in
  ∃ con labels h',
    (h !! 1 = Some (OFrame d)
     ∧ Correction.anat_based_mean exact_mean exact_ma_mean exact_mean 0 1 "roi" 0%Q None h = (Ok (Correction.Ret2 con labels), h')
     ∧ (bad_xyz h' d 2 ∨ (2 ≠ 0 ∧ bad_xyz h d 2)))
    ∧ Correction.anat_based_mean exact_mean exact_ma_mean exact_mean 0 1 "roi" 0%Q (Some 2) h = (Ok Correction.RetNone, h').
Proof.
  intros d h.
  pose (res := Correction.anat_based_mean exact_mean exact_ma_mean exact_mean 0 1 "roi" 0%Q None h).
  assert (Correction.anat_based_mean exact_mean exact_ma_mean exact_mean 0 1 "roi" 0%Q None h = res) as Hres by reflexivity.
  vm_compute in res. subst res.
  assert (h !! 1 = Some (OFrame d)) as H1 by reflexivity.
  assert (2 ≠ 0 ∧ bad_xyz h d 2) as H3.
  { split; [discriminate|]. exists (OList [[1; 2; 3]]%Q). split; [reflexivity|].
    left. reflexivity. }
  eexists _, _, _. split; [split_and!; [exact H1|exact Hres|right; exact H3]|].
  exact (anat_based_mean_bad_xyz exact_mean exact_ma_mean exact_mean h 0 1 "roi" 0%Q 2 d _ _ _ H1 Hres (or_intror H3)).
Defined.

Lemma get2_fill_diagonal {A} (m : list (list A)) (z : A) i j :
  get2 (fill_diagonal m z) i j =
    if decide (i = j) then (λ _, z) <$> get2 m i j else get2 m i j.
Proof.
  unfold get2, fill_diagonal. rewrite list_lookup_imap.
  destruct (m !! i) as [row|]; simpl; [|by case_decide].
  destruct (decide (i = j)) as [<-|Hne].
  - destruct (row !! i) as [y|] eqn:Hy; simpl.
    + apply list_lookup_insert_eq. by eapply lookup_lt_Some.
    + rewrite list_insert_ge; [done|]. by apply lookup_ge_None.
  - by rewrite list_lookup_insert_ne.
Qed.

Lemma anat_based_mean_zeroes_diagonal np_mean ma_mean pd_mean (h : list obj) x df col fill_with xyz r h' A :
  h !! x = Some (ONd (Arr2 A)) →
  Correction.anat_based_mean np_mean ma_mean pd_mean x df col fill_with xyz h = (Ok r, h') →
  h' !! x = Some (ONd (Arr2 (fill_diagonal A 0%Q))).
Proof.
  intros Hx H. unfold Correction.anat_based_mean in H.
  bind_inv H as ox h1 Hs. apply load_Ok_inv in Hs as [Hox ->].
  rewrite Hx in Hox. injection Hox as <-.
  bind_inv H as u1 h1 Hs. apply assert_Ok_inv in Hs as [_ ->].
  bind_inv H as odf h1 Hs. apply load_Ok_inv in Hs as [Hdf ->].
  bind_inv H as d h1 Hs.
  destruct odf as [|d'|]; try done. apply ret_Ok_inv in Hs as [-> ->].
  bind_inv H as u2 h1 Hs. apply assert_Ok_inv in Hs as [_ ->].
  bind_inv H as is_masked h1 Hs.
  bind_inv Hs as u3 h2 Hu. apply update_Ok_inv in Hu as ->.
  apply ret_Ok_inv in Hs as [-> ->].
  assert (x ≠ df) as Hne by (intros ->; congruence).
  assert (x < length h) as Hlt by by eapply lookup_lt_Some.
  cbn iota in H.
  lazymatch type of H with
  | ?t _ = _ => assert (hoare [df] (length h) t (λ _, True)) as Htail by hoare_go
  end.
  eapply Htail in H as (_ & Hsame & _); [|by rewrite length_insert].
  rewrite Hsame; [by apply list_lookup_insert_eq|done|].
  rewrite list_elem_of_singleton. done.
Qed.

(** The claim fails on the code: [anat_based_mean] is not free of side
    effects; the diagonal of its argument [x] is zero after the call. *)
Lemma anat_based_mean_counterexample :
  let d := mkDataFrame 2 [("roi", [CStr "b"; CStr "a"])] in
  let h := [ONd (Arr2 [[1; 2]; [3; 4]]%Q); OFrame d] in
  (∃ r h', Correction.anat_based_mean exact_mean exact_ma_mean exact_mean 0 1 "roi" 0%Q None h = (Ok r, h')
        ∧ h' !! 0 = Some (ONd (Arr2 [[0; 2]; [3; 0]]%Q)))
  ∧ ¬ side_effect_free (Correction.anat_based_mean exact_mean exact_ma_mean exact_mean 0 1 "roi" 0%Q None) mean_locs.
Proof.
  intros d h.
  pose (res := Correction.anat_based_mean exact_mean exact_ma_mean exact_mean 0 1 "roi" 0%Q None h).
  assert (Correction.anat_based_mean exact_mean exact_ma_mean exact_mean 0 1 "roi" 0%Q None h = res) as Hres by reflexivity.
  vm_compute in res. subst res. split.
  - eexists _, _. split; [exact Hres|reflexivity].
  - intros Hfree. destruct (Hfree h _ _ Hres) as [Hsame _].
    specialize (Hsame 0 _ eq_refl). discriminate.
Qed.

(** ** C3 *)

Lemma side_effect_free_loc (m : M nat) :
  (∀ n, hoare [] n m (λ l, n ≤ l)) → side_effect_free m (λ l, [l]).
Proof.
  intros Hm. apply hoare_side_effect_free. intros n.
  eapply hoare_weaken; [apply Hm|]. intros l Hl. by repeat constructor.
Qed.

(** C3, as amended.  Every operation of the numerical modules other than
    [anat_based_mean] is free of side effects: after any call, returning or
    raising, every array and table of the store holds the values it held
    before, and the arrays returned are new objects.  [anat_based_mean]
    writes to its arguments: it sets the diagonal of [x] to zero in place (a
    plain [x] is otherwise unchanged), and it may write to the table [df]
    when [xyz] is given; every other object is unchanged, the table too when
    [xyz] is [None], and the arrays it returns are new objects. *)
Theorem numerical_modules_side_effects :
  (∀ n part as_array,
     side_effect_free (Correction.get_pairs n part as_array) pairs_locs)
  ∧ (∀ mat channels mode remove_lower symmetrical,
       side_effect_free
         (Correction.remove_site_contact mat channels mode remove_lower symmetrical)
         (λ l, [l]))
  ∧ (∀ c df col part,
       side_effect_free (Correction.anat_based_reorder c df col part)
         (λ r, [r.1.1; r.2]))
  ∧ (∀ connect part, side_effect_free (Correction.ravel_connect connect part) (λ l, [l]))
  ∧ (∀ connect n_sites part,
       side_effect_free (Correction.unravel_connect connect n_sites part) (λ l, [l]))
  ∧ (∀ arr, side_effect_free (Correction.symmetrize arr) (λ l, [l]))
  ∧ (∀ connect fill_with,
       side_effect_free (Correction.concat_connect connect fill_with) (λ l, [l]))
  ∧ (∀ det_cov log cadd csub np_abs x dt lag t0,
       side_effect_free (Stgc.covgc_time det_cov log cadd csub np_abs x dt lag t0)
         (λ r, [r.1; r.2]))
  ∧ (∀ np_mean ma_mean pd_mean x df col fill_with xyz (h : store) r h',
       Correction.anat_based_mean np_mean ma_mean pd_mean x df col fill_with xyz h = (r, h') →
       (∀ l o, h !! l = Some o → l ≠ x → l ≠ df → h' !! l = Some o)
       ∧ (xyz = None → ∀ l o, h !! l = Some o → l ≠ x → h' !! l = Some o)
       ∧ (∀ a l, r = Ok a → l ∈ mean_locs a → h !! l = None)
       ∧ (∀ a A, r = Ok a → h !! x = Some (ONd (Arr2 A)) →
            ∃ A', h' !! x = Some (ONd (Arr2 A'))
                ∧ ∀ i j, get2 A' i j =
                    if decide (i = j) then (λ _, 0%Q) <$> get2 A i j
                    else get2 A i j)).
Proof.
  split_and!.
  - intros. apply hoare_side_effect_free. intros. apply hoare_get_pairs.
  - intros. apply side_effect_free_loc. intros. apply hoare_remove_site_contact.
  - intros. apply hoare_side_effect_free. intros n.
    eapply hoare_weaken; [apply hoare_anat_based_reorder|].
    intros [[c_r labels] index] [? ?]. by repeat constructor.
  - intros. apply side_effect_free_loc. intros. apply hoare_ravel_connect.
  - intros. apply side_effect_free_loc. intros. apply hoare_unravel_connect.
  - intros. apply side_effect_free_loc. intros. apply hoare_symmetrize.
  - intros. apply side_effect_free_loc. intros. apply hoare_concat_connect.
  - intros. apply hoare_side_effect_free. intros n.
    eapply hoare_weaken; [apply hoare_covgc_time|].
    intros [gc pairs] [? ?]. by repeat constructor.
  - intros np_mean ma_mean pd_mean x df col fill_with xyz h r h' Hrun.
    destruct (hoare_anat_based_mean np_mean ma_mean pd_mean (length h) x df col fill_with xyz h r h'
                (le_n _) Hrun) as (_ & Hsame & Hq).
    split_and!.
    + intros l o Hl Hx Hdf. rewrite Hsame; [done|by eapply lookup_lt_Some|].
      rewrite !elem_of_cons, elem_of_nil. tauto.
    + intros -> l o Hl Hx.
      destruct (hoare_anat_based_mean_None np_mean ma_mean pd_mean (length h) x df col fill_with h r h'
                  (le_n _) Hrun) as (_ & Hsame' & _).
      rewrite Hsame'; [done|by eapply lookup_lt_Some|].
      by rewrite list_elem_of_singleton.
    + intros a l -> Hin. apply lookup_ge_None.
      specialize (Hq a eq_refl). rewrite Forall_forall in Hq. by apply Hq.
    + intros a A -> Hx. eexists. split; [by eapply anat_based_mean_zeroes_diagonal|].
      intros i j. apply get2_fill_diagonal.
Qed.

Lemma numerical_modules_side_effects_witness :
  let d := mkDataFrame 2 [("roi", [CStr "b"; CStr "a"])] in
  let A := [[1; 2]; [3; 4]]%Q in
  let h := [ONd (Arr2 A); OFrame d] in
  ∃ r h',
    (Correction.anat_based_mean exact_mean exact_ma_mean exact_mean 0 1 "roi" 0%Q None h = (Ok r, h')
     ∧ h !! 0 = Some (ONd (Arr2 A)) ∧ h !! 1 = Some (OFrame d) ∧ 1 ≠ 0)
    ∧ h' !! 1 = Some (OFrame d)
    ∧ ∃ A', h' !! 0 = Some (ONd (Arr2 A'))
          ∧ get2 A' 0 0 = Some 0%Q ∧ get2 A' 0 1 = Some 2%Q.
Proof.
  intros d A h.
  pose (res := Correction.anat_based_mean exact_mean exact_ma_mean exact_mean 0 1 "roi" 0%Q None h).
  assert (Correction.anat_based_mean exact_mean exact_ma_mean exact_mean 0 1 "roi" 0%Q None h = res) as Hres by reflexivity.
  vm_compute in res. subst res.
  assert (h !! 0 = Some (ONd (Arr2 A))) as H0 by reflexivity.
  assert (h !! 1 = Some (OFrame d)) as H1 by reflexivity.
  assert (1 ≠ 0) as Hne by discriminate.
  destruct numerical_modules_side_effects as (_ & _ & _ & _ & _ & _ & _ & _ & Hmean).
  destruct (Hmean exact_mean exact_ma_mean exact_mean 0 1 "roi" 0%Q None h _ _ Hres)
    as (_ & Hdf & _ & Hdiag).
  destruct (Hdiag _ A eq_refl H0) as (A' & HA' & Hget).
  eexists _, _. split; [split_and!; [exact Hres|exact H0|exact H1|exact Hne]|].
  split; [exact (Hdf eq_refl 1 _ H1 Hne)|].
  exists A'. split_and!; [exact HA'| |].
  - rewrite (Hget 0 0). reflexivity.
  - rewrite (Hget 0 1). reflexivity.
Defined.

(** * Further properties *)

(** ** Counting and listing pairs *)

Lemma lower_pairs_swap n : lower_pairs n ≡ₚ prod_swap <$> upper_pairs n.
Proof.
  apply NoDup_Permutation.
  - apply NoDup_lower_pairs.
  - apply NoDup_fmap_2; [|apply NoDup_upper_pairs].
    intros [??] [??] [=]. by subst.
  - intros [i j]. rewrite elem_of_lower_pairs, list_elem_of_fmap. split.
    + intros ?. exists (j, i). split; [done|]. by apply elem_of_upper_pairs.
    + intros ([a b] & [= -> ->] & ?%elem_of_upper_pairs). done.
Qed.

Lemma length_lower_pairs n : length (lower_pairs n) = n * (n - 1) / 2.
Proof. by rewrite lower_pairs_swap, length_fmap, length_upper_pairs. Qed.

Lemma even_product n : ∃ k, n * (n - 1) = 2 * k.
Proof.
  induction n as [|n [k IH]]; [by exists 0|].
  destruct n as [|n]; [by exists 0|]. exists (k + S n).
  replace (S (S n) - 1) with (S n) by lia.
  replace (S n - 1) with n in IH by lia. lia.
Qed.

Lemma length_both_pairs n : length (upper_pairs n ++ lower_pairs n) = n * (n - 1).
Proof.
  rewrite length_app, length_upper_pairs, length_lower_pairs.
  destruct (even_product n) as [k ->].
  rewrite (Nat.mul_comm 2 k), Nat.div_mul by done. lia.
Qed.

Lemma NoDup_both_pairs n : NoDup (upper_pairs n ++ lower_pairs n).
Proof.
  apply NoDup_app. split_and!; [apply NoDup_upper_pairs| |apply NoDup_lower_pairs].
  intros [i j] H1%elem_of_upper_pairs H2%elem_of_lower_pairs. lia.
Qed.

Lemma elem_of_both_pairs n i j :
  (i, j) ∈ upper_pairs n ++ lower_pairs n ↔ i < n ∧ j < n ∧ i ≠ j.
Proof. rewrite elem_of_app, elem_of_upper_pairs, elem_of_lower_pairs. lia. Qed.

Lemma NoDup_selected_pairs n part : NoDup (selected_pairs n part).
Proof.
  unfold selected_pairs. repeat case_bool_decide;
    auto using NoDup_upper_pairs, NoDup_lower_pairs, NoDup_both_pairs.
Qed.

Lemma length_selected_pairs n part :
  length (selected_pairs n part)
  = if bool_decide (part = "upper") || bool_decide (part = "lower")
    then n * (n - 1) / 2 else n * (n - 1).
Proof.
  unfold selected_pairs. repeat case_bool_decide; simpl;
    auto using length_upper_pairs, length_lower_pairs, length_both_pairs.
Qed.

(** X1.  [get_pairs(n, 'both')] lists every ordered pair of two different sites
    exactly once, the upper triangle first: the array it returns has
    [n (n - 1)] rows, none twice, and [(i, j)] is a row exactly when
    [i ≠ j] and both are below [n]. *)
Theorem get_pairs_both_lists_ordered_pairs (n : nat) (h : store) :
  ∃ P, Correction.get_pairs n "both" true h
         = (Ok (Correction.PairsArray (length h)), h ++ [ONd (IntArr2 P)])
     ∧ length P = n * (n - 1)
     ∧ NoDup P
     ∧ (∀ i j, (i, j) ∈ P ↔ i < n ∧ j < n ∧ i ≠ j)
     ∧ take (n * (n - 1) / 2) P = np_c_ (triu_indices n 1).
Proof.
  exists (upper_pairs n ++ lower_pairs n). split_and!.
  - assert (valid_part "both") as Hv by (apply valid_part_cases; auto).
    exact (get_pairs_run n "both" true h Hv).
  - apply length_both_pairs.
  - apply NoDup_both_pairs.
  - apply elem_of_both_pairs.
  - rewrite <- length_upper_pairs. by rewrite take_app_length.
Qed.

(** ** [ravel_connect] and [unravel_connect] *)

(** X2.  For an [n]×[n] array, [ravel_connect] returns a new 1-D array with
    one value per selected pair, in the order of [get_pairs]: [n (n - 1) / 2]
    values for 'upper' and for 'lower', [n (n - 1)] for 'both'; the [k]-th
    value is the entry of the array at the [k]-th pair. *)
Theorem ravel_connect_length (h : store) (l n : nat) (A : list (list Q))
    (part : string) :
  h !! l = Some (ONd (Arr2 A)) → has_shape n n A →
  part ∈ ["upper"; "lower"; "both"] →
  ∃ l' h' v,
    Correction.ravel_connect l part h = (Ok l', h')
    ∧ h' !! l' = Some (ONd (Arr1 v))
    ∧ length v = (if bool_decide (part = "both") then n * (n - 1) else n * (n - 1) / 2)
    ∧ ∀ k i j, selected_pairs n part !! k = Some (i, j) → v !! k = get2 A i j.
Proof.
  intros Hl Hs Hv.
  eexists _, _, _. split_and!.
  - by apply (ravel_connect_run h l n A part).
  - by rewrite lookup_app_plus.
  - rewrite length_fmap, length_selected_pairs.
    apply valid_part_cases in Hv as [->| [->| ->]]; done.
  - intros k i j Hk. rewrite list_lookup_fmap, Hk. simpl.
    assert ((i, j) ∈ selected_pairs n part) as Hin by by eapply list_elem_of_lookup_2.
    apply selected_pairs_lt in Hin as [Hi Hj].
    destruct (has_shape_get2 n n A i j Hs Hi Hj) as [a ->]. done.
Qed.

Lemma ravel_connect_length_witness :
  let A := [[1; 2; 3]; [4; 5; 6]; [7; 8; 9]]%Q in
  let h := [ONd (Arr2 A)] in
  (h !! 0 = Some (ONd (Arr2 A)) ∧ has_shape 3 3 A ∧ "lower" ∈ ["upper"; "lower"; "both"])
  ∧ ∃ l' h' v, Correction.ravel_connect 0 "lower" h = (Ok l', h')
             ∧ h' !! l' = Some (ONd (Arr1 v))
             ∧ length v = 3.
Proof.
  intros A h.
  assert (h !! 0 = Some (ONd (Arr2 A))) as H1 by reflexivity.
  assert (has_shape 3 3 A) as H2 by (split; [reflexivity|repeat constructor]).
  assert ("lower" ∈ ["upper"; "lower"; "both"]) as H3 by (right; left).
  split; [done|].
  destruct (ravel_connect_length h 0 3 A "lower" H1 H2 H3) as (l' & h' & v & Hr & Hv & Hlen & _).
  exists l', h', v. split_and!; [exact Hr|exact Hv|exact Hlen].
Defined.

(** X3.  What [ravel_connect] refuses: an argument that is no numpy array or
    has not two dimensions, a 2-D array that is not square, and, for a
    square array, a [part] outside of 'upper', 'lower' and 'both' (refused by
    [get_pairs]).  Each raises [AssertionError] and leaves the store as it
    was. *)
Theorem ravel_connect_rejects (h : store) (l : loc) (o : obj) (part : string) :
  h !! l = Some o →
  (Correction.is_ndarray_of_ndim o 2 = false
   ∨ (∃ a r c, o = ONd a ∧ shape a = [r; c] ∧ r ≠ c)
   ∨ (∃ a r, o = ONd a ∧ shape a = [r; r] ∧ part ∉ ["upper"; "lower"; "both"])) →
  Correction.ravel_connect l part h = (Raise AssertionError, h).
Proof.
  intros Hl Hbad. unfold Correction.ravel_connect.
  rewrite run_bind, (run_load _ _ _ Hl).
  destruct Hbad as [Hnd | [(a & r & c & -> & Hsh & Hne) | (a & r & -> & Hsh & Hpart)]].
  - rewrite Hnd. by mrun.
  - assert (Correction.is_ndarray_of_ndim (ONd a) 2 = true) as ->.
    { simpl. unfold ndim. by rewrite Hsh. }
    mrun. rewrite Hsh. simpl. rewrite bool_decide_eq_false_2 by congruence. by mrun.
  - assert (Correction.is_ndarray_of_ndim (ONd a) 2 = true) as ->.
    { simpl. unfold ndim. by rewrite Hsh. }
    mrun. rewrite Hsh. simpl. rewrite bool_decide_eq_true_2 by done. mrun.
    rewrite get_pairs_invalid by done. done.
Qed.

Lemma ravel_connect_rejects_witness :
  let h := [ONd (Arr2 [[1; 2; 3]; [4; 5; 6]]%Q); ONd (Arr1 [1; 2]%Q);
            ONd (Arr2 [[1; 2]; [3; 4]]%Q)] in
  Correction.ravel_connect 0 "upper" h = (Raise AssertionError, h)
  ∧ Correction.ravel_connect 1 "upper" h = (Raise AssertionError, h)
  ∧ Correction.ravel_connect 2 "diag" h = (Raise AssertionError, h).
Proof.
  intros h. split_and!.
  - apply (ravel_connect_rejects h 0 (ONd (Arr2 [[1; 2; 3]; [4; 5; 6]]%Q)) "upper");
      [reflexivity|].
    right; left. exists (Arr2 [[1; 2; 3]; [4; 5; 6]]%Q), 2, 3.
    split_and!; [reflexivity|reflexivity|discriminate].
  - apply (ravel_connect_rejects h 1 (ONd (Arr1 [1; 2]%Q)) "upper"); [reflexivity|].
    left. reflexivity.
  - apply (ravel_connect_rejects h 2 (ONd (Arr2 [[1; 2]; [3; 4]]%Q)) "diag"); [reflexivity|].
    right; right. exists (Arr2 [[1; 2]; [3; 4]]%Q), 2.
    split_and!; [reflexivity|reflexivity|].
    rewrite !elem_of_cons, elem_of_nil. intros [?|[?|[?|[]]]]; discriminate.
Defined.

Lemma list_as_fmap {A B} `{!EqDecision A} (d : B) (l : list A) (v : list B) :
  NoDup l → length v = length l → ∃ f : A → B, v = f <$> l.
Proof.
  intros Hnd. revert v. induction Hnd as [|a l Ha Hnd IH]; intros v Hlen.
  - destruct v; [|done]. by exists (λ _, d).
  - destruct v as [|x v]; [done|]. destruct (IH v) as [f ->]; [simpl in Hlen; lia|].
    exists (λ p, if decide (p = a) then x else f p). simpl.
    rewrite decide_True by done. f_equal.
    apply list_fmap_ext. intros i p Hp. rewrite decide_False; [done|].
    intros ->. apply Ha. by eapply list_elem_of_lookup_2.
Qed.

(** X4.  Round trip in the other direction: a 1-D array with one value per
    pair of [get_pairs(n_sites, part)] is returned unchanged (as a new array)
    by [ravel_connect(unravel_connect(v, n_sites, part), part)]. *)
Theorem unravel_ravel_roundtrip (h : store) (l n : nat) (v : list Q) (part : string) :
  h !! l = Some (ONd (Arr1 v)) →
  part ∈ ["upper"; "lower"; "both"] →
  length v = length (selected_pairs n part) →
  ∃ l1 h1 l2 h2,
    Correction.unravel_connect l n part h = (Ok l1, h1)
    ∧ Correction.ravel_connect l1 part h1 = (Ok l2, h2)
    ∧ h2 !! l2 = Some (ONd (Arr1 v))
    ∧ l2 ≠ l.
Proof.
  intros Hl Hv Hlen.
  destruct (list_as_fmap 0%Q (selected_pairs n part) v) as [f ->];
    [apply NoDup_selected_pairs|done|].
  destruct (unravel_connect_run h l n part f Hl Hv) as (R & Hun & HsR & Hget).
  set (h1 := h ++ _) in Hun.
  assert (h1 !! (length h + 2) = Some (ONd (Arr2 R))) as Hl1.
  { unfold h1. by rewrite lookup_app_plus. }
  pose proof (ravel_connect_run h1 (length h + 2) n R part Hl1 HsR Hv) as Hravel.
  eexists _, _, _, _. split_and!; [exact Hun|exact Hravel| |].
  - rewrite lookup_app_plus. simpl. do 3 f_equal.
    apply list_fmap_ext. intros k [i j] Hk. simpl. rewrite Hget.
    rewrite decide_True; [done|]. by eapply list_elem_of_lookup_2.
  - apply lookup_lt_Some in Hl. unfold h1. rewrite length_app. simpl. lia.
Qed.

Lemma unravel_ravel_roundtrip_witness :
  let h := [ONd (Arr1 [5; 6; 7]%Q)] in
  (h !! 0 = Some (ONd (Arr1 [5; 6; 7]%Q)) ∧ "upper" ∈ ["upper"; "lower"; "both"]
   ∧ length [5; 6; 7]%Q = length (selected_pairs 3 "upper"))
  ∧ ∃ l1 h1 l2 h2,
      Correction.unravel_connect 0 3 "upper" h = (Ok l1, h1)
      ∧ Correction.ravel_connect l1 "upper" h1 = (Ok l2, h2)
      ∧ h2 !! l2 = Some (ONd (Arr1 [5; 6; 7]%Q)).
Proof.
  intros h.
  assert (h !! 0 = Some (ONd (Arr1 [5; 6; 7]%Q))) as H1 by reflexivity.
  assert ("upper" ∈ ["upper"; "lower"; "both"]) as H2 by left.
  assert (length [5; 6; 7]%Q = length (selected_pairs 3 "upper")) as H3 by reflexivity.
  split; [done|].
  destruct (unravel_ravel_roundtrip h 0 3 [5; 6; 7]%Q "upper" H1 H2 H3)
    as (l1 & h1 & l2 & h2 & Hu & Hr & Hv & _).
  exists l1, h1, l2, h2. split_and!; [exact Hu|exact Hr|exact Hv].
Defined.

Lemma scatter_broadcast r c (pos : list (nat * nat)) (x : Q) :
  ∀ m : list (list Q),
  has_shape r c m →
  (∀ p, p ∈ pos → p.1 < r ∧ p.2 < c) →
  ∃ R, foldl (λ (acc : outcome (list (list Q))) (p : nat * nat),
                m' ← acc; setitem2 m' p.1 p.2 x) (Ok m) pos = Ok R
     ∧ has_shape r c R
     ∧ ∀ i j, get2 R i j = if decide ((i, j) ∈ pos) then Some x else get2 m i j.
Proof.
  induction pos as [|[a b] pos IH]; intros m Hm Hpos.
  - exists m. split_and!; [done..|]. intros i j. rewrite decide_False; [done|].
    apply not_elem_of_nil.
  - destruct (Hpos (a, b)) as [Ha Hb]; [left|]. simpl in Ha, Hb.
    destruct (has_shape_get2 r c m a b Hm Ha Hb) as [y Hy].
    destruct (IH (set2 m a b x)) as (R & HR & HsR & Hget).
    { by apply has_shape_set2. }
    { intros p Hp. apply Hpos. by right. }
    exists R. split_and!; [|done|].
    + simpl. unfold setitem2 at 2. rewrite Hy. simpl. exact HR.
    + intros i j. rewrite Hget, get2_set2.
      destruct (decide ((i, j) ∈ pos)) as [Hin|Hin].
      * rewrite decide_True; [done|by right].
      * destruct (decide (a = i ∧ b = j)) as [[-> ->]|Hne].
        -- rewrite decide_True by left. by rewrite Hy.
        -- rewrite decide_False; [done|].
           rewrite elem_of_cons. intros [[= -> ->]|?]; tauto.
Qed.

(** X5.  [unravel_connect] and the length of its input.  A 1-D array whose
    length is neither the number of pairs of [get_pairs(n_sites, part)] nor
    one is refused with [ValueError] (the assignment cannot broadcast it);
    an array of length one is accepted and its value is written at every
    selected position, the other entries being zero. *)
Theorem unravel_connect_length_mismatch (h : store) (l n : nat) (v : list Q)
    (part : string) :
  h !! l = Some (ONd (Arr1 v)) →
  part ∈ ["upper"; "lower"; "both"] →
  length v ≠ length (selected_pairs n part) →
  (length v ≠ 1 → ∃ h', Correction.unravel_connect l n part h = (Raise ValueError, h'))
  ∧ (∀ x, v = [x] →
       ∃ l' h' R, Correction.unravel_connect l n part h = (Ok l', h')
         ∧ h' !! l' = Some (ONd (Arr2 R))
         ∧ has_shape n n R
         ∧ ∀ i j, i < n → j < n →
             get2 R i j = Some (if decide ((i, j) ∈ selected_pairs n part) then x else 0%Q)).
Proof.
  intros Hl Hv Hlen.
  pose proof (get_pairs_run n part false h Hv) as Hp. unfold returns_pairs in Hp.
  split.
  - intros Hone. unfold Correction.unravel_connect.
    rewrite run_bind, (run_load _ _ _ Hl). mrun.
    rewrite Hp. mrun. rewrite load_pairs_run. mrun.
    unfold Correction.scatter. cbn [fst snd]. rewrite zip_fst_snd.
    rewrite (proj2 (Nat.eqb_neq _ _)) by done.
    destruct v as [|x [|y v]]; [|done|]; mrun; eauto.
  - intros x ->.
    destruct (scatter_broadcast n n (selected_pairs n part) x (full n n 0%Q))
      as (R & HR & HsR & Hget).
    { apply has_shape_full. }
    { intros [i j]. apply selected_pairs_lt. }
    exists (length h + 2), (h ++ [ONd (IntArr1 (selected_pairs n part).*1);
                                   ONd (IntArr1 (selected_pairs n part).*2);
                                   ONd (Arr2 R)]), R.
    split_and!; [| |done|].
    + unfold Correction.unravel_connect.
      rewrite run_bind, (run_load _ _ _ Hl). mrun.
      rewrite Hp. mrun. rewrite load_pairs_run. mrun.
      unfold Correction.scatter. cbn [fst snd]. rewrite zip_fst_snd.
      rewrite (proj2 (Nat.eqb_neq _ _)) by done.
      rewrite HR. mrun. rewrite length_app. simpl.
      f_equal. rewrite <- (assoc_L (++)). simpl.
      rewrite insert_app_r_alt by lia.
      replace (length h + 2 - length h) with 2 by lia. done.
    + by rewrite lookup_app_plus.
    + intros i j Hi Hj. rewrite Hget. case_decide; [done|]. by apply get2_full.
Qed.

Lemma unravel_connect_length_mismatch_witness :
  let h := [ONd (Arr1 [5; 6]%Q); ONd (Arr1 [9]%Q)] in
  (∃ h', Correction.unravel_connect 0 3 "upper" h = (Raise ValueError, h'))
  ∧ (∃ l' h' R, Correction.unravel_connect 1 3 "upper" h = (Ok l', h')
        ∧ h' !! l' = Some (ONd (Arr2 R))
        ∧ get2 R 0 2 = Some 9%Q ∧ get2 R 2 0 = Some 0%Q).
Proof.
  intros h.
  assert ("upper" ∈ ["upper"; "lower"; "both"]) as H2 by left.
  split.
  - apply (unravel_connect_length_mismatch h 0 3 [5; 6]%Q "upper");
      [reflexivity|exact H2|vm_compute; discriminate|simpl; discriminate].
  - destruct (unravel_connect_length_mismatch h 1 3 [9]%Q "upper") as [_ Hb];
      [reflexivity|exact H2|vm_compute; discriminate|].
    destruct (Hb 9%Q eq_refl) as (l' & h' & R & Hu & HR & _ & Hget).
    exists l', h', R. split_and!; [exact Hu|exact HR| |].
    + rewrite (Hget 0 2) by lia. reflexivity.
    + rewrite (Hget 2 0) by lia. reflexivity.
Defined.

(** X6.  Rebuilding a symmetric matrix: for a 1-D array [v] with one value
    per pair of the upper triangle, [symmetrize(unravel_connect(v, n))]
    returns an [n]×[n] array that holds the [k]-th value of [v] at the [k]-th
    pair [(i, j)] and at its mirror [(j, i)], and zero on the diagonal. *)
Theorem symmetrize_unravel_upper (h : store) (l n : nat) (v : list Q) :
  h !! l = Some (ONd (Arr1 v)) →
  length v = n * (n - 1) / 2 →
  ∃ l1 h1 l2 h2 S,
    Correction.unravel_connect l n "upper" h = (Ok l1, h1)
    ∧ Correction.symmetrize l1 h1 = (Ok l2, h2)
    ∧ h2 !! l2 = Some (ONd (Arr2 S))
    ∧ has_shape n n S
    ∧ (∀ k i j x, upper_pairs n !! k = Some (i, j) → v !! k = Some x →
         ∃ s t, get2 S i j = Some s ∧ get2 S j i = Some t ∧ (s == x)%Q ∧ (t == x)%Q)
    ∧ (∀ i, i < n → ∃ s, get2 S i i = Some s ∧ (s == 0)%Q).
Proof.
  intros Hl Hlen.
  assert (valid_part "upper") as Hv by (apply valid_part_cases; auto).
  assert (selected_pairs n "upper" = upper_pairs n) as Hsel by done.
  destruct (list_as_fmap 0%Q (upper_pairs n) v) as [f ->];
    [apply NoDup_upper_pairs|by rewrite length_upper_pairs|].
  rewrite <- Hsel in Hl.
  destruct (unravel_connect_run h l n "upper" f Hl Hv) as (R & Hun & HsR & Hget).
  rewrite Hsel in Hget.
  set (h1 := h ++ _) in Hun.
  assert (h1 !! (length h + 2) = Some (ONd (Arr2 R))) as Hl1.
  { unfold h1. by rewrite lookup_app_plus. }
  pose proof (symmetrize_run h1 (length h + 2) n R Hl1 HsR) as Hsym.
  assert (∀ i j, i < n → j < n → (i, j) ∉ upper_pairs n → get2 R i j = Some 0%Q) as Hzero.
  { intros i j Hi Hj Hnin. rewrite Hget, decide_False by done. by apply get2_full. }
  eexists _, _, _, _, _. split_and!; [exact Hun|exact Hsym| | | |].
  - by rewrite lookup_app_0.
  - by apply has_shape_symmetrize.
  - intros k i j x Hk Hx. rewrite list_lookup_fmap, Hk in Hx. injection Hx as <-.
    assert ((i, j) ∈ upper_pairs n) as Hin by by eapply list_elem_of_lookup_2.
    pose proof Hin as [Hij Hj]%elem_of_upper_pairs.
    assert (get2 R i j = Some (f (i, j))) as Ha by by rewrite Hget, decide_True.
    assert (get2 R j i = Some 0%Q) as Hb.
    { apply Hzero; [lia..|]. rewrite elem_of_upper_pairs. lia. }
    eexists _, _. split_and!.
    + by apply (symmetrize_entry n R i j _ _ HsR Ha Hb).
    + by apply (symmetrize_entry n R j i _ _ HsR Hb Ha).
    + rewrite bool_decide_eq_false_2 by lia. ring.
    + rewrite bool_decide_eq_false_2 by lia. ring.
  - intros i Hi.
    assert (get2 R i i = Some 0%Q) as Ha.
    { apply Hzero; [done..|]. rewrite elem_of_upper_pairs. lia. }
    eexists. split; [by apply (symmetrize_entry n R i i _ _ HsR Ha Ha)|].
    rewrite bool_decide_eq_true_2 by done. ring.
Qed.

Lemma symmetrize_unravel_upper_witness :
  let h := [ONd (Arr1 [5; 6; 7]%Q)] in
  (h !! 0 = Some (ONd (Arr1 [5; 6; 7]%Q)) ∧ length [5; 6; 7]%Q = 3 * (3 - 1) / 2)
  ∧ ∃ l1 h1 l2 h2 S,
      Correction.unravel_connect 0 3 "upper" h = (Ok l1, h1)
      ∧ Correction.symmetrize l1 h1 = (Ok l2, h2)
      ∧ h2 !! l2 = Some (ONd (Arr2 S))
      ∧ ∃ s t, get2 S 0 2 = Some s ∧ get2 S 2 0 = Some t ∧ (s == 6)%Q ∧ (t == 6)%Q.
Proof.
  intros h.
  assert (h !! 0 = Some (ONd (Arr1 [5; 6; 7]%Q))) as H1 by reflexivity.
  assert (length [5; 6; 7]%Q = 3 * (3 - 1) / 2) as H2 by reflexivity.
  split; [done|].
  destruct (symmetrize_unravel_upper h 0 3 [5; 6; 7]%Q H1 H2)
    as (l1 & h1 & l2 & h2 & S & Hu & Hs & HS & _ & Hent & _).
  exists l1, h1, l2, h2, S. split_and!; [exact Hu|exact Hs|exact HS|].
  apply (Hent 1 0 2 6%Q); reflexivity.
Defined.

(** ** [_axes_correction] *)

(** X7.  [_axes_correction(axis, ndim, num)] returns a tuple of [ndim]
    entries with [num] at the axis and [slice(None)] everywhere else, for
    every [axis] from [-ndim] to [ndim - 1], a negative axis counting from
    the end; any other axis (every axis when [ndim <= 0]) raises
    [IndexError]. *)
Theorem axes_correction_spec {A} (axis ndim : Z) (num : A) :
  ((- ndim ≤ axis < ndim)%Z →
     ∃ t, Correction._axes_correction axis ndim num = Ok t
        ∧ length t = Z.to_nat ndim
        ∧ ∀ k, k < Z.to_nat ndim →
            t !! k = Some (if decide (Z.of_nat k = axis mod ndim)%Z
                           then Correction.entry num else Correction.slice_None))
  ∧ (¬ (- ndim ≤ axis < ndim)%Z →
     Correction._axes_correction axis ndim num = Raise IndexError).
Proof.
  unfold Correction._axes_correction, Correction.list_setitem.
  rewrite length_replicate. split.
  - intros Hax.
    assert (∀ p : nat, p < Z.to_nat ndim → Z.of_nat p = (axis mod ndim)%Z →
            ∀ k, k < Z.to_nat ndim →
            <[p := Correction.entry num]> (replicate (Z.to_nat ndim) Correction.slice_None) !! k
            = Some (if decide (Z.of_nat k = axis mod ndim)%Z
                    then Correction.entry num else Correction.slice_None)) as Hins.
    { intros p Hp Hmod k Hk. destruct (decide (p = k)) as [->|Hne].
      - rewrite list_lookup_insert_eq by by rewrite length_replicate.
        by rewrite decide_True.
      - rewrite list_lookup_insert_ne by done.
        rewrite lookup_replicate_2 by done. rewrite decide_False; [done|lia]. }
    case_bool_decide as H1; [|rewrite bool_decide_eq_true_2 by lia];
      eexists; (split; [done|]); (split; [by rewrite length_insert, length_replicate|]);
      apply Hins; try lia.
    + rewrite Z.mod_small by lia. lia.
    + rewrite <- (Z.mod_add axis 1 ndim) by lia. rewrite Z.mod_small by lia. lia.
  - intros Hax. rewrite !bool_decide_eq_false_2 by lia. done.
Qed.

Lemma axes_correction_spec_witness :
  Correction._axes_correction (-1) 3 7%Z
    = Ok [Correction.slice_None; Correction.slice_None; Correction.entry 7%Z]
  ∧ Correction._axes_correction 3 3 7%Z = Raise IndexError
  ∧ Correction._axes_correction 0 0 7%Z = Raise IndexError.
Proof.
  split_and!.
  - destruct (axes_correction_spec (-1) 3 7%Z) as [Hok _].
    destruct Hok as (t & -> & Hlen & Hent); [lia|].
    destruct t as [|a [|b [|c [|]]]]; try discriminate Hlen.
    pose proof (Hent 0 ltac:(simpl; lia)) as H0.
    pose proof (Hent 1 ltac:(simpl; lia)) as H1.
    pose proof (Hent 2 ltac:(simpl; lia)) as H2.
    simpl in H0, H1, H2. injection H0 as ->. injection H1 as ->. injection H2 as ->.
    reflexivity.
  - apply (axes_correction_spec 3 3 7%Z). lia.
  - apply (axes_correction_spec 0 0 7%Z). lia.
Defined.

(** ** What [concat_connect] refuses *)

(** X8.  [concat_connect] on unusual input.  The empty list raises
    [TypeError] ([np.sum] of no shape is the float 0.0, which [np.full]
    refuses as a dimension); a list of arrays one of which has not two
    dimensions raises [AssertionError]; both leave the store as it was.  A
    single 2-D array with [r > 0] rows and a number of columns that is
    neither [r] nor one raises [ValueError] when it is copied into the
    [r]×[r] result. *)
Theorem concat_connect_rejects (h : store) (fill_with : Q) :
  Correction.concat_connect [] fill_with h = (Raise TypeError, h)
  ∧ (∀ connect arrs,
       Forall2 (λ l a, h !! l = Some (ONd a)) connect arrs →
       Exists (λ a, ndim a ≠ 2) arrs →
       Correction.concat_connect connect fill_with h = (Raise AssertionError, h))
  ∧ (∀ l A r c,
       h !! l = Some (ONd (Arr2 A)) → has_shape r c A →
       0 < r → c ≠ r → c ≠ 1 →
       Correction.concat_connect [l] fill_with h
       = (Raise ValueError, h ++ [ONd (Arr2 (full r r fill_with))])).
Proof.
  split_and!.
  - done.
  - intros connect arrs Hload Hex. unfold Correction.concat_connect.
    rewrite run_bind, (load_arrays_run h connect arrs Hload []). cbn [app].
    assert (forallb (λ k, ndim k =? 2) arrs = false) as ->.
    { apply not_true_is_false. intros Hall.
      rewrite forallb_forall in Hall. apply Exists_exists in Hex as (a & Ha & Hn).
      apply Hn, Nat.eqb_eq, Hall. by apply list_elem_of_In. }
    by mrun.
  - intros l A r c Hl Hs Hr Hcr Hc1. unfold Correction.concat_connect.
    destruct (has_shape_ncols _ _ _ Hs) as [Hnr Hnc]. specialize (Hnc Hr).
    cbn [fold_each]. rewrite !run_bind, (run_load _ _ _ Hl). mrun.
    rewrite Hnr, Nat.add_0_r. mrun.
    unfold Correction.assign_block. mrun.
    rewrite lookup_app_0. mrun.
    unfold Correction.set_block. rewrite Hnc.
    rewrite (proj2 (Nat.eqb_neq c r)), (proj2 (Nat.eqb_neq c 1)) by done.
    by mrun.
Qed.

Lemma concat_connect_rejects_witness :
  let h := [ONd (Arr1 [1; 2]%Q); ONd (Arr2 [[1; 2; 3]; [4; 5; 6]]%Q)] in
  Correction.concat_connect [1; 0] 0%Q h = (Raise AssertionError, h)
  ∧ Correction.concat_connect [1] 0%Q h
    = (Raise ValueError, h ++ [ONd (Arr2 (full 2 2 0%Q))]).
Proof.
  intros h. destruct (concat_connect_rejects h 0%Q) as (_ & Hassert & Hvalue). split.
  - apply (Hassert [1; 0] [Arr2 [[1; 2; 3]; [4; 5; 6]]%Q; Arr1 [1; 2]%Q]).
    + repeat constructor.
    + right. left. simpl. discriminate.
  - apply (Hvalue 1 [[1; 2; 3]; [4; 5; 6]]%Q 2 3).
    + reflexivity.
    + split; [reflexivity|repeat constructor].
    + lia.
    + lia.
    + lia.
Defined.

(** ** The mask of [remove_site_contact] *)

Lemma for_each_enumerate_inv {A} (I : nat → list obj → Prop) (xs : list A)
    (body : nat * A → M ()) :
  (∀ i x h u h', xs !! i = Some x → I i h → body (i, x) h = (Ok u, h') → I (S i) h') →
  ∀ h u h', I 0 h → for_each (enumerate xs) body h = (Ok u, h') → I (length xs) h'.
Proof.
  intros Hbody. unfold enumerate.
  assert (∀ (ys : list A) s h u h',
            (∀ i x, ys !! i = Some x → xs !! (s + i) = Some x) →
            I s h → for_each (zip (seq s (length ys)) ys) body h = (Ok u, h') →
            I (s + length ys) h') as Hgen.
  { induction ys as [|y ys IH]; intros s h u h' Hsub Hi Hrun.
    - apply ret_Ok_inv in Hrun as [_ ->]. by rewrite Nat.add_0_r.
    - cbn [length seq zip zip_with for_each] in Hrun.
      bind_inv Hrun as u1 h1 Hb.
      replace (s + length (y :: ys)) with (S s + length ys) by (simpl; lia).
      eapply IH; [|by eapply (Hbody s y); [rewrite <- (Nat.add_0_r s); by apply Hsub|..]
                  |exact Hrun].
      intros i x Hx. replace (S s + i) with (s + S i) by lia. by apply Hsub. }
  intros h u h' Hi Hrun. by apply (Hgen xs 0 h u h').
Qed.

Lemma get2_set_row_where (m : list (list bool)) i t i' j :
  get2 (Correction.set_row_where m i t) i' j =
    if decide (i = i') then
      x ← get2 m i j; b ← t !! j; Some (if b : bool then true else x)
    else get2 m i' j.
Proof.
  unfold Correction.set_row_where, get2. case_decide as Hi.
  - subst i'. rewrite list_lookup_alter_eq. destruct (m !! i) as [row|]; [|done]. simpl.
    rewrite lookup_zip_with. by destruct (row !! j).
  - by rewrite list_lookup_alter_ne.
Qed.

Lemma rows_equal_Ok r next to_remove :
  r ≠ [] → Correction.rows_equal r next = Ok to_remove →
  to_remove = (λ row, bool_decide (row = next)) <$> r.
Proof.
  unfold Correction.rows_equal. destruct r; [done|]. intros _.
  case_match; [|done]. by intros [= <-].
Qed.

Lemma tril_indices_0_eq n :
  np_c_ (tril_indices n 0)
  = filter (λ p : nat * nat, (Z.of_nat p.2 ≤ Z.of_nat p.1 + 0)%Z) (grid n).
Proof. unfold np_c_, tril_indices. simpl. by rewrite zip_fst_snd. Qed.

Lemma elem_of_tril_indices_0 n i j :
  (i, j) ∈ np_c_ (tril_indices n 0) ↔ j ≤ i ∧ i < n.
Proof.
  rewrite tril_indices_0_eq, list_elem_of_filter, elem_of_grid. simpl. lia.
Qed.

Lemma elem_of_diag_indices_iff n i j :
  (i, j) ∈ np_c_ (diag_indices n) ↔ i = j ∧ i < n.
Proof.
  unfold np_c_, diag_indices. simpl. split.
  - intros (k & H1)%list_elem_of_lookup_1.
    apply lookup_zip_with_Some in H1 as (a & b & [= -> ->] & Ha & Hb).
    apply lookup_seq in Ha as [-> ?], Hb as [-> ?]. lia.
  - intros [-> Hi]. by apply elem_of_diag_indices.
Qed.

Lemma get2_fmap2 {A B} (f : A → B) (m : list (list A)) i j :
  get2 (fmap (M := list) f <$> m) i j = f <$> get2 m i j.
Proof.
  unfold get2. rewrite list_lookup_fmap. destruct (m !! i) as [row|]; [|done].
  simpl. by rewrite list_lookup_fmap.
Qed.

Lemma remove_site_contact_entries (h : list obj) mat channels mode remove_lower
    symmetrical l h' :
  Correction.remove_site_contact mat channels mode remove_lower symmetrical h = (Ok l, h') →
  ∃ sel rows,
    traverse Correction.parse_channel channels = Ok rows
    ∧ h' !! l = Some (ONd (BoolArr2 sel))
    ∧ (∀ i row, rows !! i = Some row → ∃ letter d1 d2 rest, row = letter :: d1 :: d2 :: rest)
    ∧ (∀ i j letter d1 d2 rest rj, i < j →
         rows !! i = Some (letter :: d1 :: d2 :: rest) → rows !! j = Some rj →
         get2 sel i j = Some (marks mode letter d1 d2 rj || (symmetrical && remove_lower))
         ∧ get2 sel j i
           = Some (remove_lower || (symmetrical && marks mode letter d1 d2 rj))).
Proof.
  unfold Correction.remove_site_contact. set (n := length channels). intros H.
  bind_inv H as omat h1 Hmat. apply load_Ok_inv in Hmat as [Hmat ->].
  bind_inv H as a h1 Ha. apply lift_Ok_inv in Ha as [Ha ->].
  bind_inv H as u1 h1 Hassert. apply assert_Ok_inv in Hassert as [Hassert ->].
  bind_inv H as u2 h1 Hmasked. assert (h1 = h) as ->.
  { destruct a; by (apply ret_Ok_inv in Hmasked as [_ ->]) || discriminate. }
  clear Hmasked.
  bind_inv H as select h1 Halloc. apply alloc_Ok_inv in Halloc as [-> ->].
  bind_inv H as r0 h1 Hparse. apply lift_Ok_inv in Hparse as [Hparse ->].
  bind_inv H as r h1 Hr. apply lift_Ok_inv in Hr as [Hr ->].
  apply np_asarray_Ok in Hr as ->.
  assert (length r0 = n) as Hlen by by eapply traverse_length.
  pose (I := λ (p : nat) (hh : list obj), ∃ m,
          hh = h ++ [ONd (BoolArr2 m)] ∧ has_shape n n m
          ∧ (∀ i j, p ≤ i → i < n → j < n → get2 m i j = Some false)
          ∧ (∀ i, i < p → ∃ letter d1 d2 rest, r0 !! i = Some (letter :: d1 :: d2 :: rest))
          ∧ (∀ i j letter d1 d2 rest rj, i < p → i ≠ j →
               r0 !! i = Some (letter :: d1 :: d2 :: rest) → r0 !! j = Some rj →
               get2 m i j = Some (marks mode letter d1 d2 rj))).
  bind_inv H as u3 h1 Hloop.
  assert (I (length r0) h1) as (m1 & -> & Hm1 & _ & Hrows & Hmark).
  { eapply for_each_enumerate_inv; [| |exact Hloop].
    2:{ exists (full n n false). split_and!; [done|apply has_shape_full| |lia|lia].
        intros i j _ Hi Hj. by apply get2_full. }
    clear Hloop. intros p k hh u hh' Hk (m & -> & Hm & Hfalse & Hrows & Hmark) Hbody.
    assert (p < n) as Hp by (rewrite <- Hlen; by eapply lookup_lt_Some).
    simpl in Hbody.
    bind_inv Hbody as letter hx Hx. apply lift_Ok_inv in Hx as [Hletter ->].
    bind_inv Hbody as k1 hx Hx. apply lift_Ok_inv in Hx as [Hk1 ->].
    bind_inv Hbody as k2 hx Hx. apply lift_Ok_inv in Hx as [Hk2 ->].
    destruct k as [|letter' [|k1' [|k2' rest]]]; try discriminate.
    injection Hletter as ->. injection Hk1 as ->. injection Hk2 as ->.
    bind_inv Hbody as to_remove hx Hx.
    assert (hx = h ++ [ONd (BoolArr2 m)] ∧ length to_remove = n
            ∧ ∀ j rj, p ≠ j → r0 !! j = Some rj →
                to_remove !! j = Some (marks mode letter k1 k2 rj)) as (-> & Hto & Hent).
    { unfold marks. destruct (is_literal mode "soft").
      - apply lift_Ok_inv in Hx as [Hre ->].
        apply rows_equal_Ok in Hre as ->; [|by intros ->].
        split_and!; [done|by rewrite length_fmap|].
        intros j rj _ Hj. by rewrite list_lookup_fmap, Hj.
      - apply ret_Ok_inv in Hx as [-> ->].
        split_and!; [done|by rewrite length_insert, length_fmap|].
        intros j rj Hne Hj. rewrite list_lookup_insert_ne by done.
        by rewrite list_lookup_fmap, Hj. }
    apply modify_bool2_Ok_inv in Hbody as (m' & Hl' & ->).
    rewrite lookup_app_0 in Hl'. injection Hl' as <-.
    exists (Correction.set_row_where m p to_remove).
    rewrite insert_app_r_alt, Nat.sub_diag by lia. split_and!.
    - done.
    - by apply has_shape_set_row_where.
    - intros i j Hi Hin Hj. rewrite get2_set_row_where, decide_False by lia.
      apply Hfalse; lia.
    - intros i Hi. destruct (decide (i = p)) as [->|]; [eauto|]. apply Hrows. lia.
    - intros i j letter' d1 d2 rest' rj Hi Hne Hri Hrj.
      rewrite get2_set_row_where. destruct (decide (p = i)) as [<-|].
      + rewrite Hk in Hri. injection Hri as <- <- <- <-.
        assert (j < n) as Hj by (rewrite <- Hlen; by eapply lookup_lt_Some).
        rewrite (Hfalse p j) by lia. simpl. rewrite (Hent j rj) by done. simpl.
        by destruct (marks mode letter k1 k2 rj).
      + eapply Hmark; [lia|done..]. }
  clear Hloop.
  bind_inv H as u4 h2 Htril. apply modify_bool2_Ok_inv in Htril as (m' & Hl' & ->).
  rewrite lookup_app_0 in Hl'. injection Hl' as <-.
  rewrite insert_app_r_alt, Nat.sub_diag in H by lia. cbn [insert list_insert] in H.
  set (m2 := assign_at m1 (np_c_ (tril_indices n 0)) remove_lower) in H.
  assert (has_shape n n m2) as Hm2 by by apply has_shape_assign_at.
  assert (∀ i j, i < n → j < n →
            get2 m2 i j = if decide (j ≤ i) then Some remove_lower else get2 m1 i j) as Hget2.
  { intros i j Hi Hj. unfold m2. rewrite get2_assign_at.
    destruct (has_shape_get2 n n m1 i j Hm1 Hi Hj) as [x Hx].
    destruct (decide (j ≤ i)).
    - rewrite decide_True by (apply elem_of_tril_indices_0; lia). by rewrite Hx.
    - rewrite decide_False; [done|]. rewrite elem_of_tril_indices_0. lia. }
  bind_inv H as select' h3 Hsym.
  assert (∃ m3 hb, h3 = hb ++ [ONd (BoolArr2 m3)] ∧ select' = length hb ∧ has_shape n n m3
            ∧ ∀ i j x y, i < n → j < n → i ≠ j →
                get2 m2 i j = Some x → get2 m2 j i = Some y →
                get2 m3 i j = Some (x || (symmetrical && y)))
    as (m3 & hb & -> & -> & Hm3 & Hget3).
  { destruct symmetrical.
    - bind_inv Hsym as o hx Hx. apply load_Ok_inv in Hx as [Hl ->].
      rewrite lookup_app_0 in Hl. injection Hl as <-.
      bind_inv Hsym as as_int hx Hx. apply alloc_Ok_inv in Hx as [-> ->].
      bind_inv Hsym as s hx Hx.
      erewrite (symmetrize_run _ _ n) in Hx;
        [|by rewrite lookup_app_0|by apply has_shape_fmap2].
      injection Hx as <- <-.
      bind_inv Hsym as os hx Hx. apply load_Ok_inv in Hx as [Hl ->].
      rewrite lookup_app_0 in Hl. injection Hl as <-.
      bind_inv Hsym as a' hx Hx. apply lift_Ok_inv in Hx as [[= <-] ->].
      bind_inv Hsym as sm hx Hx. apply ret_Ok_inv in Hx as [-> ->].
      apply alloc_Ok_inv in Hsym as [-> ->].
      eexists _, _. split_and!; [done..| |].
      + apply has_shape_fmap2, has_shape_symmetrize. by apply has_shape_fmap2.
      + intros i j x y Hi Hj Hne Hx Hy.
        unfold Correction.astype_bool, Correction.astype_int. rewrite get2_fmap2.
        erewrite (symmetrize_entry n _ i j);
          [|by apply has_shape_fmap2|by rewrite get2_fmap2, Hx|by rewrite get2_fmap2, Hy].
        rewrite bool_decide_eq_false_2 by done. simpl. f_equal.
        by destruct x, y.
    - apply ret_Ok_inv in Hsym as [-> ->]. eexists _, _. split_and!; [done..|].
      intros i j x y _ _ _ Hx _. simpl. by rewrite orb_false_r. }
  clear Hsym.
  bind_inv H as u5 h4 Hdiag. apply modify_bool2_Ok_inv in Hdiag as (m' & Hl' & ->).
  rewrite lookup_app_0 in Hl'. injection Hl' as <-.
  apply ret_Ok_inv in H as [-> ->].
  eexists _, r0. rewrite insert_app_r_alt, Nat.sub_diag by lia. split_and!.
  - done.
  - by rewrite lookup_app_0.
  - intros i row Hrow. destruct (Hrows i) as (letter & d1 & d2 & rest & Hi).
    { by eapply lookup_lt_Some. }
    rewrite Hrow in Hi. injection Hi as ->. eauto.
  - intros i j letter d1 d2 rest rj Hij Hri Hrj.
    assert (j < n) as Hj by (rewrite <- Hlen; by eapply lookup_lt_Some).
    assert (get2 m2 i j = Some (marks mode letter d1 d2 rj)) as Hup.
    { rewrite Hget2, decide_False by lia. eapply Hmark; [lia|lia|done..]. }
    assert (get2 m2 j i = Some remove_lower) as Hlow.
    { rewrite Hget2, decide_True by lia. done. }
    rewrite !get2_assign_at.
    rewrite !decide_False by (rewrite elem_of_diag_indices_iff; lia).
    split.
    + by apply Hget3; [lia..|done|done].
    + by apply Hget3; [lia..|done|done].
Qed.

(** X9.  The mask [remove_site_contact] returns, entry by entry.  A call
    returns only if every label has a run of non-digits and at least two
    runs of digits.  For channels [i < j], with [mark] the test of the
    branch that [mode is 'soft'] selects (if [mode] is the interned
    ['soft']: label [j] reads (letter of [i], first number of [i] plus one,
    second number of [i] plus one), the numbers written without leading
    zeros; otherwise, for ['hard'] and for a ['soft'] that is another object
    than the literal: label [j] has the letter prefix of [i]), the entry
    above the diagonal [(i, j)] is [mark], or [True] when [symmetrical] and
    [remove_lower] are both set; the entry below the diagonal [(j, i)] is
    [remove_lower], or [mark] as well when [symmetrical] is set. *)
Theorem remove_site_contact_mask (h : store) (mat : loc) (channels : list string)
    (mode : py_str) (remove_lower symmetrical : bool) (l : loc) (h' : store) :
  Correction.remove_site_contact mat channels mode remove_lower symmetrical h = (Ok l, h') →
  ∃ sel rows,
    traverse Correction.parse_channel channels = Ok rows
    ∧ h' !! l = Some (ONd (BoolArr2 sel))
    ∧ (∀ i row, rows !! i = Some row → ∃ letter d1 d2 rest, row = letter :: d1 :: d2 :: rest)
    ∧ (∀ i j letter d1 d2 rest rj, i < j →
         rows !! i = Some (letter :: d1 :: d2 :: rest) → rows !! j = Some rj →
         get2 sel i j = Some (marks mode letter d1 d2 rj || (symmetrical && remove_lower))
         ∧ get2 sel j i
           = Some (remove_lower || (symmetrical && marks mode letter d1 d2 rj))).
Proof. apply remove_site_contact_entries. Qed.

Lemma remove_site_contact_mask_witness :
  let h := [ONd (Arr2 (full 3 3 0%Q))] in
  let channels := ["A1-A2"; "A2-A3"; "A3-A4"] in
  (∃ l h' sel,
     Correction.remove_site_contact 0 channels (literal "soft") false false h = (Ok l, h')
     ∧ h' !! l = Some (ONd (BoolArr2 sel))
     ∧ get2 sel 0 1 = Some true ∧ get2 sel 0 2 = Some false ∧ get2 sel 1 0 = Some false)
  ∧ (∃ l h' sel,
       Correction.remove_site_contact 0 channels (mk_str "soft" false) false false h
       = (Ok l, h')
       ∧ h' !! l = Some (ONd (BoolArr2 sel))
       ∧ get2 sel 0 1 = Some true ∧ get2 sel 0 2 = Some true).
Proof.
  intros h channels. split.
  - pose (res := Correction.remove_site_contact 0 channels (literal "soft") false false h).
    assert (Correction.remove_site_contact 0 channels (literal "soft") false false h = res)
      as Hres by reflexivity.
    vm_compute in res. subst res.
    destruct (remove_site_contact_mask h 0 channels (literal "soft") false false _ _ Hres)
      as (sel & rows & Hrows & Hsel & _ & Hent).
    vm_compute in Hrows. injection Hrows as <-.
    destruct (Hent 0 1 "A" "1" "2" [] ["A"; "2"; "3"]) as [H01 H10];
      [lia|reflexivity|reflexivity|].
    destruct (Hent 0 2 "A" "1" "2" [] ["A"; "3"; "4"]) as [H02 _];
      [lia|reflexivity|reflexivity|].
    eexists _, _, sel. split_and!; [exact Hres|exact Hsel|exact H01|exact H02|exact H10].
  - pose (res := Correction.remove_site_contact 0 channels (mk_str "soft" false)
                   false false h).
    assert (Correction.remove_site_contact 0 channels (mk_str "soft" false) false false h
            = res) as Hres by reflexivity.
    vm_compute in res. subst res.
    destruct (remove_site_contact_mask h 0 channels (mk_str "soft" false) false false
                _ _ Hres) as (sel & rows & Hrows & Hsel & _ & Hent).
    vm_compute in Hrows. injection Hrows as <-.
    destruct (Hent 0 1 "A" "1" "2" [] ["A"; "2"; "3"]) as [H01 _];
      [lia|reflexivity|reflexivity|].
    destruct (Hent 0 2 "A" "1" "2" [] ["A"; "3"; "4"]) as [H02 _];
      [lia|reflexivity|reflexivity|].
    eexists _, _, sel. split_and!; [exact Hres|exact Hsel|exact H01|exact H02].
Defined.

(** X10.  The options of [remove_site_contact].  With [symmetrical] set the
    mask is symmetric; with [symmetrical] and [remove_lower] both set every
    entry of the mask is [True], so that no pair is kept, whatever the
    channels and the mode; without [symmetrical], every entry below the
    diagonal is [remove_lower]. *)
Theorem remove_site_contact_options (h : store) (mat : loc) (channels : list string)
    (mode : py_str) (remove_lower symmetrical : bool) (l : loc) (h' : store) :
  Correction.remove_site_contact mat channels mode remove_lower symmetrical h = (Ok l, h') →
  ∃ sel,
    h' !! l = Some (ONd (BoolArr2 sel))
    ∧ (symmetrical = true →
       ∀ i j, i < length channels → j < length channels → get2 sel i j = get2 sel j i)
    ∧ (symmetrical = true → remove_lower = true →
       ∀ i j, i < length channels → j < length channels → get2 sel i j = Some true)
    ∧ (symmetrical = false →
       ∀ i j, j < i → i < length channels → get2 sel i j = Some remove_lower).
Proof.
  intros Hrun.
  destruct (remove_site_contact_entries _ _ _ _ _ _ _ _ Hrun)
    as (sel & rows & Hrows & Hsel & Hthree & Hent).
  destruct (remove_site_contact_ok _ _ _ _ _ _ _ _ Hrun) as (sel' & Hsel' & _ & Hdiag).
  rewrite Hsel in Hsel'. injection Hsel' as <-.
  assert (length rows = length channels) as Hlen by by eapply traverse_length.
  assert (∀ i j, i < j → j < length channels →
            ∃ b, get2 sel i j = Some (b || (symmetrical && remove_lower))
               ∧ get2 sel j i = Some (remove_lower || (symmetrical && b))) as Hpair.
  { intros i j Hij Hj.
    destruct (lookup_lt_is_Some_2 rows i) as [ri Hri]; [lia|].
    destruct (lookup_lt_is_Some_2 rows j) as [rj Hrj]; [lia|].
    destruct (Hthree i ri Hri) as (letter & d1 & d2 & rest & ->).
    exists (marks mode letter d1 d2 rj). by eapply Hent. }
  exists sel. split_and!; [done|..].
  - intros -> i j Hi Hj.
    destruct (Nat.lt_trichotomy i j) as [Hij|[->|Hij]]; [|done|].
    + destruct (Hpair i j Hij Hj) as (b & -> & ->). simpl. f_equal. apply orb_comm.
    + destruct (Hpair j i Hij Hi) as (b & -> & ->). simpl. f_equal. apply orb_comm.
  - intros -> -> i j Hi Hj.
    destruct (Nat.lt_trichotomy i j) as [Hij|[->|Hij]]; [|by apply Hdiag|].
    + destruct (Hpair i j Hij Hj) as (b & -> & _). simpl. by rewrite orb_true_r.
    + destruct (Hpair j i Hij Hi) as (b & _ & ->). done.
  - intros -> i j Hij Hi.
    destruct (Hpair j i Hij Hi) as (b & _ & ->). simpl. by rewrite orb_false_r.
Qed.

Lemma remove_site_contact_options_witness :
  let h := [ONd (Arr2 (full 3 3 0%Q))] in
  let channels := ["A1-A2"; "B1-B2"; "C1-C2"] in
  ∃ l h' sel,
    Correction.remove_site_contact 0 channels (literal "hard") true true h = (Ok l, h')
    ∧ h' !! l = Some (ONd (BoolArr2 sel))
    ∧ get2 sel 0 2 = Some true ∧ get2 sel 2 1 = Some true.
Proof.
  intros h channels.
  pose (res := Correction.remove_site_contact 0 channels (literal "hard") true true h).
  assert (Correction.remove_site_contact 0 channels (literal "hard") true true h = res) as Hres
    by reflexivity.
  vm_compute in res. subst res.
  destruct (remove_site_contact_options h 0 channels (literal "hard") true true _ _ Hres)
    as (sel & Hsel & _ & Hall & _).
  eexists _, _, sel. split_and!; [exact Hres|exact Hsel|..].
  - apply Hall; [reflexivity|reflexivity|simpl; lia|simpl; lia].
  - apply Hall; [reflexivity|reflexivity|simpl; lia|simpl; lia].
Defined.

(** ** [anat_based_reorder] *)

Lemma StronglySorted_lt_NoDup (l : list nat) : StronglySorted lt l → NoDup l.
Proof.
  induction 1 as [|x l Hs IH Hall]; constructor; [|done].
  intros Hin. rewrite Forall_forall in Hall. specialize (Hall x Hin). lia.
Qed.

Lemma NoDup_positions k column : NoDup (Correction.positions k column).
Proof. apply StronglySorted_lt_NoDup, positions_sorted. Qed.

Lemma elem_of_concat {A} (x : A) (ls : list (list A)) :
  x ∈ concat ls ↔ ∃ l, l ∈ ls ∧ x ∈ l.
Proof.
  induction ls as [|l ls IH]; simpl.
  - rewrite elem_of_nil. split; [done|]. intros (l & Hl & _). by apply elem_of_nil in Hl.
  - rewrite elem_of_app, IH. split.
    + intros [Hx|(l' & Hl' & Hx)]; [exists l; split; [left|done]|].
      exists l'. split; [by right|done].
    + intros (l' & [->|Hl']%elem_of_cons & Hx); [by left|]. right. eauto.
Qed.

Lemma NoDup_group_index column keys :
  StronglySorted cell_lt keys →
  NoDup (concat ((λ k, Correction.positions k column) <$> keys)).
Proof.
  induction 1 as [|k keys Hs IH Hall]; [constructor|].
  simpl. apply NoDup_app. split_and!; [apply NoDup_positions| |done].
  intros i Hi (l & Hl & Hil)%elem_of_concat.
  apply list_elem_of_fmap in Hl as (k' & -> & Hk').
  apply elem_of_positions in Hi as (x & Hx & Hxk).
  apply elem_of_positions in Hil as (x' & Hx' & Hxk').
  rewrite Hx in Hx'. injection Hx' as <-.
  rewrite Forall_forall in Hall. destruct (Hall k' Hk') as [_ Hne].
  rewrite (cell_eqb_trans k x k') in Hne; [done| |done].
  by rewrite cell_eqb_sym.
Qed.

Lemma group_index_permutation column :
  concat ((λ k, Correction.positions k column)
            <$> merge_sort (λ a b, Is_true (Correction.cell_leb a b))
                  (Correction.uniques column))
  ≡ₚ seq 0 (length column).
Proof.
  destruct (sorted_keys column) as (Hs & Hk1 & Hk2).
  apply NoDup_Permutation; [by apply NoDup_group_index|apply NoDup_seq|].
  intros i. rewrite elem_of_seq, elem_of_concat. split.
  - intros (l & Hl & Hil). apply list_elem_of_fmap in Hl as (k & -> & Hk).
    apply elem_of_positions in Hil as (x & Hx & _).
    apply lookup_lt_Some in Hx. lia.
  - intros [_ Hi]. simpl in Hi.
    destruct (lookup_lt_is_Some_2 column i Hi) as [x Hx].
    destruct (Hk2 x) as (k & Hk & Hxk); [by eapply list_elem_of_lookup_2|].
    exists (Correction.positions k column). split.
    + apply list_elem_of_fmap. by exists k.
    + apply elem_of_positions. eauto.
Qed.

Lemma for_each_prefix_inv {A} (I : list A → list obj → Prop) (xs : list A)
    (body : A → M ()) :
  (∀ pre x h u h', pre ++ [x] `prefix_of` xs → I pre h → body x h = (Ok u, h') →
     I (pre ++ [x]) h') →
  ∀ h u h', I [] h → for_each xs body h = (Ok u, h') → I xs h'.
Proof.
  intros Hbody.
  assert (∀ ys pre h u h', pre ++ ys = xs → I pre h →
            for_each ys body h = (Ok u, h') → I xs h') as Hgen.
  { induction ys as [|y ys IH]; intros pre h u h' Hxs Hi Hrun.
    - apply ret_Ok_inv in Hrun as [_ ->]. by rewrite app_nil_r in Hxs; subst.
    - cbn [for_each] in Hrun. bind_inv Hrun as u1 h1 Hb.
      apply (IH (pre ++ [y]) h1 u h'); [by rewrite <- (assoc_L (++))| |done].
      eapply Hbody; [|done..]. exists ys. by rewrite <- (assoc_L (++)). }
  intros h u h'. by apply (Hgen xs []).
Qed.

Lemma anat_based_reorder_inv (h : list obj) c df col part c_r labels index h' :
  Correction.anat_based_reorder c df col part h = (Ok (c_r, labels, index), h') →
  ∃ cm d R,
    let idx := concat ((λ k, Correction.positions k (Correction.column d col))
                 <$> merge_sort (λ a b, Is_true (Correction.cell_leb a b))
                       (Correction.uniques (Correction.column d col))) in
    let P := selected_pairs (nrows cm) part in
    let target := reorder_target idx in
    h !! c = Some (ONd (Arr2 cm)) ∧ h !! df = Some (OFrame d)
    ∧ col ∈ Correction.df_keys d ∧ valid_part part ∧ labels = Correction.df_keys d
    ∧ index = length h ∧ c_r = length h + 3
    ∧ h' = h ++ [ONd (IntArr1 idx); ONd (IntArr1 P.*1); ONd (IntArr1 P.*2); ONd (Arr2 R)]
    ∧ has_shape (nrows cm) (ncols cm) R
    ∧ (∀ k i, (k, i) ∈ P →
         is_Some (idx !! k) ∧ is_Some (idx !! i) ∧ is_Some (get2 cm k i)
         ∧ (target (k, i)).1 < nrows cm ∧ (target (k, i)).2 < ncols cm)
    ∧ ∀ a b, a < nrows cm → b < ncols cm →
        get2 R a b = match last (filter (λ ki, target ki = (a, b)) P) with
                     | Some ki => get2 cm ki.1 ki.2
                     | None => Some 0%Q
                     end.
Proof.
  intros H. unfold Correction.anat_based_reorder in H.
  bind_inv H as oc h1 Hc. apply load_Ok_inv in Hc as [Hc ->].
  bind_inv H as u1 h1 Ha1. apply assert_Ok_inv in Ha1 as [Hnd ->].
  bind_inv H as odf h1 Hdf. apply load_Ok_inv in Hdf as [Hdf ->].
  bind_inv H as d h1 Hd.
  destruct odf as [|d'|]; try discriminate. apply ret_Ok_inv in Hd as [-> ->].
  bind_inv H as u2 h1 Ha2. apply assert_Ok_inv in Ha2 as [Hcol%bool_decide_eq_true ->].
  bind_inv H as a h1 Ha. apply lift_Ok_inv in Ha as [Ha ->].
  destruct oc as [a'| |]; try discriminate. injection Ha as ->.
  bind_inv H as idx h1 Hidx. apply lift_Ok_inv in Hidx as [Hidx ->].
  bind_inv H as index0 h1 Halloc. apply alloc_Ok_inv in Halloc as [-> ->].
  set (keys := merge_sort (λ a b, Is_true (Correction.cell_leb a b))
                 (Correction.uniques (Correction.column d' col))).
  assert (idx = concat ((λ k, Correction.positions k (Correction.column d' col)) <$> keys))
    as Hidx'.
  { unfold Correction.np_concatenate, Correction.groupby_groups in Hidx.
    fold keys in Hidx. rewrite <- list_fmap_compose in Hidx.
    by destruct (_ <$> keys); [|injection Hidx as <-]. }
  clear Hidx.
  bind_inv H as p h1 Hp.
  destruct (decide (valid_part part)) as [Hv|Hv];
    [|by rewrite get_pairs_invalid in Hp].
  pose proof (get_pairs_run (default 0 (shape a !! 0)) part false
                (h ++ [ONd (IntArr1 idx)]) Hv) as Hp'.
  unfold returns_pairs in Hp'. rewrite Hp' in Hp. injection Hp as <- <-. clear Hp'.
  bind_inv H as rc h1 Hrc. rewrite load_pairs_run in Hrc. injection Hrc as <- <-.
  bind_inv H as cm h1 Hcm.
  destruct a as [|cm'| | | | | | |]; try discriminate.
  apply ret_Ok_inv in Hcm as [-> ->].
  change (default 0 (shape (Arr2 cm') !! 0)) with (nrows cm') in *.
  set (P := selected_pairs (nrows cm') part) in *.
  bind_inv H as c_r0 h1 Halloc. apply alloc_Ok_inv in Halloc as [-> ->].
  rewrite <- (assoc_L (++)) in H. cbn [app] in H.
  rewrite !length_app in H. cbn [length] in H.
  bind_inv H as u3 h1 Hloop.
  apply ret_Ok_inv in H as [[= -> -> ->] ->].
  unfold np_c_ in Hloop. cbn [fst snd] in Hloop. rewrite zip_fst_snd in Hloop.
  set (target := reorder_target idx).
  pose (I := λ (pre : list (nat * nat)) (hh : list obj), ∃ R,
          hh = h ++ [ONd (IntArr1 idx); ONd (IntArr1 P.*1); ONd (IntArr1 P.*2); ONd (Arr2 R)]
          ∧ has_shape (nrows cm') (ncols cm') R
          ∧ (∀ k i, (k, i) ∈ pre →
               is_Some (idx !! k) ∧ is_Some (idx !! i) ∧ is_Some (get2 cm' k i)
               ∧ (target (k, i)).1 < nrows cm' ∧ (target (k, i)).2 < ncols cm')
          ∧ ∀ a b, a < nrows cm' → b < ncols cm' →
              get2 R a b = match last (filter (λ ki, target ki = (a, b)) pre) with
                           | Some ki => get2 cm' ki.1 ki.2
                           | None => Some 0%Q
                           end).
  assert (I P h1) as (R & -> & HR & Hok & Hget).
  { eapply for_each_prefix_inv; cycle 2; [exact Hloop| |].
    2:{ exists (full (nrows cm') (ncols cm') 0%Q).
        split_and!; [by rewrite <- (assoc_L (++))|apply has_shape_full| |].
        - intros k i Hin. by apply elem_of_nil in Hin.
        - intros a b Ha Hb. simpl. by apply get2_full. }
    clear Hloop. intros pre [k i] hh u hh' _ (R & -> & HR & Hok & Hget) Hbody.
    bind_inv Hbody as ix hx Hx.
    unfold Correction.load_index_array in Hx. bind_inv Hx as o hy Hy.
    apply load_Ok_inv in Hy as [Hy ->]. rewrite lookup_app_0 in Hy.
    injection Hy as <-. apply ret_Ok_inv in Hx as [-> ->].
    bind_inv Hbody as ik hx Hx. apply lift_Ok_inv in Hx as [Hik ->].
    bind_inv Hbody as ii hx Hx. apply lift_Ok_inv in Hx as [Hii ->].
    destruct (idx !! k) as [ik'|] eqn:Hk; [|done]. injection Hik as ->.
    destruct (idx !! i) as [ii'|] eqn:Hi; [|done]. injection Hii as ->.
    bind_inv Hbody as oc hx Hx. apply load_Ok_inv in Hx as [Hoc ->].
    rewrite lookup_app_l in Hoc by by eapply lookup_lt_Some.
    rewrite Hc in Hoc. injection Hoc as <-.
    bind_inv Hbody as a hx Hx. apply lift_Ok_inv in Hx as [[= <-] ->].
    bind_inv Hbody as cm hx Hx. apply ret_Ok_inv in Hx as [-> ->].
    bind_inv Hbody as v hx Hx. apply lift_Ok_inv in Hx as [Hv' ->].
    unfold getitem2 in Hv'.
    destruct (get2 cm' k i) as [v'|] eqn:Hki; [|done]. injection Hv' as ->.
    unfold Correction.modify_plain2 in Hbody.
    bind_inv Hbody as o hx Hx. apply load_Ok_inv in Hx as [Hx ->].
    rewrite (lookup_app_plus h _ 3) in Hx. injection Hx as <-.
    bind_inv Hbody as m' hx Hx. apply lift_Ok_inv in Hx as [Hset ->].
    unfold setitem2 in Hset.
    destruct (get2 R (ik `min` ii) (ik `max` ii)) as [old|] eqn:Hold; [|done].
    injection Hset as <-. apply update_Ok_inv in Hbody as ->.
    exists (set2 R (ik `min` ii) (ik `max` ii) v).
    split_and!.
    - rewrite insert_app_r_alt by lia.
      replace (length h + 3 - length h) with 3 by lia. done.
    - by apply has_shape_set2.
    - intros k0 i0 [Hin|[= -> ->]%list_elem_of_singleton]%elem_of_app; [by apply Hok|].
      unfold target, reorder_target. simpl. rewrite Hk, Hi, Hki. simpl.
      apply (get2_lt _ _ _ _ _ _ HR) in Hold. split_and!; [eauto..|lia|lia].
    - intros a b Ha Hb. rewrite get2_set2, filter_app.
      destruct (decide (target (k, i) = (a, b))) as [Ht|Ht].
      + rewrite filter_cons_True by done. rewrite filter_nil, last_snoc. simpl.
        unfold target, reorder_target in Ht. simpl in Ht. rewrite Hk, Hi in Ht. simpl in Ht.
        injection Ht as <- <-. rewrite decide_True by done. by rewrite Hold, Hki.
      + rewrite filter_cons_False by done. rewrite filter_nil, app_nil_r.
        rewrite decide_False; [by apply Hget|].
        intros [<- <-]. apply Ht. unfold target, reorder_target. simpl. by rewrite Hk, Hi. }
  exists cm', d', R. cbv zeta. fold keys. rewrite <- Hidx'. fold P. fold target.
  split_and!; done.
Qed.

(** X11.  The index array and the labels of [anat_based_reorder].  The
    index array is a permutation of the row numbers of the table: every row
    appears once.  The labels returned are the column names of the table
    ([df.keys()]), not the values of the grouping column.  Both are new
    objects, and the table and [c] are left as they were. *)
Theorem anat_based_reorder_index_permutation (h : store) (c df : loc)
    (col part : string) (c_r : loc) (labels : list string) (index : loc) (h' : store) :
  Correction.anat_based_reorder c df col part h = (Ok (c_r, labels, index), h') →
  ∃ d idx,
    h !! df = Some (OFrame d)
    ∧ h' !! index = Some (ONd (IntArr1 idx))
    ∧ idx ≡ₚ seq 0 (length (Correction.column d col))
    ∧ labels = (df_cols d).*1
    ∧ h !! index = None ∧ h !! c_r = None
    ∧ h' !! df = h !! df ∧ h' !! c = h !! c.
Proof.
  intros (cm & d & R & Hc & Hdf & Hcol & Hv & -> & -> & -> & -> & HR & Hok & Hget)
    %anat_based_reorder_inv.
  eexists d, _. split_and!.
  - done.
  - by rewrite lookup_app_0.
  - apply group_index_permutation.
  - done.
  - by apply lookup_ge_None.
  - apply lookup_ge_None. lia.
  - apply lookup_app_l. by eapply lookup_lt_Some.
  - apply lookup_app_l. by eapply lookup_lt_Some.
Qed.

Lemma anat_based_reorder_index_permutation_witness :
  let d := mkDataFrame 3 [("roi", [CStr "b"; CStr "a"; CStr "b"]); ("name", [])] in
  let h := [ONd (Arr2 (full 3 3 0%Q)); OFrame d] in
  ∃ c_r labels index h' idx,
    Correction.anat_based_reorder 0 1 "roi" "upper" h = (Ok (c_r, labels, index), h')
    ∧ h' !! index = Some (ONd (IntArr1 idx))
    ∧ idx ≡ₚ [0; 1; 2]
    ∧ labels = ["roi"; "name"].
Proof.
  intros d h.
  pose (res := Correction.anat_based_reorder 0 1 "roi" "upper" h).
  assert (Correction.anat_based_reorder 0 1 "roi" "upper" h = res) as Hres by reflexivity.
  vm_compute in res. subst res.
  destruct (anat_based_reorder_index_permutation h 0 1 "roi" "upper" _ _ _ _ Hres)
    as (d' & idx & Hd & Hidx & Hperm & Hlab & _).
  injection Hd as <-.
  eexists _, _, _, _, idx. split_and!; [exact Hres|exact Hidx|exact Hperm|exact Hlab].
Defined.

Lemma filter_none {A} (P : A → Prop) `{!∀ x, Decision (P x)} (l : list A) :
  (∀ x, x ∈ l → ¬ P x) → filter P l = [].
Proof.
  induction l as [|x l IH]; intros Hl; [done|].
  rewrite filter_cons_False by (apply Hl; left). apply IH. intros y Hy. apply Hl. by right.
Qed.

Lemma filter_one {A} (P : A → Prop) `{!∀ x, Decision (P x)} (l : list A) (x : A) :
  NoDup l → x ∈ l → P x → (∀ y, y ∈ l → P y → y = x) → filter P l = [x].
Proof.
  induction 1 as [|a l Ha Hnd IH]; intros Hx HP Huniq; [by apply elem_of_nil in Hx|].
  apply elem_of_cons in Hx as [->|Hx].
  - rewrite filter_cons_True by done. f_equal. apply filter_none.
    intros y Hy HPy. apply Ha. rewrite <- (Huniq y); [done|by right|done].
  - rewrite filter_cons_False.
    + apply IH; [done..|]. intros y Hy. apply Huniq. by right.
    + intros HPa. apply Ha. rewrite (Huniq a); [done|by left|done].
Qed.

(** X12.  The array [anat_based_reorder] returns.  It has the shape of [c]
    and is zero on and below the diagonal, whatever [part] is.  For two
    sites [k < i], the entry at row [min(index[k], index[i])] and column
    [max(index[k], index[i])] is [c[k, i]] for part 'upper', and [c[i, k]],
    the entry of the lower triangle of [c], for the parts 'lower' and
    'both'. *)
Theorem anat_based_reorder_entries (h : store) (c df : loc) (col part : string)
    (c_r : loc) (labels : list string) (index : loc) (h' : store) :
  Correction.anat_based_reorder c df col part h = (Ok (c_r, labels, index), h') →
  ∃ cm idx R,
    h !! c = Some (ONd (Arr2 cm))
    ∧ h' !! index = Some (ONd (IntArr1 idx))
    ∧ h' !! c_r = Some (ONd (Arr2 R))
    ∧ has_shape (nrows cm) (ncols cm) R
    ∧ (∀ a b, b ≤ a → a < nrows cm → b < ncols cm → get2 R a b = Some 0%Q)
    ∧ (∀ k i, k < i → i < nrows cm →
         ∃ ik ii, idx !! k = Some ik ∧ idx !! i = Some ii ∧ ik ≠ ii
           ∧ get2 R (ik `min` ii) (ik `max` ii)
             = if bool_decide (part = "upper") then get2 cm k i else get2 cm i k).
Proof.
  intros (cm & d & R & Hc & Hdf & Hcol & Hv & -> & -> & -> & -> & HR & Hok & Hget)
    %anat_based_reorder_inv.
  set (idx := concat _) in *. set (P := selected_pairs (nrows cm) part) in *.
  set (target := reorder_target idx) in *.
  assert (NoDup idx) as Hnd.
  { apply NoDup_group_index. apply sorted_keys. }
  assert (∀ k i, (k, i) ∈ P → k ≠ i) as Hdiff.
  { intros k i Hin. unfold P, selected_pairs in Hin.
    repeat case_bool_decide;
      rewrite ?elem_of_app, ?elem_of_upper_pairs, ?elem_of_lower_pairs in Hin; lia. }
  assert (∀ k i ik ii, k ≠ i → idx !! k = Some ik → idx !! i = Some ii → ik ≠ ii) as Hinj.
  { intros k i ik ii Hne Hk Hi ->. apply Hne. by eapply NoDup_lookup. }
  exists cm, idx, R. split_and!.
  - done.
  - by rewrite lookup_app_0.
  - by rewrite (lookup_app_plus h _ 3).
  - done.
  - intros a b Hba Ha Hb. rewrite Hget by done.
    rewrite filter_none; [done|].
    intros [k i] Hin. destruct (Hok k i Hin) as ([ik Hk] & [ii Hi] & _).
    pose proof (Hinj k i ik ii (Hdiff k i Hin) Hk Hi).
    unfold target, reorder_target. simpl. rewrite Hk, Hi. simpl. intros [= <- <-]. lia.
  - intros k i Hki Hi.
    assert (∃ q, (q = (k, i) ∨ q = (i, k)) ∧ q ∈ P) as (q & Hq & HqP).
    { apply valid_part_cases in Hv. unfold P, selected_pairs.
      destruct Hv as [->|[->| ->]]; simpl.
      - exists (k, i). split; [by left|]. apply elem_of_upper_pairs. lia.
      - exists (i, k). split; [by right|]. apply elem_of_lower_pairs. lia.
      - exists (k, i). split; [by left|]. apply elem_of_app. left.
        apply elem_of_upper_pairs. lia. }
    assert (∃ ik ii, idx !! k = Some ik ∧ idx !! i = Some ii
              ∧ (ik `min` ii) < nrows cm ∧ (ik `max` ii) < ncols cm)
      as (ik & ii & Hk & Hii & Hr1 & Hr2).
    { destruct Hq as [-> | ->].
      - destruct (Hok k i HqP) as ([ik Hk] & [ii Hii] & _ & H1 & H2).
        unfold target, reorder_target in H1, H2. simpl in H1, H2. rewrite Hk, Hii in H1, H2.
        exists ik, ii. done.
      - destruct (Hok i k HqP) as ([ii Hii] & [ik Hk] & _ & H1 & H2).
        unfold target, reorder_target in H1, H2. simpl in H1, H2. rewrite Hk, Hii in H1, H2.
        simpl in H1, H2. exists ik, ii. split_and!; [done..|lia|lia]. }
    assert (ik ≠ ii) as Hne by (eapply (Hinj k i); [lia|done..]).
    exists ik, ii. split_and!; [done..|].
    rewrite Hget by done.
    assert (∀ k' i', target (k', i') = (ik `min` ii, ik `max` ii) → (k', i') ∈ P →
              (k', i') = (k, i) ∨ (k', i') = (i, k)) as Hsame.
    { intros k' i' Ht Hin. destruct (Hok k' i' Hin) as ([ik' Hk'] & [ii' Hi'] & _).
      unfold target, reorder_target in Ht. simpl in Ht. rewrite Hk', Hi' in Ht. simpl in Ht.
      injection Ht as Hmin Hmax.
      assert ((ik' = ik ∧ ii' = ii) ∨ (ik' = ii ∧ ii' = ik)) as [[-> ->]|[-> ->]] by lia.
      - left. f_equal; by eapply NoDup_lookup.
      - right. f_equal; by eapply NoDup_lookup. }
    assert (target (k, i) = (ik `min` ii, ik `max` ii)) as Htki.
    { unfold target, reorder_target. simpl. by rewrite Hk, Hii. }
    assert (target (i, k) = (ik `min` ii, ik `max` ii)) as Htik.
    { unfold target, reorder_target. simpl. rewrite Hk, Hii. simpl. f_equal; lia. }
    apply valid_part_cases in Hv. unfold P, selected_pairs in *.
    destruct Hv as [->|[->| ->]]; simpl in *.
    + rewrite (filter_one _ _ (k, i)); [done|apply NoDup_upper_pairs| |done|].
      * apply elem_of_upper_pairs. lia.
      * intros [k' i'] Hin Ht. destruct (Hsame k' i' Ht Hin) as [?|[= -> ->]]; [done|].
        apply elem_of_upper_pairs in Hin. lia.
    + rewrite (filter_one _ _ (i, k)); [done|apply NoDup_lower_pairs| |done|].
      * apply elem_of_lower_pairs. lia.
      * intros [k' i'] Hin Ht. destruct (Hsame k' i' Ht Hin) as [[= -> ->]|?]; [|done].
        apply elem_of_lower_pairs in Hin. lia.
    + rewrite filter_app.
      rewrite (filter_one _ (lower_pairs _) (i, k)); [|apply NoDup_lower_pairs| |done|].
      * by rewrite last_snoc.
      * apply elem_of_lower_pairs. lia.
      * intros [k' i'] Hin Ht.
        destruct (Hsame k' i' Ht) as [[= -> ->]|?]; [apply elem_of_app; by right| |done].
        apply elem_of_lower_pairs in Hin. lia.
Qed.

Lemma anat_based_reorder_entries_witness :
  let d := mkDataFrame 3 [("roi", [CStr "b"; CStr "a"; CStr "b"])] in
  let h := [ONd (Arr2 [[1; 2; 3]; [4; 5; 6]; [7; 8; 9]]%Q); OFrame d] in
  ∃ c_r labels index h' R,
    Correction.anat_based_reorder 0 1 "roi" "both" h = (Ok (c_r, labels, index), h')
    ∧ h' !! index = Some (ONd (IntArr1 [1; 0; 2]))
    ∧ h' !! c_r = Some (ONd (Arr2 R))
    ∧ get2 R 1 2 = Some 7%Q ∧ get2 R 2 1 = Some 0%Q.
Proof.
  intros d h.
  pose (res := Correction.anat_based_reorder 0 1 "roi" "both" h).
  assert (Correction.anat_based_reorder 0 1 "roi" "both" h = res) as Hres by reflexivity.
  vm_compute in res. subst res.
  destruct (anat_based_reorder_entries h 0 1 "roi" "both" _ _ _ _ Hres)
    as (cm & idx & R & Hcm & Hidx & HR & _ & Hzero & Hent).
  injection Hcm as <-. injection Hidx as <-.
  eexists _, _, _, _, R. split_and!; [exact Hres|reflexivity|exact HR| |].
  - destruct (Hent 0 2) as (ik & ii & Hk & Hi & _ & Hget); [lia|unfold nrows; simpl; lia|].
    injection Hk as <-. injection Hi as <-. exact Hget.
  - apply Hzero; unfold nrows, ncols; simpl; lia.
Defined.

(** X13.  What [anat_based_reorder] refuses before it builds anything: a [c]
    that is no 2-D numpy array and a column name that is not a column of the
    table raise [AssertionError]; a table without rows raises [ValueError]
    ([np.concatenate] of no group).  The store is left as it was. *)
Theorem anat_based_reorder_rejects (h : store) (c df : loc) (col part : string)
    (oc : obj) (d : DataFrame) :
  h !! c = Some oc → h !! df = Some (OFrame d) →
  (Correction.is_ndarray_of_ndim oc 2 = false →
     Correction.anat_based_reorder c df col part h = (Raise AssertionError, h))
  ∧ (Correction.is_ndarray_of_ndim oc 2 = true → col ∉ (df_cols d).*1 →
     Correction.anat_based_reorder c df col part h = (Raise AssertionError, h))
  ∧ (Correction.is_ndarray_of_ndim oc 2 = true → col ∈ (df_cols d).*1 →
     Correction.column d col = [] →
     Correction.anat_based_reorder c df col part h = (Raise ValueError, h)).
Proof.
  intros Hc Hdf. unfold Correction.anat_based_reorder.
  rewrite run_bind, (run_load _ _ _ Hc). split_and!.
  - intros ->. by mrun.
  - intros -> Hcol. mrun. rewrite Hdf. mrun.
    rewrite bool_decide_eq_false_2 by done. by mrun.
  - intros Hnd Hcol Hempty. rewrite Hnd. mrun. rewrite Hdf. mrun.
    rewrite bool_decide_eq_true_2 by done. mrun.
    destruct oc as [a| |]; [|done..]. mrun.
    unfold Correction.groupby_groups. rewrite Hempty. by mrun.
Qed.

Lemma anat_based_reorder_rejects_witness :
  let d := mkDataFrame 0 [("roi", [])] in
  let h := [ONd (Arr2 (full 2 2 0%Q)); OFrame d; ONd (Arr1 [1%Q])] in
  Correction.anat_based_reorder 2 1 "roi" "upper" h = (Raise AssertionError, h)
  ∧ Correction.anat_based_reorder 0 1 "area" "upper" h = (Raise AssertionError, h)
  ∧ Correction.anat_based_reorder 0 1 "roi" "upper" h = (Raise ValueError, h).
Proof.
  intros d h. split_and!.
  - destruct (anat_based_reorder_rejects h 2 1 "roi" "upper" (ONd (Arr1 [1%Q])) d)
      as (H & _ & _); [reflexivity|reflexivity|].
    apply H. reflexivity.
  - destruct (anat_based_reorder_rejects h 0 1 "area" "upper" (ONd (Arr2 (full 2 2 0%Q))) d)
      as (_ & H & _); [reflexivity|reflexivity|].
    apply H; [reflexivity|]. simpl. rewrite list_elem_of_singleton. discriminate.
  - destruct (anat_based_reorder_rejects h 0 1 "roi" "upper" (ONd (Arr2 (full 2 2 0%Q))) d)
      as (_ & _ & H); [reflexivity|reflexivity|].
    apply H; [reflexivity|simpl; by left|reflexivity].
Defined.

(** ** [anat_based_mean] *)

Lemma has_shape_fill_diagonal {A} r c (m : list (list A)) (z : A) :
  has_shape r c m → has_shape r c (fill_diagonal m z).
Proof.
  intros [Hr Hc]. split; [by unfold fill_diagonal; rewrite length_imap|].
  apply Forall_forall. intros row (i & row' & -> & Hrow')%elem_of_lookup_imap_1.
  rewrite length_insert. rewrite Forall_forall in Hc. apply Hc.
  by eapply list_elem_of_lookup_2.
Qed.

Lemma get2_triu {A} (z : A) (m : list (list A)) i j :
  get2 (triu z m) i j = (λ x, if bool_decide (i ≤ j) then x else z) <$> get2 m i j.
Proof. unfold triu. apply (get2_imap2 (λ i j x, if bool_decide (i ≤ j) then x else z)). Qed.

Lemma has_shape_triu {A} r c (z : A) (m : list (list A)) :
  has_shape r c m → has_shape r c (triu z m).
Proof. apply (has_shape_imap2 r c (λ i j x, if bool_decide (i ≤ j) then x else z)). Qed.

(** The array of which [anat_based_mean] takes the block means. *)
Lemma mean_input_entry n (A : list (list Q)) i j :
  has_shape n n A → i < n → j < n →
  let T := triu 0%Q (fill_diagonal A 0%Q) in
  ∃ v, get2 (Correction.np_add T (Correction.np_T T)) i j = Some v
     ∧ (v == upper_value A i j)%Q.
Proof.
  intros Hs Hi Hj T.
  assert (has_shape n n T) as HT by by apply has_shape_triu, has_shape_fill_diagonal.
  assert (∀ a b, a < n → b < n →
            get2 T a b = Some (if decide (a < b) then default 0%Q (get2 A a b) else 0%Q))
    as HTget.
  { intros a b Ha Hb. unfold T. rewrite get2_triu, get2_fill_diagonal.
    destruct (has_shape_get2 n n A a b Hs Ha Hb) as [x Hx]. rewrite Hx.
    destruct (decide (a = b)) as [->|]; simpl.
    - rewrite bool_decide_eq_true_2 by done. by rewrite decide_False by lia.
    - case_bool_decide; case_decide; (done || lia). }
  eexists. split.
  - unfold Correction.np_add, Correction.np_T.
    apply get2_zip_with; [by apply HTget|].
    apply (get2_transpose _ n); [done|]. by apply HTget.
  - unfold upper_value. change (@dadd Q exact_numbers) with Qplus.
    destruct (decide (i = j)) as [->|Hne].
    + rewrite !decide_False by lia. ring.
    + destruct (decide (i < j)).
      * rewrite decide_False by lia. rewrite Nat.min_l, Nat.max_r by lia. ring.
      * rewrite decide_True by lia. rewrite Nat.min_r, Nat.max_l by lia. ring.
Qed.

Lemma traverse_Ok_inv {A B} (f : A → outcome B) (l : list A) (r : list B) :
  traverse f l = Ok r → Forall2 (λ a b, f a = Ok b) l r.
Proof.
  revert r. induction l as [|a l IH]; intros r H; simpl in H.
  - injection H as <-. constructor.
  - destruct (f a) as [b|] eqn:Hb; [|done]. simpl in H.
    destruct (traverse f l) as [bs|]; [|done]. simpl in H. injection H as <-.
    constructor; [done|]. by apply IH.
Qed.

Lemma store_block_mean_Ok_inv np_mean ma_mean (hb : list obj) xs C r c rows cols u h' :
  Correction.store_block_mean np_mean ma_mean (length hb) (S (length hb)) r c rows cols
    (hb ++ [ONd (Arr2 xs); ONd (Arr2 C)]) = (Ok u, h') →
  ∃ vals, Correction.block xs rows cols = Ok vals
        ∧ is_Some (get2 C r c)
        ∧ h' = hb ++ [ONd (Arr2 xs); ONd (Arr2 (set2 C r c (np_mean vals)))].
Proof.
  unfold Correction.store_block_mean. intros H.
  bind_inv H as ox h1 Hs. apply load_Ok_inv in Hs as [Hox ->].
  rewrite lookup_app_0 in Hox. injection Hox as <-.
  bind_inv H as ocon h1 Hs. apply load_Ok_inv in Hs as [Hocon ->].
  rewrite lookup_app_S in Hocon. injection Hocon as <-.
  bind_inv H as vals h1 Hs. apply lift_Ok_inv in Hs as [Hvals ->].
  bind_inv H as cm' h1 Hs. apply lift_Ok_inv in Hs as [Hset ->].
  unfold setitem2 in Hset. destruct (get2 C r c) as [old|] eqn:Hold; [|done].
  injection Hset as <-. apply update_Ok_inv in H as ->.
  exists vals. split_and!; [done|eauto|].
  rewrite insert_app_r_alt by lia. replace (S (length hb) - length hb) with 1 by lia. done.
Qed.

Lemma anat_based_mean_plain_inv np_mean ma_mean pd_mean (h : list obj) x df col fill_with A d r h' :
  h !! x = Some (ONd (Arr2 A)) → h !! df = Some (OFrame d) →
  Correction.anat_based_mean np_mean ma_mean pd_mean x df col fill_with None h = (Ok r, h') →
  let labels := Correction.uniques (Correction.column d col) in
  let T := triu 0%Q (fill_diagonal A 0%Q) in
  let xs := Correction.np_add T (Correction.np_T T) in
  ∃ C,
    r = Correction.Ret2 (S (length h)) labels
    ∧ h' = <[x := ONd (Arr2 (fill_diagonal A 0%Q))]> h ++ [ONd (Arr2 xs); ONd (Arr2 C)]
    ∧ nrows T = ncols T
    ∧ has_shape (length labels) (length labels) C
    ∧ ∀ i j ki kj, labels !! i = Some ki → labels !! j = Some kj →
        ∃ vals,
          Correction.block xs (Correction.positions ki (Correction.column d col))
            (Correction.positions kj (Correction.column d col)) = Ok vals
          ∧ get2 C i j = Some (np_mean vals).
Proof.
  intros Hx Hdf H labels T xs. unfold Correction.anat_based_mean in H.
  bind_inv H as ox h1 Hs. apply load_Ok_inv in Hs as [Hox ->].
  rewrite Hx in Hox. injection Hox as <-.
  bind_inv H as u1 h1 Hs. apply assert_Ok_inv in Hs as [_ ->].
  bind_inv H as odf h1 Hs. apply load_Ok_inv in Hs as [Hodf ->].
  rewrite Hdf in Hodf. injection Hodf as <-.
  bind_inv H as d' h1 Hs. apply ret_Ok_inv in Hs as [-> ->].
  bind_inv H as u2 h1 Hs. apply assert_Ok_inv in Hs as [_ ->].
  bind_inv H as is_masked h1 Hs.
  bind_inv Hs as u3 h2 Hu. apply update_Ok_inv in Hu as ->.
  apply ret_Ok_inv in Hs as [-> ->].
  set (hb := <[x := ONd (Arr2 (fill_diagonal A 0%Q))]> h) in *.
  assert (length hb = length h) as Hlen by apply length_insert.
  assert (hb !! x = Some (ONd (Arr2 (fill_diagonal A 0%Q)))) as Hx'.
  { apply list_lookup_insert_eq. by eapply lookup_lt_Some. }
  bind_inv H as xc h1 Hs. cbn iota in Hs.
  bind_inv Hs as ox h2 Hl. apply load_Ok_inv in Hl as [Hox ->].
  rewrite Hx' in Hox. injection Hox as <-.
  bind_inv Hs as x' h2 Ha. apply alloc_Ok_inv in Ha as [-> ->].
  bind_inv Hs as u4 h2 Hm. unfold Correction.modify_plain2 in Hm.
  bind_inv Hm as o h3 Hl. apply load_Ok_inv in Hl as [Ho ->].
  rewrite lookup_app_0 in Ho. injection Ho as <-.
  bind_inv Hm as m' h3 Hl. apply lift_Ok_inv in Hl as [Hadd ->].
  unfold Correction.iadd_transpose in Hadd. fold T in Hadd.
  destruct (nrows T =? ncols T) eqn:Hsq; [|done]. apply Nat.eqb_eq in Hsq.
  injection Hadd as <-. fold xs in Hm.
  apply update_Ok_inv in Hm as ->.
  rewrite insert_app_r_alt, Nat.sub_diag in Hs by lia. cbn [insert list_insert] in Hs.
  bind_inv Hs as con h2 Ha. apply alloc_Ok_inv in Ha as [-> ->].
  apply ret_Ok_inv in Hs as [-> ->].
  rewrite length_app in H. cbn [length] in H. rewrite <- (assoc_L (++)) in H. cbn [app] in H.
  replace (length hb + 1) with (S (length hb)) in H by lia.
  set (gp := Correction.groupby_groups false (Correction.column d col)) in *.
  assert (gp.*1 = labels) as Hlabels.
  { unfold gp, Correction.groupby_groups. rewrite <- list_fmap_compose.
    apply list_fmap_id. }
  assert (∀ i rows, gp.*2 !! i = Some rows →
            ∃ k, labels !! i = Some k
               ∧ rows = Correction.positions k (Correction.column d col)) as Hrois.
  { intros i rows Hi. unfold gp, Correction.groupby_groups in Hi.
    rewrite <- list_fmap_compose, list_lookup_fmap in Hi.
    fold labels in Hi. destruct (labels !! i) as [k|]; [|done].
    injection Hi as <-. eauto. }
  assert (length gp.*2 = length labels) as Hlen2.
  { by rewrite <- Hlabels, !length_fmap. }
  rewrite Hlabels in H.
  set (k := length labels) in *.
  pose (Inv := λ (D : nat → nat → Prop) (hh : list obj), ∃ C,
          hh = hb ++ [ONd (Arr2 xs); ONd (Arr2 C)]
          ∧ has_shape k k C
          ∧ ∀ i j rows cols, D i j → gp.*2 !! i = Some rows → gp.*2 !! j = Some cols →
              ∃ vals, Correction.block xs rows cols = Ok vals
                    ∧ get2 C i j = Some (np_mean vals)).
  bind_inv H as u5 h2 Hloop. apply ret_Ok_inv in H as [-> ->].
  assert (Inv (λ i j, i < length gp.*2) h2) as (C & -> & HC & Hdone).
  { eapply (for_each_enumerate_inv (λ p, Inv (λ i j, i < p))); cycle 2; [exact Hloop| |].
    2:{ exists (full k k 0%Q). split_and!; [done|apply has_shape_full|]. intros; lia. }
    clear Hloop. intros p rows hh u hh' Hrows Hinv Hinner. cbn [fst snd] in Hinner.
    assert (Inv (λ i j, i < p ∨ (i = p ∧ j < length gp.*2)) hh') as (C & -> & HC & Hdone).
    { eapply (for_each_enumerate_inv (λ q, Inv (λ i j, i < p ∨ (i = p ∧ j < q))));
        cycle 2; [exact Hinner| |].
      2:{ destruct Hinv as (C & -> & HC & Hdone). exists C. split_and!; [done..|].
          intros i j rws cls [Hi|[_ Hj]]; [by apply Hdone|lia]. }
      clear Hinner Hinv. intros q cols h3 u' h3' Hcols (C & -> & HC & Hdone) Hbody.
      cbn [fst snd] in Hbody. rewrite Hlen in Hbody.
      rewrite <- Hlen in Hbody.
      apply store_block_mean_Ok_inv in Hbody as (vals & Hvals & _ & ->).
      exists (set2 C p q (np_mean vals)). split_and!; [done|by apply has_shape_set2|].
      intros i j rws cls HD Hi Hj. rewrite get2_set2.
      destruct (decide (p = i ∧ q = j)) as [[<- <-]|Hne].
      - rewrite Hrows in Hi. rewrite Hcols in Hj. injection Hi as <-. injection Hj as <-.
        exists vals. split; [done|].
        assert (p < k) as Hp by (rewrite <- Hlen2; by eapply lookup_lt_Some).
        assert (q < k) as Hq by (rewrite <- Hlen2; by eapply lookup_lt_Some).
        by destruct (has_shape_get2 k k C p q HC Hp Hq) as [old ->].
      - apply Hdone; [|done..]. lia. }
    exists C. split_and!; [done..|].
    intros i j rws cls Hi Hri Hrj. apply Hdone; [|done..].
    apply lookup_lt_Some in Hrj. lia. }
  exists C. split_and!; [by rewrite Hlen|done|done|done|].
  intros i j ki kj Hi Hj.
  assert (is_Some (gp.*2 !! i)) as [rows Hri].
  { apply lookup_lt_is_Some. rewrite Hlen2. by eapply lookup_lt_Some. }
  assert (is_Some (gp.*2 !! j)) as [cols Hrj].
  { apply lookup_lt_is_Some. rewrite Hlen2. by eapply lookup_lt_Some. }
  destruct (Hrois i rows Hri) as (ki' & Hki' & ->).
  destruct (Hrois j cols Hrj) as (kj' & Hkj' & ->).
  rewrite Hi in Hki'. rewrite Hj in Hkj'. injection Hki' as <-. injection Hkj' as <-.
  apply (Hdone i j); [|done..]. by eapply lookup_lt_Some.
Qed.

(** X14.  What [anat_based_mean] computes for a plain square array [x] and
    no [xyz].  The labels are the values of the grouping column in the order
    in which they first appear in the table (no sorting, unlike
    [anat_based_reorder]).  The array returned is new, has one row and one
    column per label, and its entry for the labels [ki], [kj] is the mean
    that numpy takes ([np_mean]) of one value per row [i] of the table
    labelled [ki] and row [j] labelled [kj], the values listed row by row:
    a value that is, as a number, the entry of [x] that joins [i] and [j] in
    the upper triangle, [x[min(i, j), max(i, j)]], and zero for [i = j].
    The lower triangle and the diagonal of [x] are not read. *)
Theorem anat_based_mean_block_means
    (np_mean : list Q → Q) (ma_mean : list Q → list bool → Q) (pd_mean : list Q → Q)
    (h : store) (x df : loc) (col : string)
    (fill_with : Q) (n : nat) (A : list (list Q)) (d : DataFrame)
    (r : Correction.mean_result) (h' : store) :
  h !! x = Some (ONd (Arr2 A)) → has_shape n n A → h !! df = Some (OFrame d) →
  Correction.anat_based_mean np_mean ma_mean pd_mean x df col fill_with None h = (Ok r, h') →
  let column := Correction.column d col in
  let labels := Correction.uniques column in
  ∃ con C,
    r = Correction.Ret2 con labels
    ∧ h !! con = None
    ∧ h' !! con = Some (ONd (Arr2 C))
    ∧ has_shape (length labels) (length labels) C
    ∧ ∀ i j ki kj, labels !! i = Some ki → labels !! j = Some kj →
        ∃ vals, get2 C i j = Some (np_mean vals)
              ∧ Forall2 Qeq vals
                  ((λ p, upper_value A p.1 p.2)
                     <$> cartesian (Correction.positions ki column)
                           (Correction.positions kj column)).
Proof.
  intros Hx Hs Hdf Hrun column labels.
  destruct (anat_based_mean_plain_inv _ _ _ _ _ _ _ _ _ _ _ _ Hx Hdf Hrun)
    as (C & -> & -> & Hsq & HC & Hent).
  set (T := triu 0%Q (fill_diagonal A 0%Q)) in *.
  set (xs := Correction.np_add T (Correction.np_T T)) in *.
  assert (has_shape n n xs) as Hxs.
  { assert (has_shape n n T) by by apply has_shape_triu, has_shape_fill_diagonal.
    apply has_shape_zip_with; [done|]. by apply has_shape_transpose. }
  exists (S (length h)), C. split_and!; [done| | |done|].
  - apply lookup_ge_None. lia.
  - rewrite lookup_app_r; rewrite length_insert; [|lia].
    by replace (S (length h) - length h) with 1 by lia.
  - intros i j ki kj Hi Hj. destruct (Hent i j ki kj Hi Hj) as (vals & Hvals & Hget).
    exists vals. split; [done|].
    unfold Correction.block in Hvals.
    apply traverse_Ok_inv in Hvals. fold column in Hvals.
    apply Forall2_fmap_r, Forall2_flip. eapply Forall2_impl; [exact Hvals|].
    intros [a b] v Hv. simpl in *. unfold getitem2 in Hv.
    destruct (get2 xs a b) as [v'|] eqn:Hab; [|done]. injection Hv as ->.
    destruct (get2_lt n n xs a b v Hxs Hab) as [Ha Hb].
    destruct (mean_input_entry n A a b Hs Ha Hb) as (w & Hw & Heq).
    fold T in Hw. fold xs in Hw. rewrite Hab in Hw. injection Hw as <-. done.
Qed.

Lemma anat_based_mean_block_means_witness :
  let A := [[1; 2; 4]; [8; 16; 6]; [32; 64; 128]]%Q in
  let d := mkDataFrame 3 [("roi", [CStr "b"; CStr "a"; CStr "b"])] in
  let h := [ONd (Arr2 A); OFrame d] in
  ∃ con h' C vals,
    Correction.anat_based_mean exact_mean exact_ma_mean exact_mean 0 1 "roi" 0%Q None h
      = (Ok (Correction.Ret2 con [CStr "b"; CStr "a"]), h')
    ∧ h' !! con = Some (ONd (Arr2 C))
    ∧ get2 C 0 1 = Some (exact_mean vals) ∧ Forall2 Qeq vals [2; 6]%Q.
Proof.
  intros A d h.
  pose (res := Correction.anat_based_mean exact_mean exact_ma_mean exact_mean
                 0 1 "roi" 0%Q None h).
  assert (Correction.anat_based_mean exact_mean exact_ma_mean exact_mean
            0 1 "roi" 0%Q None h = res) as Hres by reflexivity.
  vm_compute in res. subst res.
  assert (h !! 0 = Some (ONd (Arr2 A))) as H0 by reflexivity.
  assert (has_shape 3 3 A) as H1 by (split; [reflexivity|repeat constructor]).
  assert (h !! 1 = Some (OFrame d)) as H2 by reflexivity.
  destruct (anat_based_mean_block_means exact_mean exact_ma_mean exact_mean
              h 0 1 "roi" 0%Q 3 A d _ _ H0 H1 H2 Hres)
    as (con & C & Hr & _ & HC & _ & Hent).
  injection Hr as <-.
  destruct (Hent 0 1 (CStr "b") (CStr "a") eq_refl eq_refl) as (vals & Hv & Heq).
  eexists _, _, C, vals. split_and!; [exact Hres|exact HC|exact Hv|exact Heq].
Defined.

(** X15.  What [anat_based_mean] refuses.  An [x] that is no 2-D numpy array
    and a column name that is not a column of the table raise
    [AssertionError] and leave the store as it was.  A plain 2-D [x] that is
    not square raises [ValueError] ([x += x.T] cannot broadcast), but only
    after the diagonal of the caller's [x] has been set to zero. *)
Theorem anat_based_mean_rejects
    (np_mean : list Q → Q) (ma_mean : list Q → list bool → Q) (pd_mean : list Q → Q)
    (h : store) (x df : loc) (col : string)
    (fill_with : Q) (xyz : option loc) (ox : obj) (d : DataFrame) :
  h !! x = Some ox → h !! df = Some (OFrame d) →
  (Correction.is_ndarray_of_ndim ox 2 = false →
     Correction.anat_based_mean np_mean ma_mean pd_mean x df col fill_with xyz h = (Raise AssertionError, h))
  ∧ (Correction.is_ndarray_of_ndim ox 2 = true → col ∉ (df_cols d).*1 →
     Correction.anat_based_mean np_mean ma_mean pd_mean x df col fill_with xyz h = (Raise AssertionError, h))
  ∧ (∀ A r c, ox = ONd (Arr2 A) → has_shape r c A → 0 < r → r ≠ c →
     col ∈ (df_cols d).*1 →
     ∃ h', Correction.anat_based_mean np_mean ma_mean pd_mean x df col fill_with xyz h = (Raise ValueError, h')
         ∧ h' !! x = Some (ONd (Arr2 (fill_diagonal A 0%Q)))).
Proof.
  intros Hx Hdf. unfold Correction.anat_based_mean.
  rewrite run_bind, (run_load _ _ _ Hx). split_and!.
  - intros ->. by mrun.
  - intros -> Hcol. mrun. rewrite Hdf. mrun.
    rewrite bool_decide_eq_false_2 by done. by mrun.
  - intros A r c -> Hs Hr Hrc Hcol. mrun. rewrite Hdf. mrun.
    rewrite bool_decide_eq_true_2 by done. mrun.
    assert (x < length h) as Hlt by by eapply lookup_lt_Some.
    rewrite list_lookup_insert_eq by done. mrun.
    unfold Correction.modify_plain2. mrun. rewrite lookup_app_0. mrun.
    unfold Correction.iadd_transpose.
    assert (has_shape r c (triu 0%Q (fill_diagonal A 0%Q))) as HT
      by by apply has_shape_triu, has_shape_fill_diagonal.
    destruct (has_shape_ncols _ _ _ HT) as [-> Hc]. rewrite (Hc Hr).
    rewrite (proj2 (Nat.eqb_neq r c)) by done. mrun.
    eexists. split; [done|].
    rewrite lookup_app_l by by rewrite length_insert.
    by apply list_lookup_insert_eq.
Qed.

Lemma anat_based_mean_rejects_witness :
  let A := [[1; 2; 3]; [4; 5; 6]]%Q in
  let d := mkDataFrame 2 [("roi", [CStr "a"; CStr "b"])] in
  let h := [ONd (Arr2 A); OFrame d] in
  Correction.anat_based_mean exact_mean exact_ma_mean exact_mean 0 1 "area" 0%Q None h = (Raise AssertionError, h)
  ∧ ∃ h', Correction.anat_based_mean exact_mean exact_ma_mean exact_mean 0 1 "roi" 0%Q None h = (Raise ValueError, h')
        ∧ h' !! 0 = Some (ONd (Arr2 [[0; 2; 3]; [4; 0; 6]]%Q)).
Proof.
  intros A d h.
  destruct (anat_based_mean_rejects exact_mean exact_ma_mean exact_mean h 0 1 "area" 0%Q None (ONd (Arr2 A)) d)
    as (_ & Hcol & _); [reflexivity|reflexivity|].
  destruct (anat_based_mean_rejects exact_mean exact_ma_mean exact_mean h 0 1 "roi" 0%Q None (ONd (Arr2 A)) d)
    as (_ & _ & Hsq); [reflexivity|reflexivity|].
  split.
  - apply Hcol; [reflexivity|]. simpl. rewrite list_elem_of_singleton. discriminate.
  - apply (Hsq A 2 3); [reflexivity| |lia|lia|simpl; by left].
    split; [reflexivity|repeat constructor].
Defined.

(** ** [covgc_time] *)

Lemma py_index_Ok n t j :
  Stgc.py_index n t = Ok j ↔
  (- Z.of_nat n ≤ t < Z.of_nat n)%Z ∧ j = Z.to_nat (t mod Z.of_nat n).
Proof.
  unfold Stgc.py_index. repeat case_bool_decide; split; try done.
  - intros [= <-]. split; [lia|]. by rewrite Z.mod_small by lia.
  - intros [_ ->]. by rewrite Z.mod_small by lia.
  - intros [= <-]. split; [lia|].
    rewrite <- (Z.mod_add t 1 (Z.of_nat n)) by lia. rewrite Z.mod_small by lia.
    f_equal. lia.
  - intros [_ ->].
    rewrite <- (Z.mod_add t 1 (Z.of_nat n)) by lia. rewrite Z.mod_small by lia.
    do 2 f_equal. lia.
  - intros [? _]. lia.
Qed.

Lemma py_index_outside n t :
  ¬ (- Z.of_nat n ≤ t < Z.of_nat n)%Z → Stgc.py_index n t = Raise IndexError.
Proof. intros ?. unfold Stgc.py_index. by rewrite !bool_decide_eq_false_2 by lia. Qed.

Lemma Forall2_get2 {A B} (P : A → B → Prop) (m : list (list A)) (e : list (list B)) i j a :
  Forall2 (Forall2 P) m e → get2 m i j = Some a → ∃ b, get2 e i j = Some b ∧ P a b.
Proof.
  intros HF Ha. unfold get2 in *.
  destruct (m !! i) as [mr|] eqn:Hm; [|done]. simpl in Ha.
  destruct (Forall2_lookup_l _ _ _ _ _ HF Hm) as (er & -> & Hrow). simpl.
  destruct (Forall2_lookup_l _ _ _ _ _ Hrow Ha) as (b & -> & Hb). eauto.
Qed.

Lemma Forall2_has_shape {A B} (P : A → B → Prop) r c (m : list (list A)) (e : list (list B)) :
  Forall2 (Forall2 P) m e → has_shape r c m → has_shape r c e.
Proof.
  intros HF [Hr Hc]. split; [by rewrite <- (Forall2_length _ _ _ HF)|].
  apply Forall_forall. intros er (i & Hi)%list_elem_of_lookup_1.
  destruct (Forall2_lookup_r _ _ _ _ _ HF Hi) as (mr & Hmr & Hrow).
  rewrite <- (Forall2_length _ _ _ Hrow).
  rewrite Forall_forall in Hc. apply Hc. by eapply list_elem_of_lookup_2.
Qed.

(** The window of samples [covgc_time] reads for a source. *)
Lemma embed_Ok_inv (x : list (list Q)) p dt lag t0 E :
  Stgc.embed x p (Stgc.ind_t dt lag t0) = Ok E →
  ∃ row, x !! p = Some row
    ∧ has_shape (S lag) dt E
    ∧ ∀ r c, r ≤ lag → c < dt →
        let t := (Z.of_nat t0 - Z.of_nat dt + Z.of_nat c - Z.of_nat r)%Z in
        (- Z.of_nat (length row) ≤ t < Z.of_nat (length row))%Z
        ∧ is_Some (get2 E r c)
        ∧ get2 E r c = row !! Z.to_nat (t mod Z.of_nat (length row)).
Proof.
  unfold Stgc.embed. intros H.
  destruct (x !! p) as [row|]; [|done]. exists row. split; [done|].
  change (traverse (traverse (λ t, j ← Stgc.py_index (length row) t;
                                   of_option IndexError (row !! j)))
            (Stgc.ind_t dt lag t0) = Ok E) in H.
  apply traverse_Ok_inv in H.
  assert (Forall2 (Forall2 (λ t e,
            (j ← Stgc.py_index (length row) t; of_option IndexError (row !! j)) = Ok e))
            (Stgc.ind_t dt lag t0) E) as HF.
  { eapply Forall2_impl; [exact H|]. intros tr er Htr. by apply traverse_Ok_inv in Htr. }
  clear H. split.
  - eapply Forall2_has_shape; [exact HF|]. apply has_shape_tabulate.
  - intros r c Hr Hc.
    set (t := (Z.of_nat t0 - Z.of_nat dt + Z.of_nat c - Z.of_nat r)%Z).
    assert (get2 (Stgc.ind_t dt lag t0) r c = Some t) as Ht.
    { unfold Stgc.ind_t. rewrite get2_tabulate by lia. done. }
    destruct (Forall2_get2 _ _ _ _ _ _ HF Ht) as (e & He & Hf).
    destruct (Stgc.py_index (length row) t) as [j|] eqn:Hj; [|done]. simpl in Hf.
    apply py_index_Ok in Hj as [Hrange ->].
    destruct (row !! _) as [e'|] eqn:He'; [|done]. injection Hf as ->.
    rewrite He. eauto.
Qed.

Lemma causality_Ok_length det_cov log cadd csub x_ y_ row :
  Stgc.causality det_cov log cadd csub x_ y_ = Ok row → length row = 3.
Proof.
  unfold Stgc.causality. intros H.
  repeat match type of H with
         | (?m ≫= _) = Ok _ => destruct m; [simpl in H|done]
         end.
  by injection H as <-.
Qed.

Section covgc_run.
Context (det_cov : list (list Q) → outcome spec_float)
        (log : spec_float → spec_float * spec_float)
        (cadd csub : spec_float * spec_float → spec_float * spec_float
                     → spec_float * spec_float)
        (np_abs : spec_float * spec_float → spec_float).

Lemma covgc_time_inv (h : list obj) x xm dt lag t0 gc pairs h' :
  h !! x = Some (ONd (Arr2 xm)) →
  Stgc.covgc_time det_cov log cadd csub np_abs x dt lag t0 h = (Ok (gc, pairs), h') →
  ∃ g,
    let P := np_c_ (triu_indices (nrows xm) 1) in
    pairs = length h ∧ gc = length h + 2
    ∧ h' !! pairs = Some (ONd (IntArr2 P))
    ∧ h' !! gc = Some (ONd (FloatArr2 g))
    ∧ length g = length P
    ∧ ∀ i p, P !! i = Some p →
        ∃ x_ y_ row,
          Stgc.embed xm p.1 (Stgc.ind_t dt lag t0) = Ok x_
          ∧ Stgc.embed xm p.2 (Stgc.ind_t dt lag t0) = Ok y_
          ∧ Stgc.causality det_cov log cadd csub x_ y_ = Ok row
          ∧ g !! i = Some (coerced_abs np_abs <$> row).
Proof.
  intros Hx H. unfold Stgc.covgc_time in H.
  bind_inv H as ox h1 Hs. apply load_Ok_inv in Hs as [Hox ->].
  rewrite Hx in Hox. injection Hox as <-.
  bind_inv H as a h1 Hs. apply lift_Ok_inv in Hs as [[= <-] ->].
  bind_inv H as n_so h1 Hs. apply ret_Ok_inv in Hs as [-> ->].
  set (P := np_c_ (triu_indices (nrows xm) 1)) in *.
  bind_inv H as lp h1 Hs. apply alloc_Ok_inv in Hs as [-> ->].
  bind_inv H as lgc h1 Hs. apply alloc_Ok_inv in Hs as [-> ->].
  rewrite <- (assoc_L (++)) in H. cbn [app] in H.
  rewrite length_app in H. cbn [length] in H.
  bind_inv H as u h1 Hloop.
  pose (I := λ (k : nat) (hh : list obj), ∃ m,
          hh = h ++ [ONd (IntArr2 P); ONd (CplxArr2 m)]
          ∧ length m = length P
          ∧ ∀ i p, i < k → P !! i = Some p →
              ∃ x_ y_ row,
                Stgc.embed xm p.1 (Stgc.ind_t dt lag t0) = Ok x_
                ∧ Stgc.embed xm p.2 (Stgc.ind_t dt lag t0) = Ok y_
                ∧ Stgc.causality det_cov log cadd csub x_ y_ = Ok row
                ∧ m !! i = Some row).
  assert (I (length P) h1) as (m & -> & Hlen & Hrows).
  { eapply (for_each_enumerate_inv I); cycle 2; [exact Hloop| |].
    2:{ exists (full (length P) 3 Stgc.czero). split_and!.
        - done.
        - unfold full. by rewrite length_replicate.
        - intros; lia. }
    clear Hloop. intros k p hh u' hh' Hp (m & -> & Hlen & Hrows) Hbody.
    simpl in Hbody.
    bind_inv Hbody as xm' hx Hs. unfold Stgc.load_plain2 in Hs.
    bind_inv Hs as o hy Hl. apply load_Ok_inv in Hl as [Ho ->].
    rewrite lookup_app_l in Ho by by eapply lookup_lt_Some.
    rewrite Hx in Ho. injection Ho as <-.
    bind_inv Hs as a hy Hl. apply lift_Ok_inv in Hl as [[= <-] ->].
    apply ret_Ok_inv in Hs as [-> ->].
    bind_inv Hbody as x_ hx Hs. apply lift_Ok_inv in Hs as [Hx_ ->].
    bind_inv Hbody as y_ hx Hs. apply lift_Ok_inv in Hs as [Hy_ ->].
    bind_inv Hbody as row hx Hs. apply lift_Ok_inv in Hs as [Hrow ->].
    bind_inv Hbody as o hx Hs. apply load_Ok_inv in Hs as [Ho ->].
    rewrite (lookup_app_plus h _ 1) in Ho. injection Ho as <-.
    apply update_Ok_inv in Hbody as ->.
    exists (<[k := row]> m). split_and!.
    - rewrite insert_app_r_alt by lia.
      by replace (length h + 1 - length h) with 1 by lia.
    - by rewrite length_insert.
    - intros i q Hi Hq. destruct (decide (i = k)) as [->|Hne].
      + rewrite Hp in Hq. injection Hq as <-. exists x_, y_, row.
        split_and!; [done..|]. apply list_lookup_insert_eq.
        rewrite Hlen. by eapply lookup_lt_Some.
      + rewrite list_lookup_insert_ne by done. apply Hrows; [lia|done]. }
  clear Hloop.
  bind_inv H as o h1 Hs. apply load_Ok_inv in Hs as [Ho ->].
  rewrite (lookup_app_plus h _ 1) in Ho. injection Ho as <-.
  bind_inv H as m' h1 Hs. apply ret_Ok_inv in Hs as [-> ->].
  bind_inv H as gc_real h1 Hs. apply alloc_Ok_inv in Hs as [-> ->].
  rewrite <- (assoc_L (++)) in H. cbn [app] in H.
  rewrite length_app in H. cbn [length] in H.
  bind_inv H as u' h1 Hco. apply ret_Ok_inv in H as [[= -> ->] ->].
  cbn [for_each] in Hco.
  bind_inv Hco as u1 h2 H1.
  bind_inv H1 as o1 h3 Hl. apply load_Ok_inv in Hl as [Hl ->].
  rewrite (lookup_app_plus h _ 2) in Hl. injection Hl as <-.
  apply update_Ok_inv in H1 as ->.
  rewrite insert_app_r_alt in Hco by lia.
  replace (length h + 2 - length h) with 2 in Hco by lia. cbn [insert list_insert] in Hco.
  bind_inv Hco as u2 h2 H2.
  bind_inv H2 as o2 h3 Hl. apply load_Ok_inv in Hl as [Hl ->].
  rewrite (lookup_app_plus h _ 2) in Hl. injection Hl as <-.
  apply update_Ok_inv in H2 as ->.
  apply ret_Ok_inv in Hco as [_ ->].
  rewrite insert_app_r_alt by lia.
  replace (length h + 2 - length h) with 2 by lia. cbn [insert list_insert].
  eexists. split_and!; [done|done| | | |].
  - by rewrite lookup_app_0.
  - by rewrite (lookup_app_plus h _ 2).
  - by rewrite !length_fmap.
  - intros i p Hp. destruct (Hrows i p) as (x_ & y_ & row & Hx_ & Hy_ & Hrow & Hm);
      [by eapply lookup_lt_Some|done|].
    exists x_, y_, row. split_and!; [done..|].
    rewrite !list_lookup_fmap, Hm. simpl. f_equal.
    rewrite <- !list_fmap_compose. apply list_fmap_ext. intros _ z _. simpl.
    unfold coerced_abs. by destruct (np_abs z).
Qed.
End covgc_run.

(** X16.  What [covgc_time] returns for a plain 2-D array of [n_so] sources.
    The pairs array lists the pairs [(a, b)] with [a < b] in row-major
    order; [gc] has one row of three values per pair.  The row of the pair
    [(a, b)] is computed from the windows of source [a] (as [x_]) and of
    source [b] (as [y_]): row [r] of a window holds the [dt] samples that end
    [r] samples before [t0], and a position below zero is not refused but
    read from the end of the series.  Every value is the magnitude of the
    complex causality, with zero in place of an infinite or NaN magnitude. *)
Theorem covgc_time_rows
    (det_cov : list (list Q) → outcome spec_float)
    (log : spec_float → spec_float * spec_float)
    (cadd csub : spec_float * spec_float → spec_float * spec_float
                 → spec_float * spec_float)
    (np_abs : spec_float * spec_float → spec_float)
    (h : store) (x : loc) (xm : list (list Q)) (n_so n_ti dt lag t0 : nat)
    (gc pairs : loc) (h' : store) :
  h !! x = Some (ONd (Arr2 xm)) → has_shape n_so n_ti xm →
  Stgc.covgc_time det_cov log cadd csub np_abs x dt lag t0 h = (Ok (gc, pairs), h') →
  ∃ g,
    h' !! pairs = Some (ONd (IntArr2 (upper_pairs n_so)))
    ∧ h' !! gc = Some (ONd (FloatArr2 g))
    ∧ length g = n_so * (n_so - 1) / 2
    ∧ ∀ i a b, upper_pairs n_so !! i = Some (a, b) →
        ∃ xa xb x_ y_ row,
          xm !! a = Some xa ∧ xm !! b = Some xb
          ∧ is_window dt lag t0 xa x_ ∧ is_window dt lag t0 xb y_
          ∧ Stgc.causality det_cov log cadd csub x_ y_ = Ok row
          ∧ length row = 3
          ∧ g !! i = Some (coerced_abs np_abs <$> row).
Proof.
  intros Hx Hs Hrun.
  destruct (covgc_time_inv _ _ _ _ _ _ _ _ _ _ _ _ _ _ Hx Hrun)
    as (g & -> & -> & Hpairs & Hgc & Hlen & Hrows).
  destruct Hs as [Hn Hcols]. unfold nrows in *. rewrite Hn in *.
  fold (upper_pairs n_so) in *.
  exists g. split_and!; [done|done|by rewrite Hlen, length_upper_pairs|].
  intros i a b Hi.
  destruct (Hrows i (a, b) Hi) as (x_ & y_ & row & Hx_ & Hy_ & Hrow & Hg).
  destruct (embed_Ok_inv _ _ _ _ _ _ Hx_) as (xa & Hxa & Hsx & Hwx).
  destruct (embed_Ok_inv _ _ _ _ _ _ Hy_) as (xb & Hxb & Hsy & Hwy).
  exists xa, xb, x_, y_, row.
  split_and!; [done|done|by split|by split|done| |done].
  by eapply causality_Ok_length.
Qed.

Lemma covgc_time_rows_witness :
  let det_cov := λ _ : list (list Q), Ok (S754_finite false 1 0) in
  let log := λ v : spec_float, (v, Stgc.fzero) in
  let cadd := λ a b : spec_float * spec_float, a in
  let csub := λ a b : spec_float * spec_float, (S754_infinity true, Stgc.fzero) in
  let np_abs := λ z : spec_float * spec_float, SFabs z.1 in
  let xm := [[1; 2; 3; 4]; [5; 6; 7; 8]]%Q in
  let h := [ONd (Arr2 xm)] in
  ∃ gc pairs h' g x_,
    Stgc.covgc_time det_cov log cadd csub np_abs 0 2 1 1 h = (Ok (gc, pairs), h')
    ∧ h' !! pairs = Some (ONd (IntArr2 [(0, 1)]))
    ∧ h' !! gc = Some (ONd (FloatArr2 g)) ∧ length g = 1
    ∧ is_window 2 1 1 [1; 2; 3; 4]%Q x_
    ∧ get2 x_ 0 0 = Some 4%Q ∧ get2 x_ 1 0 = Some 3%Q.
Proof.
  intros det_cov log cadd csub np_abs xm h.
  pose (res := Stgc.covgc_time det_cov log cadd csub np_abs 0 2 1 1 h).
  assert (Stgc.covgc_time det_cov log cadd csub np_abs 0 2 1 1 h = res) as Hres
    by reflexivity.
  vm_compute in res. subst res.
  assert (h !! 0 = Some (ONd (Arr2 xm))) as H0 by reflexivity.
  assert (has_shape 2 4 xm) as H1 by (split; [reflexivity|repeat constructor]).
  destruct (covgc_time_rows det_cov log cadd csub np_abs h 0 xm 2 4 2 1 1 _ _ _ H0 H1 Hres)
    as (g & Hp & Hg & Hlen & Hrows).
  destruct (Hrows 0 0 1 eq_refl) as (xa & xb & x_ & y_ & row & Hxa & _ & Hwx & _).
  injection Hxa as <-.
  eexists _, _, _, g, x_. split_and!; [exact Hres|exact Hp|exact Hg|exact Hlen|exact Hwx|..].
  - destruct Hwx as [_ Hw]. destruct (Hw 0 0) as (_ & _ & ->); [lia|lia|]. reflexivity.
  - destruct Hwx as [_ Hw]. destruct (Hw 1 0) as (_ & _ & ->); [lia|lia|]. reflexivity.
Defined.

Lemma traverse_raise {A B} (f : A → outcome B) (l : list A) (e : exn) :
  (∀ a, a ∈ l → (∃ b, f a = Ok b) ∨ f a = Raise e) →
  (∃ a, a ∈ l ∧ f a = Raise e) →
  traverse f l = Raise e.
Proof.
  induction l as [|a l IH]; intros Hall (a0 & Hin & Hbad).
  - by apply elem_of_nil in Hin.
  - simpl. destruct (Hall a) as [[b Hb]|Hb]; [left| |by rewrite Hb]. rewrite Hb. simpl.
    rewrite IH; [done| |].
    + intros a' Ha'. apply Hall. by right.
    + apply elem_of_cons in Hin as [->|Hin]; [congruence|eauto].
Qed.

Lemma embed_outside (x : list (list Q)) p row dt lag t0 :
  x !! p = Some row → 0 < dt →
  length row < t0 ∨ t0 + length row < dt + lag →
  Stgc.embed x p (Stgc.ind_t dt lag t0) = Raise IndexError.
Proof.
  intros Hrow Hdt Hout. unfold Stgc.embed. rewrite Hrow.
  change (traverse (traverse (λ t, j ← Stgc.py_index (length row) t;
                                   of_option IndexError (row !! j)))
            (Stgc.ind_t dt lag t0) = Raise IndexError).
  set (f := λ t, j ← Stgc.py_index (length row) t; of_option IndexError (row !! j)).
  assert (∀ t, (∃ b, f t = Ok b) ∨ f t = Raise IndexError) as Hf.
  { intros t. unfold f. destruct (Stgc.py_index (length row) t) as [j|e] eqn:Hj.
    - simpl. destruct (row !! j); eauto.
    - right. unfold Stgc.py_index in Hj. by repeat case_bool_decide; simplify_eq. }
  assert (∀ tr, (∃ b, traverse f tr = Ok b) ∨ traverse f tr = Raise IndexError) as Hrows.
  { induction tr as [|t tr IH]; [left; by eexists|]. simpl.
    destruct (Hf t) as [[b ->]| ->]; [|by right]. simpl.
    destruct IH as [[bs ->]| ->]; [left; by eexists|by right]. }
  apply traverse_raise; [auto|].
  assert (∃ r c, r ≤ lag ∧ c < dt
            ∧ ¬ (- Z.of_nat (length row)
                 ≤ Z.of_nat t0 - Z.of_nat dt + Z.of_nat c - Z.of_nat r
                 < Z.of_nat (length row))%Z) as (r & c & Hr & Hc & Hbad).
  { destruct Hout; [exists 0, (dt - 1)|exists lag, 0]; split_and!; lia. }
  exists ((λ c, (Z.of_nat t0 - Z.of_nat dt + Z.of_nat c - Z.of_nat r)%Z) <$> seq 0 dt).
  split.
  - unfold Stgc.ind_t, tabulate. apply list_elem_of_fmap. exists r. split; [done|].
    apply elem_of_seq. lia.
  - apply traverse_raise; [auto|]. eexists. split.
    + apply list_elem_of_fmap. exists c. split; [done|]. apply elem_of_seq. lia.
    + unfold f. by rewrite py_index_outside.
Qed.

(** X17.  A window that does not fit: with at least two sources and a window
    of at least one sample, [covgc_time] raises [IndexError] when the window
    ends after the last sample ([t0 > n_ti]) or starts more than [n_ti]
    samples before the first one ([t0 - dt - lag < -n_ti]).  The pairs array
    and the zero-filled complex array have been created by then; the input
    is untouched. *)
Theorem covgc_time_window_outside
    (det_cov : list (list Q) → outcome spec_float)
    (log : spec_float → spec_float * spec_float)
    (cadd csub : spec_float * spec_float → spec_float * spec_float
                 → spec_float * spec_float)
    (np_abs : spec_float * spec_float → spec_float)
    (h : store) (x : loc) (xm : list (list Q)) (n_so n_ti dt lag t0 : nat) :
  h !! x = Some (ONd (Arr2 xm)) → has_shape n_so n_ti xm →
  2 ≤ n_so → 0 < dt →
  n_ti < t0 ∨ t0 + n_ti < dt + lag →
  Stgc.covgc_time det_cov log cadd csub np_abs x dt lag t0 h
  = (Raise IndexError,
     h ++ [ONd (IntArr2 (upper_pairs n_so));
           ONd (CplxArr2 (full (n_so * (n_so - 1) / 2) 3 Stgc.czero))]).
Proof.
  intros Hx Hs Hn Hdt Hout. unfold Stgc.covgc_time.
  rewrite run_bind, (run_load _ _ _ Hx). mrun.
  destruct (has_shape_ncols _ _ _ Hs) as [Hr _]. rewrite Hr.
  fold (upper_pairs n_so). rewrite length_upper_pairs.
  destruct (upper_pairs n_so) as [|[a b] P] eqn:HP.
  { assert ((0, 1) ∈ upper_pairs n_so) as Hin by (apply elem_of_upper_pairs; lia).
    rewrite HP in Hin. by apply elem_of_nil in Hin. }
  assert ((a, b) ∈ upper_pairs n_so) as Hab by (rewrite HP; left).
  apply elem_of_upper_pairs in Hab as [Hab Hb].
  destruct (lookup_lt_is_Some_2 xm a) as [row Hrow]; [destruct Hs; lia|].
  assert (length row = n_ti) as Hlen.
  { destruct Hs as [_ Hc]. rewrite Forall_forall in Hc. apply Hc.
    by eapply list_elem_of_lookup_2. }
  unfold enumerate. cbn [length seq zip zip_with for_each]. mrun.
  unfold Stgc.load_plain2. mrun.
  rewrite lookup_app_l by (rewrite length_app; simpl; apply lookup_lt_Some in Hx; lia).
  rewrite lookup_app_l by by eapply lookup_lt_Some.
  rewrite Hx. mrun.
  rewrite (embed_outside xm a row) by (rewrite ?Hlen; done). mrun.
  by rewrite <- (assoc_L (++)).
Qed.

Lemma covgc_time_window_outside_witness :
  let det_cov := λ _ : list (list Q), Ok (S754_finite false 1 0) in
  let log := λ v : spec_float, (v, Stgc.fzero) in
  let cadd := λ a b : spec_float * spec_float, a in
  let csub := λ a b : spec_float * spec_float, a in
  let np_abs := λ z : spec_float * spec_float, SFabs z.1 in
  let xm := [[1; 2; 3; 4]; [5; 6; 7; 8]]%Q in
  let h := [ONd (Arr2 xm)] in
  Stgc.covgc_time det_cov log cadd csub np_abs 0 2 1 5 h
  = (Raise IndexError,
     h ++ [ONd (IntArr2 (upper_pairs 2));
           ONd (CplxArr2 (full (2 * (2 - 1) / 2) 3 Stgc.czero))]).
Proof.
  intros det_cov log cadd csub np_abs xm h.
  apply (covgc_time_window_outside det_cov log cadd csub np_abs h 0 xm 2 4 2 1 5).
  - reflexivity.
  - split; [reflexivity|repeat constructor].
  - lia.
  - lia.
  - left. lia.
Defined.

(** X18.  Edge inputs of [covgc_time].  An array that has not two
    dimensions raises [ValueError] (its shape cannot be unpacked into
    [n_so, n_ti]) and leaves the store as it was.  With fewer than two
    sources there is no pair: the call returns an empty [gc] and an empty
    pairs array, whatever [dt], [lag] and [t0] are, and reads no sample. *)
Theorem covgc_time_edge_inputs
    (det_cov : list (list Q) → outcome spec_float)
    (log : spec_float → spec_float * spec_float)
    (cadd csub : spec_float * spec_float → spec_float * spec_float
                 → spec_float * spec_float)
    (np_abs : spec_float * spec_float → spec_float)
    (h : store) (x : loc) (a : ndarray) (dt lag t0 : nat) :
  h !! x = Some (ONd a) →
  (ndim a ≠ 2 →
     Stgc.covgc_time det_cov log cadd csub np_abs x dt lag t0 h = (Raise ValueError, h))
  ∧ (∀ n_so n_ti, shape a = [n_so; n_ti] → n_so ≤ 1 →
     Stgc.covgc_time det_cov log cadd csub np_abs x dt lag t0 h
     = (Ok (length h + 2, length h),
        h ++ [ONd (IntArr2 []); ONd (CplxArr2 []); ONd (FloatArr2 [])])).
Proof.
  intros Hx. unfold Stgc.covgc_time. rewrite run_bind, (run_load _ _ _ Hx). mrun. split.
  - unfold ndim. intros Hnd. by destruct (shape a) as [|? [|? [|]]].
  - intros n_so n_ti -> Hn. mrun.
    assert (triu_indices n_so 1 = ([], [])) as ->.
    { by destruct n_so as [|[|]]; [..|lia]. }
    mrun. rewrite lookup_app_0. mrun.
    rewrite lookup_app_0. mrun.
    rewrite insert_app_r_alt, Nat.sub_diag by lia. cbn [insert list_insert].
    rewrite lookup_app_0. mrun.
    rewrite insert_app_r_alt, Nat.sub_diag by lia. cbn [insert list_insert].
    rewrite !length_app. simpl. rewrite <- !(assoc_L (++)). simpl.
    do 3 f_equal. lia.
Qed.

Lemma covgc_time_edge_inputs_witness :
  let det_cov := λ _ : list (list Q), Raise LinAlgError in
  let log := λ v : spec_float, (v, Stgc.fzero) in
  let cadd := λ a b : spec_float * spec_float, a in
  let csub := λ a b : spec_float * spec_float, a in
  let np_abs := λ z : spec_float * spec_float, SFabs z.1 in
  let h := [ONd (Arr1 [1; 2; 3]%Q); ONd (Arr2 [[1; 2; 3]]%Q)] in
  Stgc.covgc_time det_cov log cadd csub np_abs 0 2 1 3 h = (Raise ValueError, h)
  ∧ Stgc.covgc_time det_cov log cadd csub np_abs 1 2 1 9 h
    = (Ok (4, 2), h ++ [ONd (IntArr2 []); ONd (CplxArr2 []); ONd (FloatArr2 [])]).
Proof.
  intros det_cov log cadd csub np_abs h. split.
  - apply (covgc_time_edge_inputs det_cov log cadd csub np_abs h 0 (Arr1 [1; 2; 3]%Q) 2 1 3);
      [reflexivity|]. unfold ndim. simpl. discriminate.
  - destruct (covgc_time_edge_inputs det_cov log cadd csub np_abs h 1
                (Arr2 [[1; 2; 3]]%Q) 2 1 9) as [_ H]; [reflexivity|].
    apply (H 1 3); [reflexivity|lia].
Defined.

(** ** [defClf] and [defCv] *)

Lemma lower_char_idemp c :
  Classification.lower_char (Classification.lower_char c) = Classification.lower_char c.
Proof. by destruct c as [[] [] [] [] [] [] [] []]. Qed.

Lemma lower_idemp s : Classification.lower (Classification.lower s) = Classification.lower s.
Proof. induction s as [|c s IH]; simpl; [done|]. by rewrite lower_char_idemp, IH. Qed.

Lemma classes_nonempty (y : list Z) : y ≠ [] → (length (remove_dups y) =? 0) = false.
Proof.
  intros Hy. apply Nat.eqb_neq. destruct y as [|x y]; [done|].
  assert (x ∈ remove_dups (x :: y)) as Hin by (apply elem_of_remove_dups; left).
  destruct (remove_dups (x :: y)); [by apply elem_of_nil in Hin|done].
Qed.

(** X19.  The names of [defClf].  An integer code from 0 to 8 and the name
    at that place of the list (lda, svm, linearsvm, nusvm, nb, knn, rf, lr,
    qda) give the same classifier object with the same descriptions; a name
    is read without regard to letter case; and the argument [priors] has no
    effect: for 'lda' the priors are always uniform over the classes of
    [y]. *)
Theorem defClf_names_and_codes {P : Type} (y : list Z) (kern : string)
    (n_knn n_tree : Z) (priors : P) :
  (∀ code name, (code, name) ∈ classifier_codes →
     Classification.defClf y (Classification.ClfInt code) kern n_knn n_tree priors
     = Classification.defClf y (Classification.ClfStr name) kern n_knn n_tree priors)
  ∧ (∀ s,
       Classification.defClf y (Classification.ClfStr s) kern n_knn n_tree priors
       = Classification.defClf y (Classification.ClfStr (Classification.lower s))
           kern n_knn n_tree priors)
  ∧ (∀ (P' : Type) (priors' : P') clf,
       Classification.defClf y clf kern n_knn n_tree priors
       = Classification.defClf y clf kern n_knn n_tree priors')
  ∧ (y ≠ [] →
     ∃ o, Classification.defClf y (Classification.ClfStr "LDA") kern n_knn n_tree priors
          = inr o
        ∧ Classification.clf_estimator o
          = Classification.LinearDiscriminantAnalysis
              (replicate (length (remove_dups y))
                 (1 / inject_Z (Z.of_nat (length (remove_dups y))))%Q)).
Proof.
  split_and!.
  - intros code name Hin. unfold classifier_codes in Hin.
    repeat (apply elem_of_cons in Hin as [[= -> ->]|Hin];
            [unfold Classification.defClf; by destruct (_ =? 0)|]).
    by apply elem_of_nil in Hin.
  - intros s. unfold Classification.defClf. by rewrite lower_idemp.
  - done.
  - intros Hy. unfold Classification.defClf. rewrite (classes_nonempty y Hy).
    eexists. split; reflexivity.
Qed.

Lemma defClf_names_and_codes_witness :
  Classification.defClf [1; 2; 1; 2]%Z (Classification.ClfInt 5) "rbf" 10 100 false
  = Classification.defClf [1; 2; 1; 2]%Z (Classification.ClfStr "KNN") "rbf" 10 100 false
  ∧ ∃ o, Classification.defClf [1; 2; 1; 2]%Z (Classification.ClfStr "LDA") "rbf" 10 100 false
         = inr o
       ∧ Classification.clf_estimator o
         = Classification.LinearDiscriminantAnalysis [1 / 2; 1 / 2]%Q.
Proof.
  destruct (defClf_names_and_codes [1; 2; 1; 2]%Z "rbf" 10 100 false)
    as (Hcode & Hcase & _ & Hlda).
  split.
  - rewrite (Hcase "KNN"). apply Hcode. unfold classifier_codes.
    do 5 right. left.
  - destruct Hlda as (o & Ho & Hest); [discriminate|]. exists o. split; [exact Ho|].
    rewrite Hest. reflexivity.
Defined.

(** X20.  When [defClf] raises.  For an empty label vector it raises
    [ZeroDivisionError] whatever [clf] is (the default priors divide by the
    number of classes).  Otherwise it returns a classifier exactly when
    [clf] is a code from 0 to 8 or, in any letter case, one of the nine
    names; any other [clf] raises [ValueError] with a message that quotes
    [clf], a name being shown in lower case. *)
Theorem defClf_raises {P : Type} (y : list Z) (clf : Classification.clf_name)
    (kern : string) (n_knn n_tree : Z) (priors : P) :
  (y = [] →
     Classification.defClf y clf kern n_knn n_tree priors
     = inl Classification.ZeroDivisionError)
  ∧ (y ≠ [] → known_clf clf →
     ∃ o, Classification.defClf y clf kern n_knn n_tree priors = inr o)
  ∧ (y ≠ [] → ¬ known_clf clf →
     Classification.defClf y clf kern n_knn n_tree priors
     = inl (Classification.ValueErrorWith
              ("No classifier " ++ Classification.dquote
               ++ match clf with
                  | Classification.ClfStr s => Classification.lower s
                  | Classification.ClfInt i => Classification.str i
                  end
               ++ Classification.dquote ++ Classification.dquote ++ " found"))).
Proof.
  split_and!.
  - by intros ->.
  - intros Hy Hknown. unfold Classification.defClf. rewrite (classes_nonempty y Hy).
    destruct clf as [s|i]; simpl in Hknown.
    + unfold classifier_codes in Hknown. simpl in Hknown.
      repeat (apply elem_of_cons in Hknown as [->|Hknown]; [by eexists|]).
      by apply elem_of_nil in Hknown.
    + assert (i = 0 ∨ i = 1 ∨ i = 2 ∨ i = 3 ∨ i = 4 ∨ i = 5 ∨ i = 6 ∨ i = 7 ∨ i = 8)%Z
        as Hi by lia.
      repeat (destruct Hi as [->|Hi]; [by eexists|]). subst. by eexists.
  - intros Hy Hunknown. unfold Classification.defClf. rewrite (classes_nonempty y Hy).
    destruct clf as [s|i]; simpl in Hunknown; unfold Classification.clf_is.
    + unfold classifier_codes in Hunknown. simpl in Hunknown.
      rewrite !elem_of_cons, elem_of_nil in Hunknown.
      rewrite !bool_decide_eq_false_2 by tauto. done.
    + rewrite !bool_decide_eq_false_2 by lia. done.
Qed.

Lemma defClf_raises_witness :
  Classification.defClf [] (Classification.ClfStr "lda") "rbf" 10 100 false
  = inl Classification.ZeroDivisionError
  ∧ (∃ o, Classification.defClf [0; 1]%Z (Classification.ClfStr "QDA") "rbf" 10 100 false
          = inr o)
  ∧ Classification.defClf [0; 1]%Z (Classification.ClfStr "Tree") "rbf" 10 100 false
    = inl (Classification.ValueErrorWith
             ("No classifier " ++ Classification.dquote ++ "tree"
              ++ Classification.dquote ++ Classification.dquote ++ " found"))
  ∧ Classification.defClf [0; 1]%Z (Classification.ClfInt 9) "rbf" 10 100 false
    = inl (Classification.ValueErrorWith
             ("No classifier " ++ Classification.dquote ++ "9"
              ++ Classification.dquote ++ Classification.dquote ++ " found")).
Proof.
  split_and!.
  - apply (defClf_raises [] (Classification.ClfStr "lda") "rbf" 10 100 false). reflexivity.
  - apply (defClf_raises [0; 1]%Z (Classification.ClfStr "QDA") "rbf" 10 100 false).
    + discriminate.
    + simpl. unfold classifier_codes. simpl. do 8 right. left.
  - destruct (defClf_raises [0; 1]%Z (Classification.ClfStr "Tree") "rbf" 10 100 false)
      as (_ & _ & H).
    apply H; [discriminate|].
    simpl. unfold classifier_codes. simpl.
    rewrite !elem_of_cons, elem_of_nil. intros H'.
    repeat (destruct H' as [H'|H']; [discriminate H'|]). exact H'.
  - destruct (defClf_raises [0; 1]%Z (Classification.ClfInt 9) "rbf" 10 100 false)
      as (_ & _ & H).
    apply H; [discriminate|]. simpl. lia.
Defined.

Lemma collect_inr_inv {E A B} (f : A → E + B) (l : list A) (bs : list B) :
  Classification.collect f l = inr bs → Forall2 (λ a b, f a = inr b) l bs.
Proof.
  revert bs. induction l as [|a l IH]; intros bs H; simpl in H.
  - injection H as <-. constructor.
  - destruct (f a) as [e|b] eqn:Hb; [done|]. simpl in H.
    destruct (Classification.collect f l) as [e|bs']; [done|]. simpl in H.
    injection H as <-. constructor; [done|]. by apply IH.
Qed.

(** X21.  [defCv] builds one cross-validation object per repetition.  With
    [rep <= 0] it returns the empty list, even for an unknown [cvtype].
    With [rep >= 1], a [cvtype] other than 'skfold', 'kfold', 'sss', 'ss'
    (in exactly this spelling) raises [ValueError], and 'sss' or 'ss' with
    [n_folds = 0] raises [ZeroDivisionError] before any object is built.
    When it returns, the list has [rep] objects and the [k]-th one is what
    [_define] builds with the random state [k]: the argument [rndstate] of
    [defCv] has no effect.  For 'skfold' the [k]-th object is
    [StratifiedKFold(y, n_folds, shuffle=True, random_state=k)]. *)
Theorem defCv_spec {cv E : Type} (construct : Classification.cv_call → E + cv)
    (y : list Z) (cvtype : string) (n_folds rndstate rep : Z) :
  ((rep ≤ 0)%Z →
     Classification.defCv construct y cvtype n_folds rndstate rep = inr [])
  ∧ ((0 < rep)%Z → ¬ known_cvtype cvtype →
     Classification.defCv construct y cvtype n_folds rndstate rep
     = inl (Classification.Raised
              (Classification.ValueErrorWith
                 ("No cross-validation " ++ Classification.dquote ++ cvtype
                  ++ Classification.dquote ++ Classification.dquote ++ " found"))))
  ∧ ((0 < rep)%Z → cvtype = "sss" ∨ cvtype = "ss" → n_folds = 0%Z →
     Classification.defCv construct y cvtype n_folds rndstate rep
     = inl (Classification.Raised Classification.ZeroDivisionError))
  ∧ (∀ cvs,
       Classification.defCv construct y cvtype n_folds rndstate rep = inr cvs →
       length cvs = Z.to_nat rep
       ∧ ∀ k o, cvs !! k = Some o →
           Classification._define construct y cvtype n_folds (Z.of_nat k) rep = inr o
           ∧ (cvtype = "skfold" →
              construct (Classification.StratifiedKFold y n_folds true (Z.of_nat k))
              = inr (Classification.cv_object o)))
  ∧ (∀ rndstate',
       Classification.defCv construct y cvtype n_folds rndstate rep
       = Classification.defCv construct y cvtype n_folds rndstate' rep).
Proof.
  unfold Classification.defCv. split_and!.
  - intros Hrep. by rewrite seqZ_nil.
  - intros Hrep Hunknown. rewrite seqZ_cons by done. simpl.
    unfold Classification._define, known_cvtype in *.
    rewrite !elem_of_cons, elem_of_nil in Hunknown.
    rewrite !bool_decide_eq_false_2 by tauto. done.
  - intros Hrep Hcv ->. rewrite seqZ_cons by done. simpl.
    by destruct Hcv as [-> | ->].
  - intros cvs Hcvs. apply collect_inr_inv in Hcvs. split.
    + by rewrite <- (Forall2_length _ _ _ Hcvs), length_seqZ.
    + intros k o Hk.
      destruct (Forall2_lookup_r _ _ _ _ _ Hcvs Hk) as (a & Ha & Hdef).
      apply lookup_seqZ in Ha as [-> _]. rewrite Z.add_0_l in Hdef.
      split; [done|]. intros ->. unfold Classification._define in Hdef. simpl in Hdef.
      unfold Classification.built in Hdef.
      destruct (construct _) as [e|obj]; [done|]. by injection Hdef as <-.
  - done.
Qed.

Lemma defCv_spec_witness :
  let construct := λ c : Classification.cv_call,
    match c with
    | Classification.KFold n n_folds _ _ =>
        if bool_decide (Z.of_nat n < n_folds)%Z then inl ValueError else inr c
    | _ => inr c
    end in
  Classification.defCv construct [0; 1; 0; 1]%Z "SKFOLD" 2 0 3
  = inl (Classification.Raised
           (Classification.ValueErrorWith
              ("No cross-validation " ++ Classification.dquote ++ "SKFOLD"
               ++ Classification.dquote ++ Classification.dquote ++ " found")))
  ∧ Classification.defCv construct [0; 1; 0; 1]%Z "SKFOLD" 2 0 0 = inr []
  ∧ Classification.defCv construct [0; 1; 0; 1]%Z "ss" 0 0 3
    = inl (Classification.Raised Classification.ZeroDivisionError)
  ∧ ∃ cvs o, Classification.defCv construct [0; 1; 0; 1]%Z "skfold" 2 7 3 = inr cvs
      ∧ length cvs = 3 ∧ cvs !! 2 = Some o
      ∧ Classification.cv_object o = Classification.StratifiedKFold [0; 1; 0; 1]%Z 2 true 2.
Proof.
  intros construct. split_and!.
  - destruct (defCv_spec construct [0; 1; 0; 1]%Z "SKFOLD" 2 0 3) as (_ & H & _).
    apply H; [lia|]. unfold known_cvtype. rewrite !elem_of_cons, elem_of_nil.
    intros H'. repeat (destruct H' as [H'|H']; [discriminate H'|]). exact H'.
  - destruct (defCv_spec construct [0; 1; 0; 1]%Z "SKFOLD" 2 0 0) as (H & _).
    apply H. lia.
  - destruct (defCv_spec construct [0; 1; 0; 1]%Z "ss" 0 0 3) as (_ & _ & H & _).
    apply H; [lia|by right|reflexivity].
  - destruct (defCv_spec construct [0; 1; 0; 1]%Z "skfold" 2 7 3) as (_ & _ & _ & H & _).
    pose (res := Classification.defCv construct [0; 1; 0; 1]%Z "skfold" 2 7 3).
    assert (Classification.defCv construct [0; 1; 0; 1]%Z "skfold" 2 7 3 = res) as Hres
      by reflexivity.
    vm_compute in res.
    destruct res as [e|cvs] eqn:Heq; [discriminate Heq|]. injection Heq as Heq.
    destruct (H cvs Hres) as [Hlen Hk].
    destruct (cvs !! 2) as [o|] eqn:Ho; [|by rewrite <- Heq in Ho].
    destruct (Hk 2 o Ho) as [_ Hobj]. specialize (Hobj eq_refl).
    exists cvs, o. split_and!; [exact Hres|exact Hlen|exact Ho|].
    simpl in Hobj. by injection Hobj as <-.
Defined.

(** X22.  What [remove_site_contact] checks first.  A [mat] whose shape is
    not (number of channels, number of channels), or a [mode] other than
    'soft' and 'hard', raises [AssertionError] before any label is read, and
    leaves the store as it was; the entries of [mat] are never read.  With
    no channel and an empty [mat], the call returns an empty mask. *)
Theorem remove_site_contact_rejects (h : store) (mat : loc) (a : ndarray)
    (channels : list string) (mode : py_str) (remove_lower symmetrical : bool) :
  h !! mat = Some (ONd a) →
  (shape a ≠ [length channels; length channels] ∨ chars mode ∉ ["soft"; "hard"] →
     Correction.remove_site_contact mat channels mode remove_lower symmetrical h
     = (Raise AssertionError, h))
  ∧ (channels = [] → a = Arr2 [] → chars mode ∈ ["soft"; "hard"] → symmetrical = false →
     Correction.remove_site_contact mat channels mode remove_lower symmetrical h
     = (Ok (length h), h ++ [ONd (BoolArr2 [])])).
Proof.
  intros Hmat. unfold Correction.remove_site_contact.
  rewrite run_bind, (run_load _ _ _ Hmat). mrun. split.
  - intros Hbad.
    assert (bool_decide (shape a = [length channels; length channels])
            && bool_decide (chars mode ∈ ["soft"; "hard"]) = false) as ->.
    { apply andb_false_iff. destruct Hbad; [left|right]; by apply bool_decide_eq_false_2. }
    by mrun.
  - intros -> -> Hmode ->. simpl.
    rewrite (bool_decide_eq_true_2 _ Hmode). mrun.
    unfold Correction.modify_bool2. mrun. rewrite lookup_app_0. mrun.
    rewrite insert_app_r_alt, Nat.sub_diag by lia. cbn [insert list_insert].
    rewrite lookup_app_0. mrun.
    rewrite insert_app_r_alt, Nat.sub_diag by lia. done.
Qed.

Lemma remove_site_contact_rejects_witness :
  let h := [ONd (Arr2 (full 2 2 0%Q)); ONd (Arr2 [])] in
  Correction.remove_site_contact 0 ["A1-A2"; "A2-A3"; "A3-A4"] (literal "soft") false false h
  = (Raise AssertionError, h)
  ∧ Correction.remove_site_contact 0 ["A1-A2"; "A2-A3"] (literal "Soft") false false h
    = (Raise AssertionError, h)
  ∧ Correction.remove_site_contact 1 [] (literal "hard") true false h
    = (Ok 2, h ++ [ONd (BoolArr2 [])]).
Proof.
  intros h. split_and!.
  - destruct (remove_site_contact_rejects h 0 (Arr2 (full 2 2 0%Q))
                ["A1-A2"; "A2-A3"; "A3-A4"] (literal "soft") false false) as [H _]; [reflexivity|].
    apply H. left. discriminate.
  - destruct (remove_site_contact_rejects h 0 (Arr2 (full 2 2 0%Q))
                ["A1-A2"; "A2-A3"] (literal "Soft") false false) as [H _]; [reflexivity|].
    apply H. right. rewrite !elem_of_cons, elem_of_nil.
    intros H'. repeat (destruct H' as [H'|H']; [discriminate H'|]). exact H'.
  - destruct (remove_site_contact_rejects h 1 (Arr2 []) [] (literal "hard") true false)
      as [_ H]; [reflexivity|].
    apply H; [reflexivity|reflexivity| |reflexivity]. right. left.
Defined.

(** ** The mask of [concat_connect] *)

Lemma has_shape_mask_of c M :
  is_square_input c M → has_shape (nrows M) (nrows M) (mask_of c).
Proof.
  intros [HM [->|(K & -> & HK)]]; [|done]. simpl.
  destruct (has_shape_square_shape _ _ HM) as [_ ->]. apply has_shape_full.
Qed.

Lemma data2_square_input c M (h : list obj) :
  is_square_input c M → Correction.data2 c h = (Ok M, h).
Proof. by intros [_ [->|(K & -> & _)]]. Qed.

Lemma assign_block_masked_run N (h : list obj) a m k q c M :
  h !! a = Some (ONd (MArr2 m k)) → has_shape N N m → has_shape N N k →
  is_square_input c M →
  ∃ m' k',
    Correction.assign_block a q (nrows M) c h = (Ok (), <[a := ONd (MArr2 m' k')]> h)
    ∧ has_shape N N m' ∧ has_shape N N k'
    ∧ ∀ i j, i < N → j < N →
        get2 k' i j =
          if bool_decide (q ≤ i < q + nrows M) && bool_decide (q ≤ j < q + nrows M)
          then get2 (mask_of c) (i - q) (j - q) else get2 k i j.
Proof.
  intros Ha Hm Hk Hc. pose proof Hc as [HM Hkind].
  destruct (set_block_square 0%Q N (nrows M) m M q Hm HM) as (m' & Hset & Hm' & _).
  destruct (set_block_square false N (nrows M) k (mask_of c) q Hk (has_shape_mask_of c M Hc))
    as (k' & Hsetk & Hk' & Hgetk).
  exists m', k'. split_and!; [|done..].
  unfold Correction.assign_block.
  rewrite run_bind, (data2_square_input c M h Hc). mrun. rewrite Ha. mrun.
  rewrite Hset. mrun.
  assert (match c with
          | MArr2 _ ck => ck
          | _ => full (nrows M) (ncols M) false
          end = mask_of c) as ->.
  { by destruct Hkind as [->|(K & -> & _)]. }
  rewrite Hsetk. by mrun.
Qed.

Lemma assign_block_plain_run N (h : list obj) a m q c M :
  h !! a = Some (ONd (Arr2 m)) → has_shape N N m → is_square_input c M →
  ∃ m', Correction.assign_block a q (nrows M) c h = (Ok (), <[a := ONd (Arr2 m')]> h)
      ∧ has_shape N N m'.
Proof.
  intros Ha Hm Hc. pose proof Hc as [HM _].
  destruct (set_block_square 0%Q N (nrows M) m M q Hm HM) as (m' & Hset & Hm' & _).
  exists m'. split; [|done]. unfold Correction.assign_block.
  rewrite run_bind, (data2_square_input c M h Hc). mrun. rewrite Ha. mrun.
  rewrite Hset. by mrun.
Qed.

Lemma concat_loop_plain N a Ms arrs :
  Forall2 is_square_input arrs Ms →
  ∀ q m (h : list obj),
    h !! a = Some (ONd (Arr2 m)) → has_shape N N m →
    ∃ m',
      fold_each (zip arrs (nrows <$> Ms))
        (λ q cs, Correction.assign_block a q cs.2 cs.1;; mret (q + cs.2)) q h
      = (Ok (q + sum_list (nrows <$> Ms)), <[a := ONd (Arr2 m')]> h)
      ∧ has_shape N N m'.
Proof.
  induction 1 as [|c M arrs Ms Hc _ IH]; intros q m h Ha Hm.
  - exists m. simpl. rewrite run_ret, Nat.add_0_r, list_insert_id by done. done.
  - destruct (assign_block_plain_run N h a m q c M Ha Hm Hc) as (m1 & Hrun & Hm1).
    destruct (IH (q + nrows M) m1 (<[a := ONd (Arr2 m1)]> h)) as (m' & Hloop & Hm').
    { apply list_lookup_insert_eq. by eapply lookup_lt_Some. }
    { done. }
    exists m'. split; [|done].
    cbn [fmap list_fmap zip zip_with fold_each]. rewrite run_bind.
    cbn [fst snd]. rewrite run_bind, Hrun. rewrite run_ret.
    fold (fmap (M := list) nrows Ms). rewrite Hloop.
    rewrite list_insert_insert_eq. simpl. do 2 f_equal. lia.
Qed.

Lemma concat_loop_masked N a Ms arrs :
  Forall2 is_square_input arrs Ms →
  ∀ q m k (h : list obj),
    h !! a = Some (ONd (MArr2 m k)) → has_shape N N m → has_shape N N k →
    ∃ m' k',
      fold_each (zip arrs (nrows <$> Ms))
        (λ q cs, Correction.assign_block a q cs.2 cs.1;; mret (q + cs.2)) q h
      = (Ok (q + sum_list (nrows <$> Ms)), <[a := ONd (MArr2 m' k')]> h)
      ∧ has_shape N N m' ∧ has_shape N N k'
      ∧ (∀ p c M i j, arrs !! p = Some c → Ms !! p = Some M →
           i < nrows M → j < nrows M →
           q + block_offset Ms p + nrows M ≤ N →
           get2 k' (q + block_offset Ms p + i) (q + block_offset Ms p + j)
           = get2 (mask_of c) i j)
      ∧ (∀ i j, i < N → j < N →
           (∀ p M, Ms !! p = Some M →
              ¬ (q + block_offset Ms p ≤ i < q + block_offset Ms p + nrows M
                 ∧ q + block_offset Ms p ≤ j < q + block_offset Ms p + nrows M)) →
           get2 k' i j = get2 k i j).
Proof.
  induction 1 as [|c M arrs Ms Hc _ IH]; intros q m k h Ha Hm Hk.
  - exists m, k. simpl. rewrite run_ret, Nat.add_0_r, list_insert_id by done.
    split_and!; [done..| |done]. intros p c M i j Hp. done.
  - destruct (assign_block_masked_run N h a m k q c M Ha Hm Hk Hc)
      as (m1 & k1 & Hrun & Hm1 & Hk1 & Hget1).
    destruct (IH (q + nrows M) m1 k1 (<[a := ONd (MArr2 m1 k1)]> h))
      as (m' & k' & Hloop & Hm' & Hk' & Hblocks & Hout).
    { apply list_lookup_insert_eq. by eapply lookup_lt_Some. }
    { done. }
    { done. }
    exists m', k'. split_and!; [|done|done| |].
    + cbn [fmap list_fmap zip zip_with fold_each]. rewrite run_bind.
      cbn [fst snd]. rewrite run_bind, Hrun. rewrite run_ret.
      fold (fmap (M := list) nrows Ms). rewrite Hloop.
      rewrite list_insert_insert_eq. simpl. do 2 f_equal. lia.
    + intros p c' M' i j Hp HM' Hi Hj Hfit. destruct p as [|p]; simpl in Hp, HM'.
      * injection Hp as <-. injection HM' as <-. rewrite block_offset_0, !Nat.add_0_r in *.
        rewrite Hout; [|lia|lia|].
        -- rewrite Hget1 by lia. rewrite !bool_decide_eq_true_2 by lia. simpl.
           by replace (q + i - q) with i by lia; replace (q + j - q) with j by lia.
        -- intros p' M'' Hp'. lia.
      * rewrite block_offset_S in *.
        replace (q + (nrows M + block_offset Ms p) + i)
          with (q + nrows M + block_offset Ms p + i) by lia.
        replace (q + (nrows M + block_offset Ms p) + j)
          with (q + nrows M + block_offset Ms p + j) by lia.
        apply (Hblocks p c' M'); [done..|lia].
    + intros i j Hi Hj Hnot. rewrite Hout; [|done..|].
      * rewrite Hget1 by done.
        specialize (Hnot 0 M eq_refl). rewrite block_offset_0, Nat.add_0_r in Hnot.
        destruct (bool_decide (q ≤ i < q + nrows M)) eqn:Hbi;
          destruct (bool_decide (q ≤ j < q + nrows M)) eqn:Hbj; simpl; try done.
        apply bool_decide_eq_true in Hbi, Hbj. tauto.
      * intros p M' Hp. specialize (Hnot (S p) M' Hp). rewrite block_offset_S in Hnot. lia.
Qed.

(** X23.  Masks in [concat_connect], for a non-empty list of square arrays.
    If no input has a masked entry, the result is a plain array, also when
    some inputs are masked arrays.  If some input has a masked entry, the
    result is a masked array: inside the block of an input its mask is the
    mask of that input (all [False] for a plain input), and every entry
    outside of the blocks is masked, so that the fill value is hidden. *)
Theorem concat_connect_mask (h : store) (connect : list loc) (arrs : list ndarray)
    (Ms : list (list (list Q))) (fill_with : Q) :
  connect ≠ [] →
  Forall2 (λ l a, h !! l = Some (ONd a)) connect arrs →
  Forall2 is_square_input arrs Ms →
  (Forall (λ a, Correction.is_masked a = false) arrs →
     ∃ R, Correction.concat_connect connect fill_with h
          = (Ok (length h), h ++ [ONd (Arr2 R)]))
  ∧ (Exists (λ a, Correction.is_masked a = true) arrs →
     ∃ R K,
       Correction.concat_connect connect fill_with h
       = (Ok (length h), h ++ [ONd (MArr2 R K)])
       ∧ has_shape (sum_list (nrows <$> Ms)) (sum_list (nrows <$> Ms)) K
       ∧ (∀ p c M i j, arrs !! p = Some c → Ms !! p = Some M →
            i < nrows M → j < nrows M →
            get2 K (block_offset Ms p + i) (block_offset Ms p + j)
            = get2 (mask_of c) i j)
       ∧ (∀ i j, i < sum_list (nrows <$> Ms) → j < sum_list (nrows <$> Ms) →
            (∀ p M, Ms !! p = Some M →
               ¬ (block_offset Ms p ≤ i < block_offset Ms p + nrows M
                  ∧ block_offset Ms p ≤ j < block_offset Ms p + nrows M)) →
            get2 K i j = Some true)).
Proof.
  intros Hne Hload Hsq. set (N := sum_list (nrows <$> Ms)).
  destruct (square_inputs_ndim arrs Ms Hsq) as [Hndim Hshapes].
  assert (Correction.concat_connect connect fill_with h
            = (aconnect ← alloc (ONd (Arr2 (full N N fill_with)));
               (if existsb Correction.is_masked arrs then
                  update aconnect (ONd (MArr2 (full N N fill_with) (full N N true)))
                else mret ());;
               fold_each (zip arrs (nrows <$> Ms))
                 (λ q cs, Correction.assign_block aconnect q cs.2 cs.1;; mret (q + cs.2)) 0;;
               mret aconnect) h) as Hrun.
  { unfold Correction.concat_connect.
    rewrite run_bind, (load_arrays_run h connect arrs Hload []). cbn [app].
    rewrite run_bind, Hndim, run_assert_true. rewrite Hshapes.
    assert ((match nrows <$> Ms with
             | [] => raise TypeError
             | _ :: _ => mret (sum_list (nrows <$> Ms))
             end : M nat) = mret N) as ->.
    { destruct Ms; [|done]. inversion Hsq; subst. inversion Hload; by subst. }
    by rewrite run_bind, run_ret. }
  rewrite Hrun. clear Hrun. split.
  - intros Hplain.
    assert (existsb Correction.is_masked arrs = false) as ->.
    { apply not_true_is_false. intros (a & Ha & Hm)%existsb_exists.
      rewrite Forall_forall in Hplain. rewrite Hplain in Hm; [done|].
      by apply list_elem_of_In. }
    destruct (concat_loop_plain N (length h) Ms arrs Hsq 0 (full N N fill_with)
                (h ++ [ONd (Arr2 (full N N fill_with))])) as (R & Hloop & _).
    { by rewrite lookup_app_0. }
    { apply has_shape_full. }
    exists R. rewrite run_bind, run_alloc. rewrite run_bind, run_ret.
    rewrite run_bind, Hloop, run_ret.
    by rewrite insert_app_r_alt, Nat.sub_diag by lia.
  - intros Hmasked.
    assert (existsb Correction.is_masked arrs = true) as ->.
    { apply existsb_exists. apply Exists_exists in Hmasked as (a & Ha & Hm).
      exists a. split; [by apply list_elem_of_In|done]. }
    destruct (concat_loop_masked N (length h) Ms arrs Hsq 0 (full N N fill_with)
                (full N N true)
                (h ++ [ONd (MArr2 (full N N fill_with) (full N N true))]))
      as (R & K & Hloop & _ & HK & Hblocks & Hout).
    { by rewrite lookup_app_0. }
    { apply has_shape_full. }
    { apply has_shape_full. }
    exists R, K. split_and!.
    + rewrite run_bind, run_alloc. rewrite run_bind, run_update.
      rewrite insert_app_r_alt, Nat.sub_diag by lia. cbn [insert list_insert].
      rewrite run_bind, Hloop, run_ret.
      by rewrite insert_app_r_alt, Nat.sub_diag by lia.
    + done.
    + intros p c M i j Hp HM Hi Hj.
      pose proof (block_offset_le Ms p M HM) as Hle. fold N in Hle.
      apply (Hblocks p c M i j Hp HM Hi Hj). simpl. lia.
    + intros i j Hi Hj Hnot. rewrite Hout; [by apply get2_full|done..].
Qed.

Lemma concat_connect_mask_witness :
  let a1 := MArr2 [[1; 2]; [3; 4]]%Q [[false; true]; [false; false]] in
  let a2 := Arr2 [[5]]%Q in
  let h := [ONd a1; ONd a2] in
  ∃ R K,
    Correction.concat_connect [0; 1] 0%Q h = (Ok 2, h ++ [ONd (MArr2 R K)])
    ∧ get2 K 0 1 = Some true ∧ get2 K 2 2 = Some false ∧ get2 K 0 2 = Some true.
Proof.
  intros a1 a2 h.
  assert (Forall2 (λ l a, h !! l = Some (ONd a)) [0; 1] [a1; a2]) as H1
    by (repeat constructor).
  assert (Forall2 is_square_input [a1; a2] [[[1; 2]; [3; 4]]%Q; [[5]]%Q]) as H2.
  { constructor; [|constructor; [|constructor]].
    - split; [split; [reflexivity|repeat constructor]|].
      right. eexists. split; [reflexivity|]. split; [reflexivity|repeat constructor].
    - split; [split; [reflexivity|repeat constructor]|]. by left. }
  destruct (concat_connect_mask h [0; 1] [a1; a2] _ 0%Q ltac:(discriminate) H1 H2)
    as [_ Hm].
  destruct Hm as (R & K & Hrun & _ & Hblocks & Hout); [by left|].
  exists R, K. split_and!; [exact Hrun| | |].
  - exact (Hblocks 0 a1 _ 0 1 eq_refl eq_refl (le_S _ _ (le_n 1)) (le_n 2)).
  - exact (Hblocks 1 a2 _ 0 0 eq_refl eq_refl (le_n 1) (le_n 1)).
  - apply Hout; [vm_compute; lia..|].
    intros [|[|p]] M Hp; [injection Hp as <-|injection Hp as <-|discriminate];
      vm_compute; lia.
Defined.

Lemma anat_based_mean_xyz_inv np_mean ma_mean pd_mean (h : list obj) x df xyz col fill_with A m d r h' :
  h !! x = Some (ONd (Arr2 A)) → h !! df = Some (OFrame d) →
  h !! xyz = Some (ONd (Arr2 m)) → xyz ≠ x → length m = df_len d →
  Correction.anat_based_mean np_mean ma_mean pd_mean x df col fill_with (Some xyz) h = (Ok r, h') →
  ∃ con xyz_r cx cy cz R,
    let d3 := mkDataFrame (df_len d)
                (Correction.set_column
                   (Correction.set_column (Correction.set_column (df_cols d) "X" cx) "Y" cy)
                   "Z" cz) in
    let labels := (Correction.groupby_groups false (Correction.column d col)).*1 in
    r = Correction.Ret3 con labels xyz_r
    ∧ Correction.column_of m 0 = Ok cx
    ∧ Correction.column_of m 1 = Ok cy
    ∧ Correction.column_of m 2 = Ok cz
    ∧ h' !! df = Some (OFrame d3)
    ∧ h' !! xyz = Some (ONd (Arr2 m))
    ∧ h !! xyz_r = None
    ∧ h' !! xyz_r = Some (ONd (Arr2 R))
    ∧ traverse (Correction.centroid pd_mean d3 col
                  (Correction.groupby_groups false (Correction.column d3 col))) labels
      = Ok R.
Proof.
  intros Hx Hdf Hxyz Hne Hrows H. unfold Correction.anat_based_mean in H.
  bind_inv H as ox h1 Hs. apply load_Ok_inv in Hs as [Hox ->].
  rewrite Hx in Hox. injection Hox as <-.
  bind_inv H as u1 h1 Hs. apply assert_Ok_inv in Hs as [_ ->].
  bind_inv H as odf h1 Hs. apply load_Ok_inv in Hs as [Hodf ->].
  rewrite Hdf in Hodf. injection Hodf as <-.
  bind_inv H as d' h1 Hs. apply ret_Ok_inv in Hs as [-> ->].
  bind_inv H as u2 h1 Hs. apply assert_Ok_inv in Hs as [_ ->].
  bind_inv H as is_masked h1 Hs.
  bind_inv Hs as u3 h2 Hu. apply update_Ok_inv in Hu as ->.
  apply ret_Ok_inv in Hs as [-> ->].
  set (hb := <[x := ONd (Arr2 (fill_diagonal A 0%Q))]> h) in *.
  assert (length hb = length h) as Hlen by apply length_insert.
  assert (x ≠ df) as Hxdf by (intros ->; congruence).
  assert (df < length h) as Hdflt by by eapply lookup_lt_Some.
  assert (xyz < length h) as Hxyzlt by by eapply lookup_lt_Some.
  assert (hb !! df = Some (OFrame d)) as Hdf'.
  { unfold hb. by rewrite list_lookup_insert_ne. }
  assert (hb !! xyz = Some (ONd (Arr2 m))) as Hxyz'.
  { unfold hb. by rewrite list_lookup_insert_ne. }
  cbn iota in H.
  bind_inv H as xc h1 Hpre.
  assert (length h ≤ length hb) as Hle by lia.
  lazymatch type of Hpre with
  | ?t _ = _ =>
      assert (hoare [] (length h) t (λ xc, length h ≤ xc.2)) as Hhoare
        by (unfold Correction.modify_plain2; hoare_go)
  end.
  destruct (Hhoare _ _ _ Hle Hpre) as (Hlen1 & Hsame1 & Hcon).
  specialize (Hcon _ eq_refl). destruct xc as [x' con]. cbn [snd fst] in *.
  bind_inv H as u5 h2 Hloop.
  lazymatch type of Hloop with
  | ?t _ = _ => assert (hoare [] (length h) t (λ _, True)) as Hhoare2 by hoare_go
  end.
  assert (length h ≤ length h1) as Hle1 by lia.
  destruct (Hhoare2 _ _ _ Hle1 Hloop) as (Hlen2 & Hsame2 & _).
  assert (∀ l, l < length h → h2 !! l = hb !! l) as Hsame.
  { intros l Hl. rewrite Hsame2, Hsame1; [done|done|apply not_elem_of_nil|done|
                                             apply not_elem_of_nil]. }
  clear Hhoare Hhoare2 Hsame1 Hsame2 Hpre Hloop.
  bind_inv H as oxyz h3 Hs. apply load_Ok_inv in Hs as [Hoxyz ->].
  rewrite Hsame, Hxyz' in Hoxyz by done. injection Hoxyz as <-.
  cbn [as_ndarray] in H.
  bind_inv H as s0 h3 Hs. apply lift_Ok_inv in Hs as [[= <-] ->].
  unfold nrows in H. rewrite Hrows, Nat.eqb_refl in H.
  bind_inv H as m' h3 Hs. apply ret_Ok_inv in Hs as [-> ->].
  bind_inv H as cx h3 Hs. apply lift_Ok_inv in Hs as [Hcx ->].
  bind_inv H as cy h3 Hs. apply lift_Ok_inv in Hs as [Hcy ->].
  bind_inv H as cz h3 Hs. apply lift_Ok_inv in Hs as [Hcz ->].
  bind_inv H as odf h3 Hs. apply load_Ok_inv in Hs as [Hodf ->].
  rewrite Hsame, Hdf' in Hodf by done. injection Hodf as <-.
  bind_inv H as d' h3 Hs. apply ret_Ok_inv in Hs as [-> ->].
  bind_inv H as u6 h3 Hs. apply update_Ok_inv in Hs as ->.
  bind_inv H as u7 h3 Hs. apply update_Ok_inv in Hs as ->.
  bind_inv H as u8 h3 Hs. apply update_Ok_inv in Hs as ->.
  cbn [df_len df_cols] in H.
  bind_inv H as rows h3 Hs. apply lift_Ok_inv in Hs as [Hcentroid ->].
  bind_inv H as xyz_r h3 Hs. apply alloc_Ok_inv in Hs as [-> ->].
  apply ret_Ok_inv in H as [-> ->].
  assert (df < length h2) as Hdf2 by lia.
  eexists _, _, cx, cy, cz, rows. cbv zeta. split_and!; [done..| | | | |done].
  - rewrite lookup_app_l by by rewrite !length_insert.
    by rewrite list_lookup_insert_eq by by rewrite !length_insert.
  - rewrite lookup_app_l by (rewrite !length_insert; lia).
    assert (xyz ≠ df) as Hxd by (intros ->; congruence).
    rewrite !list_lookup_insert_ne by done. by rewrite Hsame.
  - apply lookup_ge_None. rewrite !length_insert. lia.
  - by rewrite lookup_app_0.
Qed.


(** X24.  The table after a call of [anat_based_mean] with coordinates.  For
    a plain [x] and an array [xyz] (another object than [x]) with as many
    rows as the table, a call that returns has written the three columns of
    [xyz] into the caller's table as the columns X, Y and Z (replacing
    columns of these names, or adding them after the others); [xyz] itself
    is unchanged, and the call returns three values. *)
Theorem anat_based_mean_writes_table
    (np_mean : list Q → Q) (ma_mean : list Q → list bool → Q) (pd_mean : list Q → Q)
    (h : store) (x df xyz : loc) (col : string)
    (fill_with : Q) (A m : list (list Q)) (d : DataFrame)
    (r : Correction.mean_result) (h' : store) :
  h !! x = Some (ONd (Arr2 A)) → h !! df = Some (OFrame d) →
  h !! xyz = Some (ONd (Arr2 m)) → xyz ≠ x → length m = df_len d →
  Correction.anat_based_mean np_mean ma_mean pd_mean x df col fill_with (Some xyz) h = (Ok r, h') →
  ∃ con labels xyz_r cx cy cz,
    r = Correction.Ret3 con labels xyz_r
    ∧ Correction.column_of m 0 = Ok cx
    ∧ Correction.column_of m 1 = Ok cy
    ∧ Correction.column_of m 2 = Ok cz
    ∧ h' !! df
      = Some (OFrame (mkDataFrame (df_len d)
                (Correction.set_column
                   (Correction.set_column (Correction.set_column (df_cols d) "X" cx) "Y" cy)
                   "Z" cz)))
    ∧ h' !! xyz = Some (ONd (Arr2 m)).
Proof.
  intros Hx Hdf Hxyz Hne Hrows H.
  destruct (anat_based_mean_xyz_inv _ _ _ _ _ _ _ _ _ _ _ _ _ _ Hx Hdf Hxyz Hne Hrows H)
    as (con & xyz_r & cx & cy & cz & R & -> & Hcx & Hcy & Hcz & Hdf' & Hxyz' & _).
  by eexists _, _, _, cx, cy, cz.
Qed.

Lemma anat_based_mean_writes_table_witness :
  let A := [[1; 2]; [3; 4]]%Q in
  let m := [[10; 20; 30]; [40; 50; 60]]%Q in
  let d := mkDataFrame 2 [("roi", [CStr "b"; CStr "a"]); ("Y", [CNum 0; CNum 0])] in
  let h := [ONd (Arr2 A); OFrame d; ONd (Arr2 m)] in
  ∃ r h',
    Correction.anat_based_mean exact_mean exact_ma_mean exact_mean 0 1 "roi" 0%Q (Some 2) h = (Ok r, h')
    ∧ h' !! 1
      = Some (OFrame (mkDataFrame 2
                [("roi", [CStr "b"; CStr "a"]); ("Y", [CNum 20; CNum 50]);
                 ("X", [CNum 10; CNum 40]); ("Z", [CNum 30; CNum 60])]))
    ∧ h' !! 2 = Some (ONd (Arr2 m)).
Proof.
  intros A m d h.
  pose (res := Correction.anat_based_mean exact_mean exact_ma_mean exact_mean 0 1 "roi" 0%Q (Some 2) h).
  assert (Correction.anat_based_mean exact_mean exact_ma_mean exact_mean 0 1 "roi" 0%Q (Some 2) h = res) as Hres by reflexivity.
  vm_compute in res. subst res.
  destruct (anat_based_mean_writes_table exact_mean exact_ma_mean exact_mean h 0 1 2 "roi" 0%Q A m d _ _
              eq_refl eq_refl eq_refl ltac:(discriminate) eq_refl Hres)
    as (con & labels & xyz_r & cx & cy & cz & _ & Hcx & Hcy & Hcz & Hdf & Hxyz).
  injection Hcx as <-. injection Hcy as <-. injection Hcz as <-.
  eexists _, _. split_and!; [exact Hres|exact Hdf|exact Hxyz].
Defined.

Lemma df_lookup_set_column_eq cols n v :
  Correction.df_lookup (Correction.set_column cols n v) n = Some v.
Proof.
  induction cols as [|[n' c] cols IH]; simpl.
  - by rewrite String.eqb_refl.
  - destruct (String.eqb n' n) eqn:Hn; simpl; by rewrite Hn.
Qed.

Lemma df_lookup_set_column_ne cols n v name :
  name ≠ n →
  Correction.df_lookup (Correction.set_column cols n v) name = Correction.df_lookup cols name.
Proof.
  intros Hne. induction cols as [|[n' c] cols IH]; simpl.
  - by rewrite (proj2 (String.eqb_neq n name)) by done.
  - destruct (String.eqb n' n) eqn:Hn; simpl.
    + apply String.eqb_eq in Hn as ->.
      by rewrite (proj2 (String.eqb_neq n name)) by done.
    + by rewrite IH.
Qed.

Lemma positions_eqb k k' column :
  Correction.cell_eqb k k' = true →
  Correction.positions k column = Correction.positions k' column.
Proof.
  intros Hk. unfold Correction.positions. f_equal.
  apply list_filter_iff. intros [i x]. simpl.
  rewrite !Is_true_true. split; intros Hx.
  - by eapply cell_eqb_trans.
  - eapply cell_eqb_trans; [done|]. by rewrite cell_eqb_sym.
Qed.

Lemma column_of_Ok (m : list (list Q)) j c :
  Correction.column_of m j = Ok c →
  Forall2 (λ row cell, ∃ q, row !! j = Some q ∧ cell = CNum q) m c.
Proof.
  intros H. apply traverse_Ok_inv in H. eapply Forall2_impl; [exact H|].
  intros row cell Hrow. simpl in Hrow. destruct (row !! j) as [q|]; [|done].
  injection Hrow as <-. eauto.
Qed.

Lemma numbers_at_column (m : list (list Q)) j c members vals :
  Correction.column_of m j = Ok c →
  Correction.numbers_at c members = Ok vals →
  Forall2 (λ t v, get2 m t j = Some v) members vals.
Proof.
  intros Hc%column_of_Ok Hv%traverse_Ok_inv. eapply Forall2_impl; [exact Hv|].
  intros t v Ht. simpl in Ht. destruct (c !! t) as [[s|q]|] eqn:Hct; try done.
  injection Ht as ->.
  destruct (Forall2_lookup_r _ _ _ _ _ Hc Hct) as (row & Hrow & q & Hq & [= ->]).
  unfold get2. by rewrite Hrow.
Qed.

(** X25.  The coordinates [anat_based_mean] returns.  For a plain [x], an
    array [xyz] (another object than [x]) with as many rows as the table and
    a grouping column that is not named X, Y or Z, a call that returns gives
    back a new array with one row per label, in the order of the labels; the
    row of a label holds, for each of the three columns of [xyz], the mean
    that pandas takes ([pd_mean]) of the values of this column at the rows of
    the table that carry this label, in the order of the rows. *)
Theorem anat_based_mean_centroids
    (np_mean : list Q → Q) (ma_mean : list Q → list bool → Q) (pd_mean : list Q → Q)
    (h : store) (x df xyz : loc) (col : string)
    (fill_with : Q) (A m : list (list Q)) (d : DataFrame)
    (r : Correction.mean_result) (h' : store) :
  h !! x = Some (ONd (Arr2 A)) → h !! df = Some (OFrame d) →
  h !! xyz = Some (ONd (Arr2 m)) → xyz ≠ x → length m = df_len d →
  col ∉ ["X"; "Y"; "Z"] →
  Correction.anat_based_mean np_mean ma_mean pd_mean x df col fill_with (Some xyz) h = (Ok r, h') →
  let column := Correction.column d col in
  let labels := Correction.uniques column in
  ∃ con xyz_r R,
    r = Correction.Ret3 con labels xyz_r
    ∧ h !! xyz_r = None
    ∧ h' !! xyz_r = Some (ONd (Arr2 R))
    ∧ length R = length labels
    ∧ ∀ i label, labels !! i = Some label →
        ∃ vx vy vz,
          R !! i = Some [pd_mean vx; pd_mean vy; pd_mean vz]
          ∧ Forall2 (λ t v, get2 m t 0 = Some v) (Correction.positions label column) vx
          ∧ Forall2 (λ t v, get2 m t 1 = Some v) (Correction.positions label column) vy
          ∧ Forall2 (λ t v, get2 m t 2 = Some v) (Correction.positions label column) vz.
Proof.
  intros Hx Hdf Hxyz Hne Hrows Hcol H column labels.
  destruct (anat_based_mean_xyz_inv _ _ _ _ _ _ _ _ _ _ _ _ _ _ Hx Hdf Hxyz Hne Hrows H)
    as (con & xyz_r & cx & cy & cz & R & -> & Hcx & Hcy & Hcz & _ & _ & Hnew & HR & Hcen).
  rewrite !elem_of_cons, elem_of_nil in Hcol.
  assert (col ≠ "X" ∧ col ≠ "Y" ∧ col ≠ "Z") as (HcX & HcY & HcZ) by tauto.
  set (d3 := mkDataFrame _ _) in *.
  assert (Correction.column d3 col = column) as Hcolumn.
  { unfold Correction.column, d3. cbn [df_cols].
    by rewrite !df_lookup_set_column_ne by done. }
  assert (Correction.column d3 "X" = cx ∧ Correction.column d3 "Y" = cy
          ∧ Correction.column d3 "Z" = cz) as (HX & HY & HZ).
  { unfold Correction.column, d3. cbn [df_cols]. split_and!.
    - by rewrite !df_lookup_set_column_ne, df_lookup_set_column_eq by done.
    - by rewrite df_lookup_set_column_ne, df_lookup_set_column_eq by done.
    - by rewrite df_lookup_set_column_eq. }
  rewrite Hcolumn in Hcen.
  assert ((Correction.groupby_groups false column).*1 = labels) as Hlabels.
  { unfold Correction.groupby_groups. rewrite <- list_fmap_compose. apply list_fmap_id. }
  fold column in Hcen. rewrite Hlabels in Hcen. fold column. rewrite Hlabels.
  apply traverse_Ok_inv in Hcen.
  exists con, xyz_r, R. split_and!; [done..|by rewrite <- (Forall2_length _ _ _ Hcen)|].
  intros i label Hi.
  destruct (Forall2_lookup_l _ _ _ _ _ Hcen Hi) as (row & Hrow & Hcentroid).
  unfold Correction.centroid in Hcentroid.
  destruct (list_find _ _) as [[idx [key members]]|] eqn:Hfind; [|done].
  apply list_find_Some in Hfind as (Hidx & Hkey & _). simpl in Hkey.
  apply Is_true_true in Hkey.
  unfold Correction.groupby_groups in Hidx. rewrite list_lookup_fmap in Hidx.
  destruct (Correction.uniques column !! idx) as [key'|]; [|done].
  injection Hidx as -> <-.
  rewrite (positions_eqb key label column Hkey) in Hcentroid.
  cbn [traverse] in Hcentroid.
  rewrite (proj2 (String.eqb_neq "X" col)), (proj2 (String.eqb_neq "Y" col)),
    (proj2 (String.eqb_neq "Z" col)) in Hcentroid by done.
  rewrite HX, HY, HZ in Hcentroid.
  destruct (Correction.numbers_at cx _) as [vx|] eqn:Hvx; [|done].
  destruct (Correction.numbers_at cy _) as [vy|] eqn:Hvy; [|done].
  destruct (Correction.numbers_at cz _) as [vz|] eqn:Hvz; [|done].
  simpl in Hcentroid. injection Hcentroid as <-.
  exists vx, vy, vz. split_and!; [done|by eapply numbers_at_column..].
Qed.

Lemma anat_based_mean_centroids_witness :
  let A := [[1; 2; 3]; [4; 5; 6]; [7; 8; 9]]%Q in
  let m := [[10; 20; 30]; [40; 50; 60]; [30; 40; 50]]%Q in
  let d := mkDataFrame 3 [("roi", [CStr "b"; CStr "a"; CStr "b"])] in
  let h := [ONd (Arr2 A); OFrame d; ONd (Arr2 m)] in
  ∃ con xyz_r h' R vx vy vz,
    Correction.anat_based_mean exact_mean exact_ma_mean exact_mean 0 1 "roi" 0%Q (Some 2) h
      = (Ok (Correction.Ret3 con [CStr "b"; CStr "a"] xyz_r), h')
    ∧ h' !! xyz_r = Some (ONd (Arr2 R))
    ∧ R !! 0 = Some [exact_mean vx; exact_mean vy; exact_mean vz]
    ∧ vx = [10; 30]%Q ∧ vy = [20; 40]%Q ∧ vz = [30; 50]%Q.
Proof.
  intros A m d h.
  pose (res := Correction.anat_based_mean exact_mean exact_ma_mean exact_mean 0 1 "roi" 0%Q (Some 2) h).
  assert (Correction.anat_based_mean exact_mean exact_ma_mean exact_mean 0 1 "roi" 0%Q (Some 2) h = res) as Hres by reflexivity.
  vm_compute in res. subst res.
  assert ("roi" ∉ ["X"; "Y"; "Z"]) as Hcol.
  { rewrite !elem_of_cons, elem_of_nil. intros H'.
    repeat (destruct H' as [H'|H']; [discriminate H'|]). exact H'. }
  destruct (anat_based_mean_centroids exact_mean exact_ma_mean exact_mean h 0 1 2 "roi" 0%Q A m d _ _
              eq_refl eq_refl eq_refl ltac:(discriminate) eq_refl Hcol Hres)
    as (con & xyz_r & R & Hr & _ & HR & _ & Hent).
  injection Hr as <- <-.
  destruct (Hent 0 (CStr "b") eq_refl) as (vx & vy & vz & Hrow & Hvx & Hvy & Hvz).
  eexists _, _, _, R, vx, vy, vz. split_and!; [exact Hres|exact HR|exact Hrow|..].
  - change (Correction.positions (CStr "b") (Correction.column d "roi")) with [0; 2] in Hvx.
    apply Forall2_cons_inv_l in Hvx as (v0 & vx' & [= <-] & Hvx & ->).
    apply Forall2_cons_inv_l in Hvx as (v1 & vx'' & [= <-] & Hvx & ->).
    by apply Forall2_nil_inv_l in Hvx as ->.
  - change (Correction.positions (CStr "b") (Correction.column d "roi")) with [0; 2] in Hvy.
    apply Forall2_cons_inv_l in Hvy as (v0 & vy' & [= <-] & Hvy & ->).
    apply Forall2_cons_inv_l in Hvy as (v1 & vy'' & [= <-] & Hvy & ->).
    by apply Forall2_nil_inv_l in Hvy as ->.
  - change (Correction.positions (CStr "b") (Correction.column d "roi")) with [0; 2] in Hvz.
    apply Forall2_cons_inv_l in Hvz as (v0 & vz' & [= <-] & Hvz & ->).
    apply Forall2_cons_inv_l in Hvz as (v1 & vz'' & [= <-] & Hvz & ->).
    by apply Forall2_nil_inv_l in Hvz as ->.
Defined.

Lemma for_each_raises {A} (I : list obj → Prop) (xs : list A) (body : A → M ()) (e : exn) :
  (∀ x h, x ∈ xs → I h →
     (∃ h', body x h = (Ok (), h') ∧ I h') ∨ (∃ h', body x h = (Raise e, h'))) →
  (∃ x, x ∈ xs ∧ ∀ h, I h → ∃ h', body x h = (Raise e, h')) →
  ∀ h, I h → ∃ h', for_each xs body h = (Raise e, h').
Proof.
  induction xs as [|x xs IH]; intros Hbody (x0 & Hin & Hbad) h Hi.
  - by apply elem_of_nil in Hin.
  - cbn [for_each]. rewrite run_bind.
    destruct (Hbody x h) as [(h1 & Hrun & Hi1)|(h1 & Hrun)]; [left|done| |];
      rewrite Hrun; [|eauto].
    apply elem_of_cons in Hin as [->|Hin].
    + destruct (Hbad h Hi) as (h2 & Hrun2). congruence.
    + apply IH; [|eauto|done]. intros y h2 Hy. apply Hbody. by right.
Qed.

(** X26.  A table that is too short for [anat_based_reorder]: with a square
    [c] of [n] sites and a table of at least one and fewer than [n] rows,
    the call raises [IndexError] (a pair names a site that the index array
    has no entry for); the objects that existed before the call are
    unchanged. *)
Theorem anat_based_reorder_short_table (h : store) (c df : loc) (col part : string)
    (n : nat) (cm : list (list Q)) (d : DataFrame) :
  h !! c = Some (ONd (Arr2 cm)) → has_shape n n cm →
  h !! df = Some (OFrame d) → col ∈ (df_cols d).*1 →
  part ∈ ["upper"; "lower"; "both"] →
  0 < length (Correction.column d col) < n →
  ∃ h', Correction.anat_based_reorder c df col part h = (Raise IndexError, h')
      ∧ ∀ l o, h !! l = Some o → h' !! l = Some o.
Proof.
  intros Hc Hs Hdf Hcol Hv [Hpos Hshort].
  assert (∃ h', Correction.anat_based_reorder c df col part h = (Raise IndexError, h'))
    as (h' & Hrun).
  2:{ exists h'. split; [done|]. intros l o Hl.
      destruct (hoare_anat_based_reorder [] (length h) c df col part h _ h' (le_n _) Hrun)
        as (_ & Hsame & _).
      rewrite Hsame; [done|by eapply lookup_lt_Some|apply not_elem_of_nil]. }
  unfold Correction.anat_based_reorder.
  destruct (has_shape_square_shape _ _ Hs) as [Hnr Hnc].
  rewrite run_bind, (run_load _ _ _ Hc). mrun. rewrite Hdf. mrun.
  rewrite bool_decide_eq_true_2 by done. mrun.
  set (idx := concat (Correction.groupby_groups true (Correction.column d col)).*2).
  assert (idx ≡ₚ seq 0 (length (Correction.column d col))) as Hperm.
  { unfold idx, Correction.groupby_groups. rewrite <- list_fmap_compose.
    apply group_index_permutation. }
  assert (length idx = length (Correction.column d col)) as Hlen.
  { by rewrite Hperm, length_seq. }
  assert (Correction.np_concatenate
            (Correction.groupby_groups true (Correction.column d col)).*2 = Ok idx) as ->.
  { assert (idx ≠ []) as Hidx by (intros Hnil; rewrite Hnil in Hlen; simpl in Hlen; lia).
    unfold Correction.np_concatenate, idx in *.
    by destruct (Correction.groupby_groups true (Correction.column d col)).*2. }
  mrun. rewrite Hnr.
  pose proof (get_pairs_run n part false (h ++ [ONd (IntArr1 idx)]) Hv) as Hp.
  unfold returns_pairs in Hp. rewrite Hp. clear Hp. mrun.
  rewrite load_pairs_run. mrun. rewrite Hnc.
  unfold np_c_. cbn [fst snd]. rewrite zip_fst_snd.
  rewrite <- !(assoc_L (++)). cbn [app]. rewrite !length_app. cbn [length].
  set (P := selected_pairs n part).
  pose (I := λ hh : list obj, ∃ R,
          hh = h ++ [ONd (IntArr1 idx); ONd (IntArr1 P.*1); ONd (IntArr1 P.*2); ONd (Arr2 R)]).
  match goal with
  | |- ∃ h', (let (o, h'') := for_each P ?body ?h0 in _) = _ =>
      destruct (for_each_raises I P body IndexError) with (h := h0) as (h1 & ->)
  end.
  - intros [k i] hh _ (R & ->). cbn beta iota.
    unfold Correction.load_index_array. mrun. rewrite lookup_app_0. mrun.
    destruct (idx !! k) as [ik|]; mrun; [|right; eauto].
    destruct (idx !! i) as [ii|]; mrun; [|right; eauto].
    rewrite lookup_app_l by by eapply lookup_lt_Some. rewrite Hc. mrun.
    unfold getitem2. destruct (get2 cm k i) as [v|]; mrun; [|right; eauto].
    unfold Correction.modify_plain2. mrun.
    rewrite (lookup_app_plus h _ 3). mrun.
    unfold setitem2. destruct (get2 R _ _) as [old|]; mrun; [|right; eauto].
    left. eexists. split; [done|]. eexists.
    rewrite insert_app_r_alt by lia.
    by replace (length h + 3 - length h) with 3 by lia.
  - assert (∃ q, q ∈ P ∧ (length idx ≤ q.1 ∨ length idx ≤ q.2)) as ([k i] & Hq & Hbig).
    { apply valid_part_cases in Hv. unfold P, selected_pairs.
      destruct Hv as [->|[->| ->]]; simpl.
      - exists (0, n - 1). split; [apply elem_of_upper_pairs; lia|simpl; lia].
      - exists (n - 1, 0). split; [apply elem_of_lower_pairs; lia|simpl; lia].
      - exists (0, n - 1). split; [|simpl; lia].
        apply elem_of_app. left. apply elem_of_upper_pairs. lia. }
    exists (k, i). split; [done|]. intros hh (R & ->). cbn beta iota.
    unfold Correction.load_index_array. mrun. rewrite lookup_app_0. mrun.
    simpl in Hbig. destruct Hbig as [Hk|Hi].
    + rewrite (lookup_ge_None_2 idx k) by done. mrun. eauto.
    + destruct (idx !! k) as [ik|]; mrun; [|eauto].
      rewrite (lookup_ge_None_2 idx i) by done. mrun. eauto.
  - by eexists.
  - eauto.
Qed.

Lemma anat_based_reorder_short_table_witness :
  let d := mkDataFrame 2 [("roi", [CStr "b"; CStr "a"])] in
  let cm := [[1; 2; 3]; [4; 5; 6]; [7; 8; 9]]%Q in
  let h := [ONd (Arr2 cm); OFrame d] in
  ∃ h', Correction.anat_based_reorder 0 1 "roi" "upper" h = (Raise IndexError, h')
      ∧ h' !! 0 = Some (ONd (Arr2 cm)).
Proof.
  intros d cm h.
  destruct (anat_based_reorder_short_table h 0 1 "roi" "upper" 3 cm d) as (h' & Hrun & Hsame).
  - reflexivity.
  - split; [reflexivity|repeat constructor].
  - reflexivity.
  - simpl. by left.
  - by left.
  - simpl. lia.
  - exists h'. split; [exact Hrun|]. by apply Hsame.
Defined.

(** ** More on [symmetrize] and [ravel_connect] *)



(** X28.  For a square array, the values [ravel_connect] returns for part
    'both' are the values for part 'upper' followed by the values for part
    'lower'. *)
Theorem ravel_connect_both (h : store) (l n : nat) (A : list (list Q)) :
  h !! l = Some (ONd (Arr2 A)) → has_shape n n A →
  ∃ lu hu vu ll hl vl lb hb,
    Correction.ravel_connect l "upper" h = (Ok lu, hu)
    ∧ hu !! lu = Some (ONd (Arr1 vu))
    ∧ Correction.ravel_connect l "lower" h = (Ok ll, hl)
    ∧ hl !! ll = Some (ONd (Arr1 vl))
    ∧ Correction.ravel_connect l "both" h = (Ok lb, hb)
    ∧ hb !! lb = Some (ONd (Arr1 (vu ++ vl)))
    ∧ length vu = length vl.
Proof.
  intros Hl Hs.
  assert (∀ part, part ∈ ["upper"; "lower"; "both"] → valid_part part) as Hv by done.
  eexists _, _, _, _, _, _, _, _. split_and!.
  - apply (ravel_connect_run h l n A "upper" Hl Hs). apply Hv. by left.
  - by rewrite lookup_app_plus.
  - apply (ravel_connect_run h l n A "lower" Hl Hs). apply Hv. right. by left.
  - by rewrite lookup_app_plus.
  - apply (ravel_connect_run h l n A "both" Hl Hs). apply Hv. do 2 right. by left.
  - rewrite lookup_app_plus. simpl. do 3 f_equal.
    change (selected_pairs n "both") with (upper_pairs n ++ lower_pairs n).
    by rewrite fmap_app.
  - rewrite !length_fmap.
    change (selected_pairs n "upper") with (upper_pairs n).
    change (selected_pairs n "lower") with (lower_pairs n).
    by rewrite length_upper_pairs, length_lower_pairs.
Qed.

Lemma ravel_connect_both_witness :
  let A := [[1; 2]; [3; 4]]%Q in
  let h := [ONd (Arr2 A)] in
  ∃ lb hb, Correction.ravel_connect 0 "both" h = (Ok lb, hb)
         ∧ hb !! lb = Some (ONd (Arr1 [2; 3]%Q)).
Proof.
  intros A h.
  destruct (ravel_connect_both h 0 2 A) as (lu & hu & vu & ll & hl & vl & lb & hb
    & Hu & Hvu & Hlo & Hvl & Hb & Hvb & _).
  - reflexivity.
  - split; [reflexivity|repeat constructor].
  - vm_compute in Hu. injection Hu as <- <-. injection Hvu as <-.
    vm_compute in Hlo. injection Hlo as <- <-. injection Hvl as <-.
    exists lb, hb. split; [exact Hb|exact Hvb].
Defined.

(** ** Zero-padded channel numbers *)

Lemma pretty_N_go_head (x : N) (s : string) :
  (0 < x)%N → ∃ c t, pretty_N_go x s = String c t ∧ c ≠ "0"%char.
Proof.
  revert s. induction (N.lt_wf_0 x) as [x _ IH]. intros s Hx.
  rewrite pretty_N_go_step by done.
  destruct (decide (x < 10)%N) as [Hsmall|Hbig].
  - rewrite N.div_small, pretty_N_go_0 by done. rewrite N.mod_small by done.
    eexists _, _. split; [done|].
    assert (x = 1 ∨ x = 2 ∨ x = 3 ∨ x = 4 ∨ x = 5 ∨ x = 6 ∨ x = 7 ∨ x = 8 ∨ x = 9)%N
      as Hcases by lia.
    repeat (destruct Hcases as [->|Hcases]; [done|]). by subst.
  - apply IH.
    + apply N.div_lt; lia.
    + apply N.div_str_pos. lia.
Qed.

Lemma str_succ_head (n : N) : ∃ c t, Correction.str (n + 1) = String c t ∧ c ≠ "0"%char.
Proof.
  unfold Correction.str, pretty, pretty_N. rewrite decide_False by lia.
  apply pretty_N_go_head. lia.
Qed.

(** X29.  Zero-padded numbers and the branch of 'soft'.  When [mode] is the
    interned ['soft'], the next contact is looked for under the numbers
    written by [str], without leading zeros: a channel whose first number is
    written with a leading zero (as in 'A01-A02') is never marked as the
    contact that follows another channel; its entries in the rows of the
    channels before it are [False], or [True] only when [symmetrical] and
    [remove_lower] are both set.  When [mode] is not the interned ['soft']
    (the mode 'hard', but also a ['soft'] that is another object than the
    literal), every later channel with the letter prefix of a channel is
    marked in its row, zero-padded or not. *)
Theorem remove_site_contact_zero_padded (h : store) (mat : loc)
    (channels : list string) (mode : py_str) (remove_lower symmetrical : bool)
    (l : loc) (h' : store) :
  Correction.remove_site_contact mat channels mode remove_lower symmetrical h
    = (Ok l, h') →
  ∃ sel rows,
    traverse Correction.parse_channel channels = Ok rows
    ∧ h' !! l = Some (ONd (BoolArr2 sel))
    ∧ (is_literal mode "soft" = true →
       ∀ i j letter digits rest, i < j →
         rows !! j = Some (letter :: String "0" digits :: rest) →
         get2 sel i j = Some (symmetrical && remove_lower))
    ∧ (is_literal mode "soft" = false →
       ∀ i j letter resti restj, i < j →
         rows !! i = Some (letter :: resti) → rows !! j = Some (letter :: restj) →
         get2 sel i j = Some true).
Proof.
  intros Hrun.
  destruct (remove_site_contact_entries _ _ _ _ _ _ _ _ Hrun)
    as (sel & rows & Hrows & Hsel & Hthree & Hent).
  exists sel, rows. split_and!; [done..| |].
  - intros Hsoft i j letter digits rest Hij Hj.
    assert (is_Some (rows !! i)) as [ri Hri].
    { apply lookup_lt_is_Some. apply lookup_lt_Some in Hj. lia. }
    destruct (Hthree i ri Hri) as (li & d1 & d2 & resti & ->).
    destruct (Hent i j li d1 d2 resti _ Hij Hri Hj) as [-> _].
    f_equal. unfold marks. rewrite Hsoft.
    rewrite bool_decide_eq_false_2; [done|].
    intros [= -> Hzero ->].
    destruct (str_succ_head (Correction.int d1)) as (c & t & Hstr & Hc).
    rewrite Hstr in Hzero. by injection Hzero as <- _.
  - intros Hhard i j letter resti restj Hij Hi Hj.
    destruct (Hthree i _ Hi) as (li & d1 & d2 & rest & [= <- ->]).
    destruct (Hent i j letter d1 d2 rest _ Hij Hi Hj) as [-> _].
    f_equal. unfold marks. rewrite Hhard.
    by rewrite bool_decide_eq_true_2.
Qed.

Lemma remove_site_contact_zero_padded_witness :
  let h := [ONd (Arr2 (full 2 2 0%Q))] in
  (∃ l h' sel,
     Correction.remove_site_contact 0 ["A01-A02"; "A02-A03"] (literal "soft") false false h
       = (Ok l, h')
     ∧ is_literal (literal "soft") "soft" = true
     ∧ h' !! l = Some (ONd (BoolArr2 sel))
     ∧ get2 sel 0 1 = Some false)
  ∧ (∃ l h' sel,
       Correction.remove_site_contact 0 ["A01-A02"; "A02-A03"] (mk_str "soft" false)
         false false h = (Ok l, h')
       ∧ is_literal (mk_str "soft" false) "soft" = false
       ∧ h' !! l = Some (ONd (BoolArr2 sel))
       ∧ get2 sel 0 1 = Some true).
Proof.
  intros h. split.
  - pose (res := Correction.remove_site_contact 0 ["A01-A02"; "A02-A03"] (literal "soft")
                   false false h).
    assert (Correction.remove_site_contact 0 ["A01-A02"; "A02-A03"] (literal "soft")
              false false h = res) as Hres by reflexivity.
    vm_compute in res. subst res.
    destruct (remove_site_contact_zero_padded h 0 ["A01-A02"; "A02-A03"] (literal "soft")
                false false _ _ Hres) as (sel & rows & Hrows & Hsel & Hent & _).
    vm_compute in Hrows. injection Hrows as <-.
    eexists _, _, sel. split_and!; [exact Hres|reflexivity|exact Hsel|].
    apply (Hent eq_refl 0 1 "A" "2" ["03"]); [lia|reflexivity].
  - pose (res := Correction.remove_site_contact 0 ["A01-A02"; "A02-A03"]
                   (mk_str "soft" false) false false h).
    assert (Correction.remove_site_contact 0 ["A01-A02"; "A02-A03"] (mk_str "soft" false)
              false false h = res) as Hres by reflexivity.
    vm_compute in res. subst res.
    destruct (remove_site_contact_zero_padded h 0 ["A01-A02"; "A02-A03"]
                (mk_str "soft" false) false false _ _ Hres)
      as (sel & rows & Hrows & Hsel & _ & Hent).
    vm_compute in Hrows. injection Hrows as <-.
    eexists _, _, sel. split_and!; [exact Hres|reflexivity|exact Hsel|].
    apply (Hent eq_refl 0 1 "A" ["01"; "02"] ["02"; "03"]); [lia|reflexivity|reflexivity].
Defined.
